(** * alembic.util.langhelpers: the dispatch registry and the module proxy

    A shallow embedding of [src/alembic/util/langhelpers.py]:

    - [Dispatcher] (lines 253-280): a registry from [(type, qualifier)] to a
      handler, resolved along the method resolution order of an object's
      type, with independently writable branches;
    - [translate] (lines 112-136): the rewriting of legacy keyword names done
      by a generated proxy function before it forwards a call;
    - [ModuleClsProxy] (lines 13-162): module level proxy functions for the
      methods of a class, bound to the instance currently installed.

    Python objects that the code mutates and shares (the [_registry] of a
    [Dispatcher], the [globals_] and [locals_] dictionaries of a module, the
    class level [_setups] table) live in explicit stores addressed by
    locations, so that aliasing is visible.  Exceptions are values of [exn];
    a call that can raise returns a [result]. *)

From stdpp Require Import base option strings list gmap sets fin_maps sorting.
From Stdlib Require Import Ascii.
From Stdlib Require HexString.
From stdpp Require Import pretty.

(** ** Exceptions and results *)

(** The exception classes the module raises, or lets the interpreter raise.
    The spec's names map to them as follows: [UnresolvedDispatchError] is
    the [ValueError] of [Dispatcher.dispatch], [DuplicateRegistrationError]
    the [AssertionError] of [Dispatcher.dispatch_for],
    [ArgumentTranslationError] the [TypeError] of [translate] and
    [ProxyNotEstablishedError] the [NameError] of [_name_error].
    [CallError] is the [TypeError] the interpreter raises when the arguments
    of a call do not fit the signature of the callee; its wording depends on
    the interpreter and is not modelled. *)
Inductive exn :=
| AssertionError
| ValueError (msg : string)
| TypeError (msg : string)
| NameError (msg : string)
| AttributeError (msg : string)
| KeyError
| CallError.

Inductive result (A : Type) :=
| Ok (a : A)
| Raise (e : exn).
Arguments Ok {A} a.
Arguments Raise {A} e.

Definition is_ok {A} (r : result A) : bool :=
  match r with Ok _ => true | Raise _ => false end.

(** [mentions msg s]: the text [s] occurs in the message [msg]. *)
Definition mentions (msg s : string) : bool :=
  match String.index 0 s msg with Some _ => true | None => false end.

(** ** Classes and objects *)

(** A class object, identified by its [__name__]. *)
Record cls := Cls { cls_name : string }.

#[global] Instance cls_eq_dec : EqDecision cls.
Proof. solve_decision. Defined.
#[global] Instance cls_countable : Countable cls.
Proof. by apply (inj_countable' cls_name Cls); intros []. Defined.

(** What [Dispatcher.dispatch] looks at in the object it is given: its type,
    its [str()], and, when the object is a tuple, the [str()] of its items
    (the [%] operator unpacks a tuple on its right). *)
Record pyobject := PyObject {
  ob_type : cls;
  ob_str : string;
  ob_items : option (list string)
}.

(** [prefix + "%s" % o]: one conversion, so a tuple must hold one item. *)
Definition format_s (prefix : string) (o : pyobject) : result string :=
  match ob_items o with
  | None => Ok (prefix +:+ ob_str o)
  | Some [s] => Ok (prefix +:+ s)
  | Some [] => Raise (TypeError "not enough arguments for format string")
  | Some _ =>
      Raise (TypeError "not all arguments converted during string formatting")
  end.

(** Addresses of mutable objects. *)
Abbreviation loc := positive.

(** ** Dispatcher *)

Module Dispatcher.

(** The keys a [_registry] dictionary is asked about: [dispatch_for] stores
  under the tuple [(target, qualifier)] and tests the bare [target]. *)
Inductive dkey :=
| KType (c : cls)
| KPair (c : cls) (q : string).

#[global] Instance dkey_eq_dec : EqDecision dkey.
Proof. solve_decision. Defined.
#[global] Instance dkey_countable : Countable dkey.
Proof.
apply (inj_countable'
  (λ k, match k with KType c => inl c | KPair c q => inr (c, q) end)
  (λ s, match s with inl c => KType c | inr (c, q) => KPair c q end)).
by intros [].
Defined.

Section Dispatcher.
(** Handlers are opaque function objects. *)
Context {Fn : Type}.
(** [type(obj).__mro__], most derived class first. *)
Variable mro : cls → list cls.

(** The store of [Dispatcher] instances: each holds its [_registry]. *)
Definition registry_of (σ : gmap loc (gmap dkey Fn)) (d : loc)
  : gmap dkey Fn :=
  default ∅ (σ !! d).

(** [Dispatcher()]: a new object with an empty [_registry]. *)
Definition __init__ (σ : gmap loc (gmap dkey Fn))
  : loc * gmap loc (gmap dkey Fn) :=
  let d := fresh (dom σ) in (d, <[d := ∅]> σ).

(** [self.dispatch_for(target, qualifier)(fn)].  [target] is a class, so
    [assert isinstance(target, type)] holds. *)
Definition dispatch_for (self : loc) (target : cls) (qualifier : string)
    (fn : Fn) (σ : gmap loc (gmap dkey Fn))
  : result Fn * gmap loc (gmap dkey Fn) :=
  let reg := registry_of σ self in
  if decide (KType target ∈ dom reg) then (Raise AssertionError, σ)
  else (Ok fn, <[self := <[KPair target qualifier := fn]> reg]> σ).

Definition getitem (reg : gmap dkey Fn) (k : dkey) : result Fn :=
  match reg !! k with
  | Some fn => Ok fn
  | None => Raise KeyError
  end.

(** The [for ... else] of [dispatch], over the classes still to visit. *)
Fixpoint dispatch_loop (reg : gmap dkey Fn) (obj : pyobject)
    (qualifier : string) (classes : list cls) : result Fn :=
  match classes with
  | [] =>
      match format_s "no dispatch function for object: " obj with
      | Ok msg => Raise (ValueError msg)
      | Raise e => Raise e
      end
  | spcls :: rest =>
      if decide (qualifier ≠ "default" ∧ KPair spcls qualifier ∈ dom reg)
      then getitem reg (KPair spcls qualifier)
      else if decide (KPair spcls "default" ∈ dom reg)
      then getitem reg (KPair spcls "default")
      else dispatch_loop reg obj qualifier rest
  end.

(** [self.dispatch(obj, qualifier)]; it reads the store only. *)
Definition dispatch (self : loc) (obj : pyobject) (qualifier : string)
    (σ : gmap loc (gmap dkey Fn)) : result Fn :=
  dispatch_loop (registry_of σ self) obj qualifier (mro (ob_type obj)).

(** [self.branch()]: [dict.update] lets the entries of [self] win over
    those already in the new registry. *)
Definition branch (self : loc) (σ : gmap loc (gmap dkey Fn))
  : loc * gmap loc (gmap dkey Fn) :=
  let '(d, σ1) := __init__ σ in
  (d, <[d := registry_of σ1 self ∪ registry_of σ1 d]> σ1).

(** A class [c] answers a request for [qualifier] in [reg]. *)
Definition matches (reg : gmap dkey Fn) (qualifier : string) (c : cls)
  : Prop :=
  (qualifier ≠ "default" ∧ KPair c qualifier ∈ dom reg)
  ∨ KPair c "default" ∈ dom reg.

#[global] Instance matches_dec reg q c : Decision (matches reg q c).
Proof. unfold matches. apply _. Defined.

(** The handler [c] answers with: the qualified one when there is one. *)
Definition handler_at (reg : gmap dkey Fn) (qualifier : string) (c : cls)
  : option Fn :=
  if decide (qualifier ≠ "default" ∧ KPair c qualifier ∈ dom reg)
  then reg !! KPair c qualifier
  else reg !! KPair c "default".

(** Every key of the registry is a [(type, qualifier)] tuple. *)
Definition pairs_only (reg : gmap dkey Fn) : Prop :=
  ∀ c, reg !! KType c = None.

End Dispatcher.
End Dispatcher.

(** ** Values, signatures and calls *)

(** An instance of a proxied class: [self.__class__] and its identity. *)
Record instance := Instance { inst_cls : cls; inst_id : positive }.

(** The Python values passed as arguments and kept as defaults. *)
Inductive value :=
| VNone
| VInt (z : Z)
| VStr (s : string)
| VClass (c : cls)
| VInst (i : instance).

(** The tuple [inspect.getargspec] returns: [spec[0]] to [spec[3]].  No
    defaults ([None]) is the empty list. *)
Record argspec := ArgSpec {
  spec_args : list string;
  spec_varargs : option string;
  spec_keywords : option string;
  spec_defaults : list value
}.

(** What [inspect.formatargspec] writes between the parentheses, as a
    structure: each argument, with what follows its [=] sign when it has
    one, then the [*] and the [**] names.  With [D := value] it is the
    parameter list of a [def]; with [D := string] it is the argument list of
    a call, [name=x] passing the variable [x] under the keyword [name]. *)
Record formatted (D : Type) := Formatted {
  f_params : list (string * option D);
  f_varargs : option string;
  f_varkw : option string
}.
Arguments Formatted {D} _ _ _.
Arguments f_params {D} _.
Arguments f_varargs {D} _.
Arguments f_varkw {D} _.

(** [inspect.formatargspec(args, varargs, varkw, defaults)]: argument [i]
    gets [defaults[i - firstdefault]] when [i >= firstdefault], where
    [firstdefault = len(args) - len(defaults)]. *)
Definition formatargspec {D : Type} (args : list string)
    (varargs varkw : option string) (defaults : list D) : formatted D :=
  Formatted
    (imap (λ i arg,
       (arg,
        if decide (length args ≤ i + length defaults)
        then defaults !! (i + length defaults - length args)
        else None)) args)
    varargs varkw.

(** The parameters of a call, once bound: a value for each named parameter
    in order, the surplus positional arguments and the surplus keywords. *)
Record bound := Bound {
  b_args : list value;
  b_varargs : list value;
  b_kw : gmap string value
}.

#[global] Instance result_bind : MBind result :=
  λ A B f r, match r with Ok a => f a | Raise e => Raise e end.
#[global] Instance result_ret : MRet result := λ A a, Ok a.

(** The named parameters take the positional arguments first, then the
    keywords, then their defaults. *)
Fixpoint bind_params (params : list (string * option value))
    (pos : list value) (kw : gmap string value)
  : result (list value * list value * gmap string value) :=
  match params with
  | [] => Ok ([], pos, kw)
  | (a, d) :: params' =>
      match pos with
      | v :: pos' =>
          if decide (a ∈ dom kw) then Raise CallError
          else
            '(vs, rpos, rkw) ← bind_params params' pos' kw;
            Ok (v :: vs, rpos, rkw)
      | [] =>
          match kw !! a, d with
          | Some v, _ =>
              '(vs, rpos, rkw) ← bind_params params' [] (delete a kw);
              Ok (v :: vs, rpos, rkw)
          | None, Some v =>
              '(vs, rpos, rkw) ← bind_params params' [] kw;
              Ok (v :: vs, rpos, rkw)
          | None, None => Raise CallError
          end
      end
  end.

(** Calling a function declared with the parameter list [sig]. *)
Definition bind (sig : formatted value) (pos : list value)
    (kw : gmap string value) : result bound :=
  '(vs, rpos, rkw) ← bind_params (f_params sig) pos kw;
  if decide (f_varargs sig = None ∧ rpos ≠ []) then Raise CallError
  else if decide (f_varkw sig = None ∧ rkw ≠ ∅) then Raise CallError
  else Ok (Bound vs rpos rkw).

(** The local variables of a running function. *)
Inductive lval :=
| LVal (v : value)
| LTuple (l : list value)
| LDict (m : gmap string value).

Definition locals_of (sig : formatted value) (b : bound) : gmap string lval :=
  let env : gmap string lval :=
    list_to_map (zip (f_params sig).*1 (LVal <$> b_args b)) in
  let env :=
    match f_varargs sig with
    | Some x => <[x := LTuple (b_varargs b)]> env
    | None => env
    end in
  match f_varkw sig with
  | Some x => <[x := LDict (b_kw b)]> env
  | None => env
  end.

Definition read_val (env : gmap string lval) (x : string) : result value :=
  match env !! x with
  | Some (LVal v) => Ok v
  | _ => Raise CallError
  end.

(** The named part of an argument list: [a] passes the variable [a] by
    position, [a=x] passes [x] under the keyword [a]. *)
Fixpoint eval_params (params : list (string * option string))
    (env : gmap string lval) : result (list value * gmap string value) :=
  match params with
  | [] => Ok ([], ∅)
  | (a, None) :: params' =>
      v ← read_val env a;
      '(pos, kw) ← eval_params params' env;
      Ok (v :: pos, kw)
  | (a, Some x) :: params' =>
      v ← read_val env x;
      '(pos, kw) ← eval_params params' env;
      Ok (pos, <[a := v]> kw)
  end.

(** The arguments a call expression passes: [*x] must be a tuple, [**x] a
    dictionary that repeats no keyword. *)
Definition eval_call (call : formatted string) (env : gmap string lval)
  : result (list value * gmap string value) :=
  '(pos, kw) ← eval_params (f_params call) env;
  pos' ← match f_varargs call with
         | None => Ok pos
         | Some x =>
             match env !! x with
             | Some (LTuple l) => Ok (pos ++ l)
             | _ => Raise CallError
             end
         end;
  match f_varkw call with
  | None => Ok (pos', kw)
  | Some x =>
      match env !! x with
      | Some (LDict m) =>
          if decide (m ##ₘ kw) then Ok (pos', kw ∪ m)
          else Raise CallError
      | _ => Raise CallError
      end
  end.

(** *** The call a generated function forwards *)

(** The names a [def] with this [argspec] declares. *)
Definition param_names (spec : argspec) : list string :=
  spec_args spec ++ option_list (spec_varargs spec)
  ++ option_list (spec_keywords spec).

(** Parameters with a default come after those without. *)
Fixpoint defaults_at_tail {D : Type} (params : list (string * option D))
  : Prop :=
  match params with
  | [] => True
  | (_, None) :: params' => defaults_at_tail params'
  | (_, Some _) :: params' => Forall (λ p, is_Some p.2) params'
  end.

(** The argument list [inspect.formatargspec] writes with
    [formatvalue=lambda x: '=' + x] for the names of the defaulted
    parameters: [a] for a parameter without default, [a=a] for one with. *)
Definition inner_params (params : list (string * option value))
  : list (string * option string) :=
  (λ p : string * option value,
     (p.1, match p.2 with Some _ => Some p.1 | None => None end))
  <$> params.

(** What that argument list passes when the parameters hold [vs]: by
    position the values of the parameters without default, by keyword
    those of the parameters with one. *)
Fixpoint forwarded_pos (params : list (string * option value))
    (vs : list value) : list value :=
  match params, vs with
  | (_, None) :: params', v :: vs' => v :: forwarded_pos params' vs'
  | (_, Some _) :: params', _ :: vs' => forwarded_pos params' vs'
  | _, _ => []
  end.

Fixpoint forwarded_kw (params : list (string * option value))
    (vs : list value) : gmap string value :=
  match params, vs with
  | (_, None) :: params', _ :: vs' => forwarded_kw params' vs'
  | (a, Some _) :: params', v :: vs' => <[a := v]> (forwarded_kw params' vs')
  | _, _ => ∅
  end.

(** ** Legacy keyword names *)

Module Translate.

(** [for oldname, newname in translations: if oldname in kw:
    return_kw[newname] = kw.pop(oldname)], on the pair of dictionaries. *)
Fixpoint rename_loop (translations : list (string * string))
    (return_kw kw : gmap string value)
  : gmap string value * gmap string value :=
  match translations with
  | [] => (return_kw, kw)
  | (oldname, newname) :: rest =>
      match kw !! oldname with
      | Some v => rename_loop rest (<[newname := v]> return_kw)
                    (delete oldname kw)
      | None => rename_loop rest return_kw kw
      end
  end.

(** The keywords [translate] returns: the loop, then
    [return_kw.update(kw)]. *)
Definition translate_kw (translations : list (string * string))
    (kw : gmap string value) : gmap string value :=
  let '(return_kw, kw') := rename_loop translations ∅ kw in
  kw' ∪ return_kw.

(** [spec[0][:-len(spec[3])]] when there are defaults, [spec[0]] when not. *)
Definition pos_only (spec : argspec) : list string :=
  match spec_defaults spec with
  | [] => spec_args spec
  | _ => take (length (spec_args spec) - length (spec_defaults spec))
           (spec_args spec)
  end.

(** [for arg in pos_only: if arg not in return_kw:
    return_args.append(args.pop(0))], the [IndexError] turned into a
    [TypeError]. *)
Fixpoint fill_loop (pos_only : list string) (return_kw : gmap string value)
    (return_args args : list value) : result (list value * list value) :=
  match pos_only with
  | [] => Ok (return_args, args)
  | arg :: rest =>
      if decide (arg ∈ dom return_kw)
      then fill_loop rest return_kw return_args args
      else
        match args with
        | v :: args' => fill_loop rest return_kw (return_args ++ [v]) args'
        | [] =>
            Raise (TypeError
                     ("missing required positional argument: " +:+ arg))
        end
  end.

(** [translate(spec, translations, args, kw)]. *)
Definition translate (spec : argspec) (translations : list (string * string))
    (args : list value) (kw : gmap string value)
  : result (list value * gmap string value) :=
  let return_kw := translate_kw translations kw in
  '(return_args, args') ← fill_loop (pos_only spec) return_kw [] args;
  Ok (return_args ++ args', return_kw).

End Translate.

(** ** ModuleClsProxy *)

Module ModuleClsProxy.

Inductive method_kind := InstanceMethod | ClassMethod | StaticMethod.

#[global] Instance method_kind_eq_dec : EqDecision method_kind.
Proof. solve_decision. Defined.

(** A class attribute as [getattr(cls, name)] shows it.  A callable one is a
    Python function: its [inspect.getargspec], the [_legacy_translations]
    that [_with_legacy_names] left on it (none is the empty list) and its
    [__doc__].  Callable objects that are not functions, which
    [inspect.getargspec] refuses, are outside the model; so are default
    values whose [repr] the generated text cannot evaluate back. *)
Inductive member :=
| MFunction (kind : method_kind) (spec : argspec)
    (legacy_translations : list (string * string)) (doc : option string)
| MAttribute.

Definition callable (m : member) : bool :=
  match m with MFunction _ _ _ _ => true | MAttribute => false end.

(** The function [exec_] makes of [func_text]: the text is kept as its
    parts.  [pf_outer] is the parameter list, [pf_translate] the arguments
    of the [_translate] line when there is one, [pf_inner] the arguments of
    the forwarded call, [pf_globals] the dictionary its global names are
    looked up in. *)
Record proxy_function := ProxyFunction {
  pf_name : string;
  pf_doc : option string;
  pf_outer : formatted value;
  pf_translate : option (argspec * list (string * string));
  pf_inner : formatted string;
  pf_globals : loc
}.

(** What a name of a [globals_] or [locals_] dictionary can be bound to:
    a value, the attribute [name] of an instance as [getattr] returned it, a
    generated function, the closure [_name_error] of a class, the function
    [translate]. *)
Inductive entry :=
| EVal (v : value)
| EGetattr (i : instance) (name : string)
| EFunction (f : proxy_function)
| ENameError (c : cls)
| ETranslate.

(** The mutable state: the namespace dictionaries, by address;
    [ModuleClsProxy._setups], from a class to its [(attr_names, modules)];
    the attributes of each class. *)
Record world := World {
  dicts : gmap loc (gmap string entry);
  setups : gmap cls (gset string * list (loc * loc));
  members : gmap cls (gmap string member)
}.

Definition dict_of (w : world) (d : loc) : gmap string entry :=
  default ∅ (dicts w !! d).

(** [_setups] is a [defaultdict] of [(set(), [])]. *)
Definition setup_of (w : world) (c : cls) : gset string * list (loc * loc) :=
  default (∅, []) (setups w !! c).
Definition attr_names (w : world) (c : cls) : gset string := (setup_of w c).1.
Definition modules (w : world) (c : cls) : list (loc * loc) :=
  (setup_of w c).2.

Definition members_of (w : world) (c : cls) : gmap string member :=
  default ∅ (members w !! c).

(** [d[k] = e] *)
Definition setitem (d : loc) (k : string) (e : entry) (w : world) : world :=
  World (<[d := <[k := e]> (dict_of w d)]> (dicts w)) (setups w) (members w).

(** [del d[k]] *)
Definition delitem (d : loc) (k : string) (w : world) : result () * world :=
  if decide (k ∈ dom (dict_of w d))
  then (Ok (),
        World (<[d := delete k (dict_of w d)]> (dicts w)) (setups w)
          (members w))
  else (Raise KeyError, w).

(** [attr_names.add(name)], on the set of the class [c] *)
Definition add_attr_name (c : cls) (name : string) (w : world) : world :=
  World (dicts w)
    (<[c := ({[name]} ∪ attr_names w c, modules w c)]> (setups w))
    (members w).

(** [modules.append((globals_, locals_))], on the list of the class [c] *)
Definition append_module (c : cls) (g l : loc) (w : world) : world :=
  World (dicts w)
    (<[c := (attr_names w c, modules w c ++ [(g, l)])]> (setups w))
    (members w).

(** [type.__setattr__(cls, key, value)] *)
Definition set_member (c : cls) (key : string) (m : member) (w : world)
  : world :=
  World (dicts w) (setups w)
    (<[c := <[key := m]> (members_of w c)]> (members w)).

(** [dir(cls)]: the attribute names, sorted. *)
Definition dir_ (w : world) (c : cls) : list string :=
  merge_sort String.le (elements (dom (members_of w c))).

(** A [for] loop whose body may raise: the exception ends it. *)
Fixpoint for_each {A : Type} (body : A → world → result () * world)
    (l : list A) (w : world) : result () * world :=
  match l with
  | [] => (Ok (), w)
  | x :: l' =>
      match body x w with
      | (Ok _, w1) => for_each body l' w1
      | (Raise e, w1) => (Raise e, w1)
      end
  end.

(** [if spec[0] and spec[0][0] == 'self': spec[0].pop(0)] *)
Definition pop_self (spec : argspec) : argspec :=
  match spec_args spec with
  | a :: rest =>
      if decide (a = "self")
      then ArgSpec rest (spec_varargs spec) (spec_keywords spec)
             (spec_defaults spec)
      else spec
  | [] => spec
  end.

(** [name_args[0 - num_defaults:]] when [num_defaults], [()] when not *)
Definition defaulted_vals (name_args : list string) (num_defaults : nat)
  : list string :=
  match num_defaults with
  | 0 => []
  | _ => drop (length name_args - num_defaults) name_args
  end.

(** The text ["*args, **kw"]. *)
Definition star_args_kw {D : Type} : formatted D :=
  Formatted [] (Some "args") (Some "kw").

Definition name_error_message (name : string) (c : cls) : string :=
  "Can't invoke function '" +:+ name
  +:+ "', as the proxy object has not yet been established for the Alembic '"
  +:+ cls_name c +:+ "' class.  Try placing this code inside a callable.".

(** The function [_create_method_proxy] generates for a function [fn] found
    under [name], with [spec0 = inspect.getargspec(fn)], from the popping
    of [self] to [exec_]. *)
Definition func_text (name : string) (globals_ : loc) (spec0 : argspec)
    (translations : list (string * string)) (doc : option string)
  : proxy_function :=
  let spec := pop_self spec0 in
  let args :=
    formatargspec (spec_args spec) (spec_varargs spec) (spec_keywords spec)
      (spec_defaults spec) in
  let num_defaults := length (spec_defaults spec) in
  let name_args := spec_args spec in
  let apply_kw :=
    formatargspec name_args (spec_varargs spec) (spec_keywords spec)
      (defaulted_vals name_args num_defaults) in
  match translations with
  | _ :: _ =>
      ProxyFunction name doc star_args_kw (Some (spec, translations))
        star_args_kw globals_
  | [] => ProxyFunction name doc args None apply_kw globals_
  end.

(** What [_create_method_proxy] binds in [globals_]: [_name_error], the
    closure over [cls], and [_translate] when the function has
    translations. *)
Definition bind_helpers (c : cls) (globals_ : loc)
    (translations : list (string * string)) (w : world) : world :=
  match translations with
  | _ :: _ =>
      setitem globals_ "_translate" ETranslate
        (setitem globals_ "_name_error" (ENameError c) w)
  | [] => setitem globals_ "_name_error" (ENameError c) w
  end.

(** [cls._create_method_proxy(name, globals_, locals_)] *)
Definition _create_method_proxy (c : cls) (name : string) (globals_ locals_ : loc)
    (w : world) : result proxy_function * world :=
  match members_of w c !! name with
  | None =>
      (Raise (AttributeError
                ("type object '" +:+ cls_name c +:+ "' has no attribute '"
                 +:+ name +:+ "'")), w)
  | Some MAttribute => (Raise (TypeError "arg is not a Python function"), w)
  | Some (MFunction _ spec0 translations doc) =>
      (Ok (func_text name globals_ spec0 translations doc),
       bind_helpers c globals_ translations w)
  end.

(** [cls._add_proxied_attribute(methname, globals_, locals_, attr_names)],
    where [attr_names] is the set of [cls] in [_setups], as at every call. *)
Definition _add_proxied_attribute (c : cls) (methname : string)
    (globals_ locals_ : loc) (w : world) : result () * world :=
  if negb (String.prefix "_" methname) then
    match members_of w c !! methname with
    | None =>
        (Raise (AttributeError
                  ("type object '" +:+ cls_name c +:+ "' has no attribute '"
                   +:+ methname +:+ "'")), w)
    | Some meth =>
        if callable meth then
          match _create_method_proxy c methname globals_ locals_ w with
          | (Ok f, w1) => (Ok (), setitem locals_ methname (EFunction f) w1)
          | (Raise e, w1) => (Raise e, w1)
          end
        else (Ok (), add_attr_name c methname w)
    end
  else (Ok (), w).

(** [cls._update_module_proxies(name)] *)
Definition _update_module_proxies (c : cls) (name : string) (w : world)
  : result () * world :=
  for_each (λ '(globals_, locals_), _add_proxied_attribute c name globals_ locals_)
    (modules w c) w.

(** [_ModuleClsMeta.__setattr__(cls, key, value)] *)
Definition __setattr__ (c : cls) (key : string) (value : member) (w : world)
  : result () * world :=
  _update_module_proxies c key (set_member c key value w).

(** [self._install_proxy()]; [elements] stands for the order in which the
    set is iterated, which Python leaves open. *)
Definition _install_proxy (self : instance) (w : world) : result () * world :=
  let names := elements (attr_names w (inst_cls self)) in
  for_each (λ '(globals_, locals_) w,
      for_each (λ attr_name w,
          (Ok (), setitem globals_ attr_name (EGetattr self attr_name) w))
        names (setitem globals_ "_proxy" (EVal (VInst self)) w))
    (modules w (inst_cls self)) w.

(** [self._remove_proxy()] *)
Definition _remove_proxy (self : instance) (w : world) : result () * world :=
  let names := elements (attr_names w (inst_cls self)) in
  for_each (λ '(globals_, locals_) w,
      for_each (λ attr_name, delitem globals_ attr_name)
        names (setitem globals_ "_proxy" (EVal VNone) w))
    (modules w (inst_cls self)) w.

(** [cls._setup_proxy(globals_, locals_, attr_names)] *)
Definition _setup_proxy (c : cls) (globals_ locals_ : loc) (w : world)
  : result () * world :=
  for_each (λ methname, _add_proxied_attribute c methname globals_ locals_)
    (dir_ w c) w.

(** [cls.create_module_class_proxy(globals_, locals_)] *)
Definition create_module_class_proxy (c : cls) (globals_ locals_ : loc)
    (w : world) : result () * world :=
  _setup_proxy c globals_ locals_ (append_module c globals_ locals_ w).

(** *** Calls *)

(** The parameter list a function was declared with. *)
Definition signature (spec : argspec) : formatted value :=
  formatargspec (spec_args spec) (spec_varargs spec) (spec_keywords spec)
    (spec_defaults spec).

(** What a method looked up on the instance [i] is bound to. *)
Definition receiver (kind : method_kind) (i : instance) : list value :=
  match kind with
  | InstanceMethod => [VInst i]
  | ClassMethod => [VClass (inst_cls i)]
  | StaticMethod => []
  end.

(** A method body entered: on which instance, under which name, with which
    parameter values (the receiver among them). *)
Record invocation := Invocation {
  inv_self : instance;
  inv_name : string;
  inv_bound : bound
}.

(** Calling the attribute [m], found under [name] on [i]. *)
Definition invoke (i : instance) (name : string) (m : member)
    (pos : list value) (kw : gmap string value) : result invocation :=
  match m with
  | MAttribute => Raise CallError
  | MFunction kind spec _ _ =>
      b ← bind (signature spec) (receiver kind i ++ pos) kw;
      Ok (Invocation i name b)
  end.

Definition no_attribute (c : cls) (name : string) : exn :=
  AttributeError
    ("'" +:+ cls_name c +:+ "' object has no attribute '" +:+ name +:+ "'").

(** The direct call [getattr(i, name)] with the arguments [pos] and [kw]. *)
Definition call_method (w : world) (i : instance) (name : string)
    (pos : list value) (kw : gmap string value) : result invocation :=
  match members_of w (inst_cls i) !! name with
  | None => Raise (no_attribute (inst_cls i) name)
  | Some m => invoke i name m pos kw
  end.

(** The line [args, kw = _translate(spec, translations, args, kw)] *)
Definition translate_line (w : world) (f : proxy_function)
    (env : gmap string lval) : result (gmap string lval) :=
  match pf_translate f with
  | None => Ok env
  | Some (spec, translations) =>
      match dict_of w (pf_globals f) !! "_translate" with
      | None => Raise (NameError "name '_translate' is not defined")
      | Some ETranslate =>
          match env !! "args", env !! "kw" with
          | Some (LTuple args), Some (LDict kw) =>
              '(args', kw') ← Translate.translate spec translations args kw;
              Ok (<["kw" := LDict kw']> (<["args" := LTuple args']> env))
          | _, _ => Raise CallError
          end
      | Some _ => Raise CallError
      end
  end.

(** The names a parameter list declares: they are the local variables of
    the function from its entry. *)
Definition parameters (sig : formatted value) : list string :=
  (f_params sig).*1 ++ option_list (f_varargs sig)
  ++ option_list (f_varkw sig).

(** [_proxy.name(...)] once [_proxy] has been read as [o], with the local
    variables [env].  Of the values of the model only an instance of a
    proxied class carries the attribute [name]; on anything else the lookup
    raises [AttributeError].  [None] is what [_remove_proxy] leaves; for the
    other values the wording of the message, and the attributes a built-in
    type has of its own, are not modelled. *)
Definition call_attribute (w : world) (f : proxy_function)
    (env : gmap string lval) (o : lval) : result invocation :=
  match o with
  | LVal (VInst i) =>
      match members_of w (inst_cls i) !! pf_name f with
      | None => Raise (no_attribute (inst_cls i) (pf_name f))
      | Some m =>
          '(pos', kw') ← eval_call (pf_inner f) env;
          invoke i (pf_name f) m pos' kw'
      end
  | LVal VNone =>
      Raise (AttributeError
               ("'NoneType' object has no attribute '" +:+ pf_name f +:+ "'"))
  | _ =>
      Raise (AttributeError
               ("object has no attribute '" +:+ pf_name f +:+ "'"))
  end.

(** [_name_error('name')], reached when [_proxy] is no name at all.  A
    parameter called [_name_error] is a local variable and is called in the
    place of the helper: the values of the model are not callable (a class
    or a callable instance passed there is outside the model). *)
Definition name_error_line (w : world) (f : proxy_function)
    (env : gmap string lval) : result invocation :=
  match env !! "_name_error" with
  | Some _ => Raise CallError
  | None =>
      match dict_of w (pf_globals f) !! "_name_error" with
      | None => Raise (NameError "name '_name_error' is not defined")
      | Some (ENameError c) =>
          Raise (NameError (name_error_message (pf_name f) c))
      | Some _ => Raise CallError
      end
  end.

(** Calling a generated function [f] with [pos] and [kw]: the parameters are
    bound, the [_translate] line runs when there is one, [p = _proxy] is
    tried, and [_proxy.name(...)] is called with [pf_inner].  A parameter
    called [_proxy] is a local variable and hides the global one, at both
    places; the assignment makes [p] a local variable, so it overwrites a
    parameter called [p]. *)
Definition call_proxy_function (w : world) (f : proxy_function)
    (pos : list value) (kw : gmap string value) : result invocation :=
  b ← bind (pf_outer f) pos kw;
  env ← translate_line w f (locals_of (pf_outer f) b);
  match env !! "_proxy" with
  | Some o => call_attribute w f (<["p" := o]> env) o
  | None =>
      match dict_of w (pf_globals f) !! "_proxy" with
      | None => name_error_line w f env
      | Some (EVal v) =>
          call_attribute w f (<["p" := LVal v]> env) (LVal v)
      | Some _ =>
          Raise (AttributeError
                   ("object has no attribute '" +:+ pf_name f +:+ "'"))
      end
  end.

End ModuleClsProxy.

(** *** States and example programs of the proxy *)

Module ProxyExamples.
Import ModuleClsProxy.

(** The instance [self] is the one installed: every [globals_] registered
    for its class binds [_proxy] to it and each name of [attr_names] to its
    attribute, as [_install_proxy] leaves them. *)
Definition attached (w : world) (self : instance) : Prop :=
  ∀ g, g ∈ (modules w (inst_cls self)).*1 →
    dict_of w g !! "_proxy" = Some (EVal (VInst self))
    ∧ ∀ a, a ∈ attr_names w (inst_cls self) →
        dict_of w g !! a = Some (EGetattr self a).

(** While [_update_module_proxies] runs, the class keeps the attributes and
    the modules it had in [w0]. *)
Definition update_inv (w0 : world) (c : cls) (w : world) : Prop :=
  members w = members w0 ∧ modules w c = modules w0 c.

(** While [_setup_proxy] runs from [w0], the class keeps its attributes and
    its modules, and [attr_names] gains only public attributes that are not
    callable. *)
Definition register_inv (w0 : world) (c : cls) (w : world) : Prop :=
  members w = members w0
  ∧ modules w c = modules w0 c
  ∧ ∀ a, a ∈ attr_names w c →
      a ∈ attr_names w0 c
      ∨ (String.prefix "_" a = false ∧ members_of w0 c !! a = Some MAttribute).

(** What a call gives once the parameters are bound and the [_translate]
    line has run, when the rest of the body can only raise [e]. *)
Definition raises_after_arguments (w : world) (f : proxy_function)
    (pos : list value) (kw : gmap string value) (e : exn)
  : result invocation :=
  match
    bind (pf_outer f) pos kw
    ≫= λ b, translate_line w f (locals_of (pf_outer f) b)
  with
  | Ok _ => Raise e
  | Raise e' => Raise e'
  end.

(** A class with three methods, one of them with a legacy keyword, and a
    plain attribute. *)
Definition Operations : cls := Cls "Operations".

Definition go_spec : argspec := ArgSpec ["self"; "a"; "b"] None None [VInt 1].
Definition many_spec : argspec :=
  ArgSpec ["self"; "a"; "b"] (Some "rest") (Some "opts") [VInt 1].
Definition drop_spec : argspec := ArgSpec ["self"; "new"; "x"] None None [VNone].

Definition operations_members : gmap string member :=
  list_to_map
    [("go", MFunction InstanceMethod go_spec [] None);
     ("many", MFunction InstanceMethod many_spec [] None);
     ("drop", MFunction InstanceMethod drop_spec [("old", "new")] None);
     ("version", MAttribute);
     ("_hidden", MFunction InstanceMethod (ArgSpec ["self"] None None []) []
        None)].

Definition ops : instance := Instance Operations 7.

(** The class alone; then registered in the module whose [globals()] and
    [locals()] are the one dictionary at address 1; then with [ops]
    installed; then with [ops] removed. *)
Definition w_class : world := World ∅ ∅ {[Operations := operations_members]}.
Definition w_registered : world :=
  (create_module_class_proxy Operations 1 1 w_class).2.
Definition w_installed : world := (_install_proxy ops w_registered).2.
Definition w_removed : world := (_remove_proxy ops w_installed).2.

(** The class registered in two modules, with [globals_] at 1 and 3 and
    [locals_] at 2 and 4. *)
Definition w_two_scopes : world :=
  (create_module_class_proxy Operations 3 4
     (create_module_class_proxy Operations 1 2 w_class).2).2.

Definition foo_spec : argspec := ArgSpec ["self"; "n"] None None [].

End ProxyExamples.

(** *** A second class in the same module *)

Module SharedExamples.
Import ModuleClsProxy ProxyExamples.

(** A second proxied class, with a method and a class method. *)
Definition Context : cls := Cls "Context".

Definition configure_spec : argspec :=
  ArgSpec ["self"; "url"] None (Some "kw") [].
Definition create_spec : argspec := ArgSpec ["cls"; "url"] None None [].

Definition context_members : gmap string member :=
  list_to_map
    [("configure", MFunction InstanceMethod configure_spec [] None);
     ("create", MFunction ClassMethod create_spec [] None)].

Definition ctx : instance := Instance Context 9.

(** The two classes, neither registered yet; then [Context] registered in
    the module at 1 with [ctx] installed. *)
Definition w_classes : world :=
  World ∅ ∅ {[Operations := operations_members; Context := context_members]}.
Definition w_context : world :=
  (_install_proxy ctx (create_module_class_proxy Context 1 1 w_classes).2).2.

End SharedExamples.

(** A class whose method has a parameter called [_proxy], the name the
    generated text reads the installed instance from: registered in the
    module at 1 with [r1] installed, then with [r1] removed. *)
Module ShadowExamples.
Import ModuleClsProxy ProxyExamples.


End ShadowExamples.

(** ** Client programs of the dispatcher *)

Module DispatchExamples.
Import Dispatcher.

(** A sequence of registrations [(table, target, qualifier, handler)], run
    in order; a registration that raises leaves the store as it is. *)
Definition register_all {Fn : Type} (ops : list (loc * cls * string * Fn))
    (σ : gmap loc (gmap dkey Fn)) : gmap loc (gmap dkey Fn) :=
  foldl (λ σ '(t, target, q, fn), (dispatch_for t target q fn σ).2) σ ops.

(** The registrations of [ops] made on the table [t]. *)
Definition on_table {Fn : Type} (t : loc) (ops : list (loc * cls * string * Fn))
  : list (loc * cls * string * Fn) :=
  filter (λ op, op.1.1.1 = t) ops.

Definition object_ : cls := Cls "object".
Definition Base : cls := Cls "Base".
Definition Derived : cls := Cls "Derived".

(** [class Base(object)] and [class Derived(Base)]; any other class derives
    from [object] directly. *)
Definition example_mro (c : cls) : list cls :=
  if decide (c = Derived) then [Derived; Base; object_]
  else if decide (c = object_) then [object_]
  else [c; object_].

Definition baseInstance : pyobject := PyObject Base "<Base object>" None.
Definition derivedInstance : pyobject :=
  PyObject Derived "<Derived object>" None.

(** [t = Dispatcher(); t.dispatch_for(Base)(H1);
    t.dispatch_for(Derived, 'x')(H2)], handlers named by strings. *)
Definition example_table : loc * gmap loc (gmap dkey string) :=
  let '(t, σ0) := __init__ ∅ in
  let σ1 := (dispatch_for t Base "default" "H1" σ0).2 in
  let σ2 := (dispatch_for t Derived "x" "H2" σ1).2 in
  (t, σ2).

(** An object of a class with its own [__str__]. *)
Definition Widget : cls := Cls "Widget".
Definition widget : pyobject := PyObject Widget "a nice thing" None.

End DispatchExamples.

(** ** Decorators *)

Module LegacyNames.
Import ModuleClsProxy.

(** [_with_legacy_names(translations)(fn)]: [fn] itself, with the attribute
    [_legacy_translations] set.  A value that is not a function keeps
    being an attribute that is not callable. *)
Definition _with_legacy_names (translations : list (string * string))
    (fn : member) : member :=
  match fn with
  | MFunction kind spec _ doc => MFunction kind spec translations doc
  | MAttribute => MAttribute
  end.

End LegacyNames.

(** ** Plain helpers *)

Module Helpers.

(** The Python values the plain helpers are given: [None], integers,
    strings, lists and tuples.  Integers stand for the objects that are
    neither strings nor iterable. *)
#[warnings="-register-all"] Inductive pyval :=
| PNone
| PInt (z : Z)
| PStr (s : string)
| PList (items : list pyval)
| PTuple (items : list pyval).

(** [type(v).__name__] *)
Definition type_name (v : pyval) : string :=
  match v with
  | PNone => "NoneType"
  | PInt _ => "int"
  | PStr _ => "str"
  | PList _ => "list"
  | PTuple _ => "tuple"
  end.

(** [repr(v)] for the values that reach a [%r]: the integers. *)
Definition repr_int (z : Z) : string := pretty z.

(** [str.lower], on the letters A to Z; no other byte of a string is a
    letter of ['true'] in lower case. *)
Definition lower_char (a : Ascii.ascii) : Ascii.ascii :=
  let n := Ascii.nat_of_ascii a in
  if decide (65 ≤ n ∧ n ≤ 90) then Ascii.ascii_of_nat (n + 32) else a.

Fixpoint lower (s : string) : string :=
  match s with
  | EmptyString => EmptyString
  | String a s' => String (lower_char a) (lower s')
  end.

(** [asbool(value)]: [value is not None and value.lower() == 'true'].  Of
    the values here only strings have a [lower] method. *)
Definition asbool (value : pyval) : result bool :=
  match value with
  | PNone => Ok false
  | PStr s => Ok (bool_decide (lower s = "true"))
  | _ =>
      Raise (AttributeError
               ("'" +:+ type_name value
                +:+ "' object has no attribute 'lower'"))
  end.

(** [to_list(x, default)] *)
Definition to_list (x default : pyval) : result pyval :=
  match x with
  | PNone => Ok default
  | PStr _ => Ok (PList [x])
  | PList items | PTuple items => Ok (PList items)
  | PInt z =>
      Raise (ValueError
               ("Don't know how to turn " +:+ repr_int z +:+ " into a list"))
  end.

(** [to_tuple(x, default)] *)
Definition to_tuple (x default : pyval) : result pyval :=
  match x with
  | PNone => Ok default
  | PStr _ => Ok (PTuple [x])
  | PList items | PTuple items => Ok (PTuple items)
  | PInt z =>
      Raise (ValueError
               ("Don't know how to turn " +:+ repr_int z +:+ " into a tuple"))
  end.

(** The interpreter running the module, which is written for both. *)
Inductive interpreter := Python2 | Python3.

(** [hex(n)] for the integer [rev_id] formats: the digits in lower case
    after [0x].  In Python 2 the integer is a [long], [uuid.UUID.__int__]
    returning one, and the [hex] of a [long] ends in [L]. *)
Definition hex (py : interpreter) (n : N) : string :=
  match py with
  | Python2 => HexString.of_N n +:+ "L"
  | Python3 => HexString.of_N n
  end.

(** [s[2:-1]] *)
Definition slice_2_m1 (s : string) : string :=
  String.substring 2 (String.length s - 3) s.

(** [rev_id()], where [u] is the integer of the [uuid.uuid4()] drawn. *)
Definition rev_id (py : interpreter) (u : N) : string :=
  let val := (u mod 100000000000000)%N in
  slice_2_m1 (hex py val).

End Helpers.

(** ** immutabledict *)

Module immutabledict.
Section immutabledict.
Context `{Countable K} {V : Type}.

(** [immutabledict._immutable], bound to [__delitem__], [__setitem__],
    [__setattr__], [clear], [pop], [popitem], [setdefault] and [update]:
    whatever the arguments, it raises. *)
Definition _immutable {A : Type} (class_name : string) : result A :=
  Raise (TypeError (class_name +:+ " object is immutable")).

(** The calls that would write a [dict]. *)
Inductive mutation :=
| Delitem (k : K)
| Setitem (k : K) (v : V)
| Setattr (name : string)
| Clear
| Pop (k : K)
| Popitem
| Setdefault (k : K) (v : V)
| Update (d : gmap K V).

(** A call of one of them on an [immutabledict] holding [self]: the
    outcome and what the dictionary holds afterwards. *)
Definition mutate (self : gmap K V) (m : mutation)
  : result () * gmap K V :=
  (_immutable "immutabledict", self).

(** [self.union(d)]: [immutabledict(d)] when [self] is empty, a copy of
    [self] updated with [d] when not. *)
Definition union (self d : gmap K V) : gmap K V :=
  if decide (size self = 0) then d
  else
    let d2 := self in
    d ∪ d2.

End immutabledict.
End immutabledict.

(** ** memoized_property *)

Module memoized_property.
Section memoized_property.
Context {V : Type}.

(** The descriptor: [fget], taken as a function of the [__dict__] of the
    object it is given, with its [__name__], and [__doc__]. *)
Record memoized_property := MemoizedProperty {
  fget : gmap string V → V;
  __name__ : string;
  __doc__ : option string
}.

(** [memoized_property(fget, doc)], for a function [fget] with the given
    [__name__] and [__doc__]: [doc or fget.__doc__], where an empty [doc]
    counts as none. *)
Definition __init__ (fget_fn : gmap string V → V) (fget_name : string)
    (fget_doc : option string) (doc : option string) : memoized_property :=
  let doc' :=
    match doc with
    | Some s => if decide (s = "") then fget_doc else Some s
    | None => fget_doc
    end in
  MemoizedProperty fget_fn fget_name doc'.

(** An object with the property: its [__dict__], and how many times [fget]
    was called on it. *)
Record object := Object {
  ob_dict : gmap string V;
  ob_calls : nat
}.

(** [self.__get__(obj, cls)]: the descriptor itself when [obj] is [None];
    else [fget(obj)], stored in [obj.__dict__] under [self.__name__]. *)
Definition __get__ (self : memoized_property) (obj : option object)
  : (memoized_property + V) * option object :=
  match obj with
  | None => (inl self, None)
  | Some o =>
      let result := fget self (ob_dict o) in
      (inr result,
       Some (Object (<[__name__ self := result]> (ob_dict o))
               (S (ob_calls o))))
  end.

(** [obj.attr], for a class that binds [attr] to the descriptor [self]: a
    descriptor without [__set__] gives way to an entry of [obj.__dict__]. *)
Definition getattr (self : memoized_property) (attr : string) (o : object)
  : (memoized_property + V) * object :=
  match ob_dict o !! attr with
  | Some v => (inr v, o)
  | None =>
      let '(r, o') := __get__ self (Some o) in
      (r, default o o')
  end.

End memoized_property.
End memoized_property.

(** * Properties *)

Section DispatcherFacts.
Import Dispatcher DispatchExamples.
Context {Fn : Type}.
Implicit Types (σ : gmap loc (gmap dkey Fn)) (reg : gmap dkey Fn).
Implicit Types (t self : loc) (q : string) (c : cls) (fn : Fn).

Lemma getitem_Ok reg k fn : getitem reg k = Ok fn ↔ reg !! k = Some fn.
Proof. unfold getitem. destruct (reg !! k); naive_solver. Qed.

Lemma matches_handler_at reg q c :
  matches reg q c → is_Some (handler_at reg q c).
Proof.
  unfold matches, handler_at. intros Hm.
  case_decide as Hq.
  - apply elem_of_dom, Hq.
  - destruct Hm as [Hm | Hm]; [done | by apply elem_of_dom].
Qed.

(** One step of the loop: a class that answers ends the walk with its
    handler, a class that does not is passed over. *)
Lemma dispatch_loop_cons reg obj q c rest :
  dispatch_loop reg obj q (c :: rest) =
    if decide (matches reg q c)
    then match handler_at reg q c with
         | Some fn => Ok fn
         | None => Raise KeyError
         end
    else dispatch_loop reg obj q rest.
Proof.
  simpl. unfold matches, handler_at, getitem.
  destruct (decide (q ≠ "default" ∧ KPair c q ∈ dom reg)) as [Hq | Hq].
  - by rewrite decide_True by auto.
  - destruct (decide (KPair c "default" ∈ dom reg)) as [Hd | Hd].
    + by rewrite decide_True by auto.
    + rewrite decide_False; [done | tauto].
Qed.

Lemma dispatch_loop_no_match reg obj q l :
  Forall (λ c, ¬ matches reg q c) l →
  dispatch_loop reg obj q l = dispatch_loop reg obj q [].
Proof.
  induction 1 as [| c l Hc _ IH]; [done |].
  rewrite dispatch_loop_cons. by case_decide.
Qed.

Lemma dispatch_loop_Ok reg obj q l fn :
  dispatch_loop reg obj q l = Ok fn ↔
  ∃ pre c post, l = pre ++ c :: post
    ∧ Forall (λ b, ¬ matches reg q b) pre
    ∧ matches reg q c
    ∧ handler_at reg q c = Some fn.
Proof.
  induction l as [| a l IH].
  - split.
    + simpl. destruct (format_s _ _); discriminate.
    + intros (pre & c & post & Hl & _). by destruct pre.
  - rewrite dispatch_loop_cons. case_decide as Ha.
    + split.
      * destruct (handler_at reg q a) as [fn' |] eqn:Hh; [| discriminate].
        intros [= ->]. by exists [], a, l.
      * intros (pre & c & post & Hl & Hpre & Hc & Hfn).
        destruct pre as [| b pre]; simplify_eq/=.
        -- by rewrite Hfn.
        -- by apply Forall_cons in Hpre as [? _].
    + rewrite IH. split.
      * intros (pre & c & post & -> & Hpre & Hc & Hfn).
        exists (a :: pre), c, post. split_and!; try done.
        by apply Forall_cons.
      * intros (pre & c & post & Hl & Hpre & Hc & Hfn).
        destruct pre as [| b pre]; simplify_eq/=; [done |].
        apply Forall_cons in Hpre as [_ Hpre].
        by exists pre, c, post.
Qed.

Lemma registry_of_insert_eq σ t reg : registry_of (<[t := reg]> σ) t = reg.
Proof. unfold registry_of. by rewrite lookup_insert_eq. Qed.

Lemma registry_of_insert_ne σ t t' reg :
  t ≠ t' → registry_of (<[t := reg]> σ) t' = registry_of σ t'.
Proof. intros. unfold registry_of. by rewrite lookup_insert_ne. Qed.

Lemma init_fresh σ : (__init__ σ).1 ∉ dom σ.
Proof. apply is_fresh. Qed.

(** The guard of [dispatch_for] asks for a key no registration writes. *)
Lemma dispatch_for_pairs_only self target q fn σ :
  pairs_only (registry_of σ self) →
  dispatch_for self target q fn σ =
    (Ok fn, <[self := <[KPair target q := fn]> (registry_of σ self)]> σ).
Proof.
  intros Hp. unfold dispatch_for. case_decide as Hin; [| done].
  apply elem_of_dom in Hin as [? Hin]. by rewrite Hp in Hin.
Qed.

Lemma dispatch_for_keeps_pairs_only self target q fn σ t :
  pairs_only (registry_of σ t) →
  pairs_only (registry_of (dispatch_for self target q fn σ).2 t).
Proof.
  intros Hp. unfold dispatch_for. case_decide; [done |]. simpl.
  destruct (decide (self = t)) as [-> | Hne].
  - rewrite registry_of_insert_eq. intros c.
    by rewrite lookup_insert_ne.
  - by rewrite registry_of_insert_ne.
Qed.

(** A registration writes the registry of its own table only. *)
Lemma dispatch_for_frame self target q fn σ t :
  self ≠ t →
  registry_of (dispatch_for self target q fn σ).2 t = registry_of σ t.
Proof.
  intros Hne. unfold dispatch_for. case_decide; [done |]. simpl.
  by rewrite registry_of_insert_ne.
Qed.

(** What a registration makes of its table depends on that table only. *)
Lemma dispatch_for_local self target q fn σ σ' :
  registry_of σ self = registry_of σ' self →
  registry_of (dispatch_for self target q fn σ).2 self =
  registry_of (dispatch_for self target q fn σ').2 self.
Proof.
  intros Heq. unfold dispatch_for. rewrite Heq.
  case_decide; [done |]. simpl. by rewrite !registry_of_insert_eq.
Qed.

Lemma register_all_on_table ops : ∀ σ σ' t,
  registry_of σ t = registry_of σ' t →
  registry_of (register_all ops σ) t =
  registry_of (register_all (on_table t ops) σ') t.
Proof.
  induction ops as [| [[[t' target] q] fn] ops IH]; intros σ σ' t Heq.
  - done.
  - unfold on_table. rewrite filter_cons. simpl.
    case_decide as Ht; simpl.
    + subst t'. apply IH. by apply dispatch_for_local.
    + apply IH. by rewrite dispatch_for_frame.
Qed.

Lemma branch_spec σ t1 :
  t1 ∈ dom σ →
  ((branch t1 σ).1 ∉ dom σ)
  ∧ registry_of (branch t1 σ).2 (branch t1 σ).1 = registry_of σ t1
  ∧ (∀ t, t ∈ dom σ → registry_of (branch t1 σ).2 t = registry_of σ t).
Proof.
  intros Hin. unfold branch, __init__. simpl.
  pose proof (is_fresh (dom σ)) as Hfresh.
  set (d := fresh (dom σ)) in *.
  assert (d ≠ t1) as Hne by (intros ->; done).
  split_and!.
  - done.
  - rewrite !registry_of_insert_eq. rewrite registry_of_insert_ne by done.
    by rewrite (right_id_L ∅ (∪)).
  - intros t Ht. rewrite !registry_of_insert_ne; [done | |];
      intros Heq; by rewrite Heq in Hfresh.
Qed.

End DispatcherFacts.

(** ** Legacy keyword names: lemmas *)

Section TranslateFacts.
Import Translate.
Implicit Types (tr : list (string * string)) (kw rkw : gmap string value).
Implicit Types (old new k : string) (v : value).

(** Every old name of a rule has left [kw] when the loop ends; the other
    keywords are untouched. *)
Lemma rename_loop_kw_None tr : ∀ rkw kw k,
  kw !! k = None → (rename_loop tr rkw kw).2 !! k = None.
Proof.
  induction tr as [| [o n] tr IH]; intros rkw kw k Hk; simpl; [done |].
  destruct (kw !! o); apply IH; [| done].
  apply lookup_delete_None. by right.
Qed.

Lemma rename_loop_kw_old tr : ∀ rkw kw k,
  k ∈ tr.*1 → (rename_loop tr rkw kw).2 !! k = None.
Proof.
  induction tr as [| [o n] tr IH]; intros rkw kw k Hin; simpl in *.
  - by apply elem_of_nil in Hin.
  - apply elem_of_cons in Hin as [-> | Hin].
    + destruct (kw !! o) eqn:Ho; apply rename_loop_kw_None;
        [apply lookup_delete_eq | done].
    + destruct (kw !! o); by apply IH.
Qed.

Lemma rename_loop_kw_other tr : ∀ rkw kw k,
  k ∉ tr.*1 → (rename_loop tr rkw kw).2 !! k = kw !! k.
Proof.
  induction tr as [| [o n] tr IH]; intros rkw kw k Hin; simpl in *; [done |].
  apply not_elem_of_cons in Hin as [Hne Hin].
  destruct (kw !! o) as [v |] eqn:Ho.
  - rewrite IH by done. by rewrite lookup_delete_ne.
  - by apply IH.
Qed.

(** A name that no rule with a supplied old name maps to is not written. *)
Lemma rename_loop_rkw_untouched tr : ∀ rkw kw n,
  (∀ o, (o, n) ∈ tr → kw !! o = None) →
  (rename_loop tr rkw kw).1 !! n = rkw !! n.
Proof.
  induction tr as [| [o0 n0] tr IH]; intros rkw kw n Hnone; simpl; [done |].
  destruct (kw !! o0) as [v0 |] eqn:Ho0.
  - assert (n0 ≠ n) as Hne.
    { intros ->. rewrite Hnone in Ho0; [done | apply list_elem_of_here]. }
    rewrite IH.
    + by rewrite lookup_insert_ne.
    + intros o Hin. apply lookup_delete_None. right.
      apply Hnone. by apply list_elem_of_further.
  - apply IH. intros o Hin. apply Hnone. by apply list_elem_of_further.
Qed.

(** The value of [old] reaches [new] when [old] maps to [new] only and no
    other rule with a supplied old name maps to [new]. *)
Lemma rename_loop_rkw_moved tr : ∀ rkw kw old new v,
  (old, new) ∈ tr →
  kw !! old = Some v →
  (∀ new', (old, new') ∈ tr → new' = new) →
  (∀ old', (old', new) ∈ tr → old' ≠ old → kw !! old' = None) →
  (rename_loop tr rkw kw).1 !! new = Some v.
Proof.
  induction tr as [| [o0 n0] tr IH];
    intros rkw kw old new v Hin Hold Hsingle Hother; simpl.
  - by apply elem_of_nil in Hin.
  - destruct (decide (o0 = old)) as [-> | Hne].
    + assert (n0 = new) as -> by (apply Hsingle, list_elem_of_here).
      rewrite Hold. rewrite rename_loop_rkw_untouched.
      * apply lookup_insert_eq.
      * intros o Ho. apply lookup_delete_None.
        destruct (decide (o = old)) as [-> | Hne]; [by left | right].
        apply Hother; [by apply list_elem_of_further | done].
    + apply elem_of_cons in Hin as [[= <- <-] | Hin]; [done |].
      destruct (kw !! o0) as [v0 |] eqn:Ho0.
      * apply (IH _ _ old); try done.
        -- by rewrite lookup_delete_ne.
        -- intros new' Hin'. apply Hsingle. by apply list_elem_of_further.
        -- intros old' Hin' Hne'. apply lookup_delete_None. right.
           apply Hother; [by apply list_elem_of_further | done].
      * apply (IH _ _ old); try done.
        -- intros new' Hin'. apply Hsingle. by apply list_elem_of_further.
        -- intros old' Hin' Hne'.
           apply Hother; [by apply list_elem_of_further | done].
Qed.

(** Only new names of rules are written. *)
Lemma rename_loop_rkw_not_new tr rkw kw k :
  k ∉ tr.*2 → (rename_loop tr rkw kw).1 !! k = rkw !! k.
Proof.
  intros Hk. apply rename_loop_rkw_untouched. intros o Hin.
  destruct Hk. apply list_elem_of_fmap. by exists (o, k).
Qed.

Lemma translate_kw_lookup tr kw k :
  translate_kw tr kw !! k =
    match (rename_loop tr ∅ kw).2 !! k with
    | Some v => Some v
    | None => (rename_loop tr ∅ kw).1 !! k
    end.
Proof.
  unfold translate_kw. destruct (rename_loop tr ∅ kw) as [rkw' kw'] eqn:Hr.
  simpl. rewrite lookup_union.
  destruct (kw' !! k), (rkw' !! k); done.
Qed.

(** A keyword that is not the old name of a rule passes through. *)
Lemma translate_kw_passthrough tr kw k v :
  k ∉ tr.*1 → kw !! k = Some v → translate_kw tr kw !! k = Some v.
Proof.
  intros Hk Hv. rewrite translate_kw_lookup, rename_loop_kw_other by done.
  by rewrite Hv.
Qed.

(** Supplying [old] as well changes the loop's output at most at the names
    [old] maps to. *)
Lemma rename_loop_delete tr : ∀ rkw1 rkw2 kw1 kw2 old new,
  (∀ new', (old, new') ∈ tr → new' = new) →
  (∀ k, k ≠ old → kw1 !! k = kw2 !! k) →
  kw2 !! old = None →
  (∀ k, k ≠ new → rkw1 !! k = rkw2 !! k) →
  ∀ k, k ≠ new →
    (rename_loop tr rkw1 kw1).1 !! k = (rename_loop tr rkw2 kw2).1 !! k.
Proof.
  induction tr as [| [o n] tr IH];
    intros rkw1 rkw2 kw1 kw2 old new Hsingle Hkw Hold Hrkw k Hk; simpl.
  - by apply Hrkw.
  - assert (∀ new', (old, new') ∈ tr → new' = new) as Hsingle'.
    { intros new' Hin. apply Hsingle. by apply list_elem_of_further. }
    destruct (decide (o = old)) as [-> | Hne].
    + assert (n = new) as -> by (apply Hsingle, list_elem_of_here).
      rewrite Hold. destruct (kw1 !! old) as [v |] eqn:Ho1.
      * apply (IH _ _ _ _ old new); try done.
        -- intros k' Hk'. rewrite lookup_delete_ne by done. by apply Hkw.
        -- intros k' Hk'. rewrite lookup_insert_ne by done. by apply Hrkw.
      * by apply (IH _ _ _ _ old new).
    + rewrite <- (Hkw o) by done. destruct (kw1 !! o) as [v |] eqn:Ho1.
      * apply (IH _ _ _ _ old new); try done.
        -- intros k' Hk'. rewrite !lookup_delete. case_decide; [done |].
           by apply Hkw.
        -- by rewrite lookup_delete_ne.
        -- intros k' Hk'. rewrite !lookup_insert. case_decide; [done |].
           by apply Hrkw.
      * by apply (IH _ _ _ _ old new).
Qed.

(** The positional loop: the parameters it must fill are those of
    [pos_only] that are no keyword; it fills them from the front of [args]
    and runs short at the first one beyond [len(args)]. *)
Lemma fill_loop_spec po rkw : ∀ ra args,
  let need := filter (λ a, a ∉ dom rkw) po in
  fill_loop po rkw ra args =
    match need !! length args with
    | Some p =>
        Raise (TypeError ("missing required positional argument: " +:+ p))
    | None => Ok (ra ++ take (length need) args, drop (length need) args)
    end.
Proof.
  induction po as [| a po IH]; intros ra args; simpl.
  - by rewrite app_nil_r.
  - rewrite filter_cons. destruct (decide (a ∈ dom rkw)) as [Hin | Hin].
    + rewrite decide_False by (by intros ?). apply IH.
    + rewrite decide_True by done. destruct args as [| v args]; simpl.
      * done.
      * rewrite IH. destruct (filter _ po !! length args); [done |].
        by rewrite <- app_assoc.
Qed.

End TranslateFacts.


(** ** Calls: lemmas *)

Section CallFacts.
Implicit Types (ps : list (string * option value)) (pos vs : list value).
Implicit Types (kw rkw : gmap string value) (env : gmap string lval).

Lemma bind_params_Raise ps : ∀ pos kw e,
  bind_params ps pos kw = Raise e → e = CallError.
Proof.
  induction ps as [| [a d] ps IH]; intros pos kw e; simpl; [done |].
  destruct pos as [| v pos].
  - destruct (kw !! a) as [x |], d as [y |]; try congruence.
    + destruct (bind_params ps [] (delete a kw)) as [[[? ?] ?] | e'] eqn:Hb;
        simpl; [done |]. intros [= <-]. by eapply IH.
    + destruct (bind_params ps [] (delete a kw)) as [[[? ?] ?] | e'] eqn:Hb;
        simpl; [done |]. intros [= <-]. by eapply IH.
    + destruct (bind_params ps [] kw) as [[[? ?] ?] | e'] eqn:Hb;
        simpl; [done |]. intros [= <-]. by eapply IH.
  - case_decide; [congruence |].
    destruct (bind_params ps pos kw) as [[[? ?] ?] | e'] eqn:Hb;
      simpl; [done |]. intros [= <-]. by eapply IH.
Qed.

Lemma bind_Raise sig pos kw e : bind sig pos kw = Raise e → e = CallError.
Proof.
  unfold bind.
  destruct (bind_params _ _ _) as [[[? ?] ?] | e'] eqn:Hb; simpl.
  - repeat case_decide; congruence.
  - intros [= <-]. by eapply bind_params_Raise.
Qed.

(** What a successful binding returns: a value for each parameter, the
    positional arguments beyond the parameters, and the keywords that name
    no parameter. *)
Lemma bind_params_shape ps : ∀ pos kw vs rpos rkw,
  bind_params ps pos kw = Ok (vs, rpos, rkw) →
  length vs = length ps
  ∧ rpos = drop (length ps) pos
  ∧ (∀ x, x ∈ ps.*1 → rkw !! x = None)
  ∧ (∀ x, x ∉ ps.*1 → rkw !! x = kw !! x).
Proof.
  induction ps as [| [a d] ps IH]; intros pos kw vs rpos rkw; simpl.
  - intros [= <- <- <-]. split_and!; try done.
    intros x Hx. by apply elem_of_nil in Hx.
  - destruct pos as [| v pos].
    + assert (∀ kw' v0,
        (kw' = kw ∨ kw' = delete a kw) → kw' !! a = None →
        (bind_params ps [] kw' ≫= λ '(vs, rpos, rkw), Ok (v0 :: vs, rpos, rkw))
          = Ok (vs, rpos, rkw) →
        length vs = S (length ps) ∧ rpos = []
        ∧ (∀ x, x ∈ a :: ps.*1 → rkw !! x = None)
        ∧ (∀ x, x ∉ a :: ps.*1 → rkw !! x = kw !! x)) as Haux.
      { intros kw' v0 Hkw' Ha.
        destruct (bind_params ps [] kw') as [[[vs' rpos'] rkw'] |] eqn:Hb;
          simpl; [| done].
        intros [= <- <- <-].
        destruct (IH _ _ _ _ _ Hb) as (Hlen & Hr & Hin & Hout).
        split_and!.
        - simpl. by rewrite Hlen.
        - by rewrite Hr, drop_nil.
        - intros x [-> | Hx]%elem_of_cons; [| by apply Hin].
          destruct (decide (a ∈ ps.*1)); [by apply Hin |].
          by rewrite Hout.
        - intros x [Hxa Hx]%not_elem_of_cons. rewrite Hout by done.
          destruct Hkw' as [-> | ->]; [done |].
          by rewrite lookup_delete_ne. }
      destruct (kw !! a) as [x |] eqn:Hka.
      * apply Haux; [by right | apply lookup_delete_eq].
      * destruct d as [y |]; [| done]. apply Haux; [by left | done].
    + case_decide as Ha; [done |].
      destruct (bind_params ps pos kw) as [[[vs' rpos'] rkw'] |] eqn:Hb;
        simpl; [| done].
      intros [= <- <- <-].
      destruct (IH _ _ _ _ _ Hb) as (Hlen & Hr & Hin & Hout).
      split_and!.
      * simpl. by rewrite Hlen.
      * done.
      * intros x [-> | Hx]%elem_of_cons; [| by apply Hin].
        destruct (decide (a ∈ ps.*1)); [by apply Hin |].
        rewrite Hout by done. by apply not_elem_of_dom.
      * intros x [Hxa Hx]%not_elem_of_cons. by rewrite Hout.
Qed.

Lemma forwarded_kw_lookup_None ps : ∀ vs x,
  x ∉ ps.*1 → forwarded_kw ps vs !! x = None.
Proof.
  induction ps as [| [a [d |]] ps IH]; intros [| v vs] x Hx; simpl in *;
    try done; apply not_elem_of_cons in Hx as [Hxa Hx].
  - rewrite lookup_insert_ne by done. by apply IH.
  - by apply IH.
Qed.

Lemma forwarded_pos_all_default ps : ∀ vs,
  Forall (λ p, is_Some p.2) ps → forwarded_pos ps vs = [].
Proof.
  induction ps as [| [a d] ps IH]; intros vs Hall; [done |].
  apply Forall_cons in Hall as [[y Hd] Hall]. simpl in Hd. subst d.
  destruct vs as [| v vs]; simpl; [done |]. by apply IH.
Qed.

Lemma all_default_at_tail ps :
  Forall (λ p, is_Some p.2) ps → defaults_at_tail ps.
Proof.
  induction 1 as [| [a d] ps [y Hd] Hall IH]; [done |].
  simpl in Hd. by subst d.
Qed.

(** The argument list evaluates to the forwarded arguments as soon as each
    parameter name holds its value. *)
Lemma eval_params_forwarded ps : ∀ vs env,
  Forall2 (λ p v, env !! p.1 = Some (LVal v)) ps vs →
  eval_params (inner_params ps) env
    = Ok (forwarded_pos ps vs, forwarded_kw ps vs).
Proof.
  induction ps as [| [a d] ps IH]; intros vs env Hall.
  - by apply Forall2_nil_inv_l in Hall as ->.
  - apply Forall2_cons_inv_l in Hall as (v & vs' & Ha & Hall & ->).
    simpl in Ha. specialize (IH _ _ Hall). unfold inner_params in *.
    rewrite fmap_cons. destruct d as [y |]; simpl;
      unfold read_val; rewrite Ha; simpl; by rewrite IH.
Qed.

(** Bound again, the forwarded arguments give the parameters their values
    back: always when no parameter has a default, and otherwise when no
    positional argument is left over. *)
Lemma inner_bind ps : ∀ vs rpos rkw,
  length vs = length ps →
  NoDup ps.*1 →
  defaults_at_tail ps →
  (Forall (λ p, p.2 = None) ps ∨ rpos = []) →
  (∀ x, x ∈ ps.*1 → rkw !! x = None) →
  bind_params ps (forwarded_pos ps vs ++ rpos) (forwarded_kw ps vs ∪ rkw)
    = Ok (vs, rpos, rkw).
Proof.
  induction ps as [| [a d] ps IH]; intros vs rpos rkw Hlen Hnd Htail Hor Hrkw.
  - destruct vs; [| done]. simpl. by rewrite (left_id_L ∅ (∪)).
  - destruct vs as [| v vs]; [done |]. simpl in Hlen, Hnd.
    apply NoDup_cons in Hnd as [Ha Hnd].
    assert (forwarded_kw ps vs !! a = None) as Hfa
      by (by apply forwarded_kw_lookup_None).
    assert (rkw !! a = None) as Hra by (apply Hrkw, list_elem_of_here).
    assert (∀ x, x ∈ ps.*1 → rkw !! x = None) as Hrkw'.
    { intros x Hx. by apply Hrkw, list_elem_of_further. }
    destruct d as [y |]; simpl in *.
    + destruct Hor as [Hall | ->].
      { apply Forall_cons in Hall as [Hd _]. done. }
      rewrite (forwarded_pos_all_default ps vs Htail). simpl.
      rewrite lookup_union, lookup_insert_eq. simpl.
      rewrite union_Some_l.
      replace (delete a (<[a:=v]> (forwarded_kw ps vs) ∪ rkw))
        with (forwarded_kw ps vs ∪ rkw).
      * pose proof (IH vs [] rkw) as IH'.
        rewrite (forwarded_pos_all_default ps vs Htail) in IH'. simpl in IH'.
        rewrite IH'; [done | lia | done | by apply all_default_at_tail
                     | by right | done].
      * apply map_eq. intros x. rewrite lookup_delete, !lookup_union.
        case_decide as Hx.
        -- subst x. by rewrite Hfa, Hra.
        -- by rewrite lookup_insert_ne.
    + rewrite decide_False.
      * rewrite IH; [done | lia | done | done | | done].
        destruct Hor as [Hall | ->]; [left | by right].
        by apply Forall_cons in Hall as [_ ?].
      * intros Hin. apply elem_of_dom in Hin as [x Hx].
        rewrite lookup_union, Hfa, Hra in Hx. done.
Qed.

(** *** What [formatargspec] writes *)

Lemma formatargspec_lookup {D} names va kn (ds : list D) i :
  f_params (formatargspec names va kn ds) !! i =
    (λ n, (n, if decide (length names ≤ i + length ds)
              then ds !! (i + length ds - length names)
              else None)) <$> names !! i.
Proof. unfold formatargspec. simpl. apply list_lookup_imap. Qed.

Lemma formatargspec_names {D} names va kn (ds : list D) :
  (f_params (formatargspec names va kn ds)).*1 = names.
Proof.
  apply list_eq. intros i. rewrite list_lookup_fmap, formatargspec_lookup.
  by destruct (names !! i).
Qed.

Lemma formatargspec_cons {D} a names va kn (ds : list D) :
  f_params (formatargspec (a :: names) va kn ds) =
    (a, if decide (length names < length ds)
        then ds !! (length ds - S (length names))
        else None)
    :: f_params (formatargspec names va kn ds).
Proof.
  unfold formatargspec. cbn [f_params]. rewrite imap_cons.
  apply (f_equal2 cons).
  - reflexivity.
  - apply imap_ext. intros i n _. cbn [length compose]. f_equal.
    destruct (decide (length names ≤ i + length ds)).
    + by rewrite decide_True by lia.
    + by rewrite decide_False by lia.
Qed.

Lemma monotone_defaults_at_tail {D} (ps : list (string * option D)) :
  (∀ i j p q, i ≤ j → ps !! i = Some p → ps !! j = Some q →
     is_Some p.2 → is_Some q.2) →
  defaults_at_tail ps.
Proof.
  induction ps as [| [a d] ps IH]; intros Hmono; [done |].
  destruct d as [y |]; simpl.
  - apply Forall_lookup. intros j q Hq.
    apply (Hmono 0 (S j) (a, Some y) q); [lia | done | done | by eexists].
  - apply IH. intros i j p q Hij Hp Hq.
    by apply (Hmono (S i) (S j) p q); [lia | |].
Qed.

Lemma formatargspec_tail {D} names va kn (ds : list D) :
  defaults_at_tail (f_params (formatargspec names va kn ds)).
Proof.
  apply monotone_defaults_at_tail. intros i j p q Hij.
  rewrite !formatargspec_lookup.
  destruct (names !! i) as [n |] eqn:Hi; [| done].
  destruct (names !! j) as [m |] eqn:Hj; [| done].
  simpl. intros [= <-] [= <-]. simpl.
  apply lookup_lt_Some in Hj.
  case_decide as Hc; [| by intros [? ?]].
  intros _. rewrite decide_True by lia. apply lookup_lt_is_Some. lia.
Qed.

Lemma formatargspec_no_defaults {D} names va kn :
  Forall (λ p, p.2 = None)
    (f_params (formatargspec names va kn ([] : list D))).
Proof.
  apply Forall_lookup. intros i p. rewrite formatargspec_lookup.
  destruct (names !! i) as [n |] eqn:Hi; [| done].
  simpl. intros [= <-]. simpl. apply lookup_lt_Some in Hi.
  rewrite decide_False; [done | simpl; lia].
Qed.

Lemma formatargspec_inner names va kn (ds : list value) :
  f_params (formatargspec names va kn
              (ModuleClsProxy.defaulted_vals names (length ds))) =
    inner_params (f_params (formatargspec names va kn ds)).
Proof.
  apply list_eq. intros i. unfold inner_params.
  rewrite list_lookup_fmap, !formatargspec_lookup.
  destruct (names !! i) as [n |] eqn:Hi; [| done].
  simpl. f_equal. f_equal. pose proof (lookup_lt_Some _ _ _ Hi) as Hlt.
  unfold ModuleClsProxy.defaulted_vals.
  destruct (length ds) as [| k] eqn:Hk.
  - simpl. rewrite !decide_False by lia. done.
  - rewrite length_drop.
    destruct (decide (length names ≤ i + S k)) as [Hc | Hc].
    + rewrite decide_True by lia.
      rewrite lookup_drop.
      replace (length names - S k
               + (i + (length names - (length names - S k)) - length names))
        with i by lia.
      rewrite Hi.
      destruct (ds !! (i + S k - length names)) eqn:Hd; [done |].
      apply lookup_ge_None in Hd. lia.
    + rewrite decide_False by lia. done.
Qed.

(** *** The forwarded call *)

Lemma zip_env_lookup (names : list string) : ∀ vs i n v,
  NoDup names → names !! i = Some n → vs !! i = Some v →
  (list_to_map (zip names (LVal <$> vs)) : gmap string lval) !! n
    = Some (LVal v).
Proof.
  induction names as [| n0 names IH]; intros [| v0 vs] i n v Hnd Hn Hv;
    try done.
  apply NoDup_cons in Hnd as [Hn0 Hnd]. simpl.
  destruct i as [| i]; simpl in *.
  - injection Hn as <-. injection Hv as <-. apply lookup_insert_eq.
  - rewrite lookup_insert_ne.
    + by apply (IH vs i).
    + intros ->. apply Hn0. by apply list_elem_of_lookup_2 in Hn.
Qed.

Lemma bind_Ok sig pos kw b :
  bind sig pos kw = Ok b ↔
  bind_params (f_params sig) pos kw = Ok (b_args b, b_varargs b, b_kw b)
  ∧ (f_varargs sig = None → b_varargs b = [])
  ∧ (f_varkw sig = None → b_kw b = ∅).
Proof.
  unfold bind. destruct b as [vs rpos rkw]. simpl.
  destruct (bind_params _ _ _) as [[[vs' rpos'] rkw'] |]; simpl.
  - destruct (decide (f_varargs sig = None ∧ rpos' ≠ [])) as [[Hv Hr] | Hv].
    { split; [done |]. intros ([= -> -> ->] & H1 & _).
      destruct Hr. by apply H1. }
    destruct (decide (f_varkw sig = None ∧ rkw' ≠ ∅)) as [[Hk Hr] | Hk].
    { split; [done |]. intros ([= -> -> ->] & _ & H2).
      destruct Hr. by apply H2. }
    split.
    + intros [= -> -> ->]. split_and!; [done | |].
      * intros Hn. destruct rpos as [| v l]; [done |].
        destruct Hv. by split.
      * intros Hn. destruct (decide (rkw = ∅)) as [| Hne]; [done |].
        destruct Hk. by split.
    + by intros ([= -> -> ->] & _).
  - split; [done |]. by intros ([=] & _).
Qed.

(** A function whose parameter list is [sig] and whose body forwards with
    the argument list [inner], once [p] has been assigned: the forwarded
    arguments bind the parameters of [sig] to the values they hold, and
    carry the keywords of the call that name no parameter. *)
Lemma forward_roundtrip (sig : formatted value) (inner : formatted string)
    pos kw b (extra : lval) :
  f_params inner = inner_params (f_params sig) →
  f_varargs inner = f_varargs sig →
  f_varkw inner = f_varkw sig →
  NoDup ((f_params sig).*1 ++ option_list (f_varargs sig)
         ++ option_list (f_varkw sig)) →
  "p" ∉ (f_params sig).*1 ++ option_list (f_varargs sig)
        ++ option_list (f_varkw sig) →
  defaults_at_tail (f_params sig) →
  bind sig pos kw = Ok b →
  (Forall (λ p, p.2 = None) (f_params sig) ∨ f_varargs sig = None
   ∨ length pos ≤ length (f_params sig)) →
  ∃ pos' kw',
    eval_call inner (<["p" := extra]> (locals_of sig b)) = Ok (pos', kw')
    ∧ bind_params (f_params sig) pos' kw'
      = Ok (b_args b, b_varargs b, b_kw b)
    ∧ (∀ x, x ∉ (f_params sig).*1 → kw' !! x = kw !! x).
Proof.
  intros Hip Hiv Hik Hnd Hp Htail Hb Hcond.
  apply bind_Ok in Hb as (Hbp & Hva & Hkn).
  destruct b as [vs rpos rkw]. simpl in *.
  destruct (bind_params_shape _ _ _ _ _ _ Hbp) as (Hlen & Hr & Hin & Hout).
  apply NoDup_app in Hnd as (Hnd1 & Hnd2 & Hnd3).
  assert (rpos = [] ∨ Forall (λ p, p.2 = None) (f_params sig)) as Hcond'.
  { destruct Hcond as [? | [Hn | Hle]]; [by right | left; by apply Hva |].
    left. rewrite Hr. by apply drop_ge. }
  assert (∀ n, n ∈ (f_params sig).*1 → n ≠ "p") as Hnp.
  { intros n Hn ->. apply Hp. apply elem_of_app. by left. }
  assert (∀ x, f_varargs sig = Some x →
            x ≠ "p" ∧ (x ∉ (f_params sig).*1) ∧ f_varkw sig ≠ Some x)
    as Hxprop.
  { intros x Hx. rewrite Hx in *. simpl in *. split_and!.
    - intros ->. apply Hp. apply elem_of_app. right. apply list_elem_of_here.
    - intros Hn. apply (Hnd2 x Hn). apply list_elem_of_here.
    - intros Hy. rewrite Hy in Hnd3. simpl in Hnd3.
      apply NoDup_cons in Hnd3 as [Hxy _]. apply Hxy, list_elem_of_here. }
  assert (∀ y, f_varkw sig = Some y → y ≠ "p" ∧ y ∉ (f_params sig).*1)
    as Hyprop.
  { intros y Hy. rewrite Hy in *. simpl in *. split.
    - intros ->. apply Hp. apply elem_of_app. right.
      apply elem_of_app. right. apply list_elem_of_here.
    - intros Hn. apply (Hnd2 y Hn). apply elem_of_app. right.
      apply list_elem_of_here. }
  set (env0 := (list_to_map (zip (f_params sig).*1 (LVal <$> vs))
                : gmap string lval)).
  assert (∀ n, n ∈ (f_params sig).*1 →
            <["p" := extra]> (locals_of sig (Bound vs rpos rkw)) !! n
              = env0 !! n) as Hlook.
  { intros n Hn. rewrite lookup_insert_ne by (apply not_eq_sym; auto).
    unfold locals_of. simpl. fold env0.
    destruct (f_varkw sig) as [y |] eqn:Hy.
    - destruct (Hyprop y eq_refl) as [_ Hyn].
      rewrite lookup_insert_ne by (by intros ->).
      destruct (f_varargs sig) as [x |] eqn:Hx; [| done].
      destruct (Hxprop x eq_refl) as (_ & Hxn & _).
      rewrite lookup_insert_ne by (by intros ->). done.
    - destruct (f_varargs sig) as [x |] eqn:Hx; [| done].
      destruct (Hxprop x eq_refl) as (_ & Hxn & _).
      rewrite lookup_insert_ne by (by intros ->). done. }
  exists (forwarded_pos (f_params sig) vs ++ rpos),
         (forwarded_kw (f_params sig) vs ∪ rkw).
  split_and!.
  - unfold eval_call. rewrite Hip, Hiv, Hik.
    rewrite (eval_params_forwarded _ vs); cycle 1.
    { apply Forall2_same_length_lookup_2; [done |].
      intros i p v Hp' Hv.
      assert ((f_params sig).*1 !! i = Some p.1) as Hn
        by (by rewrite list_lookup_fmap, Hp').
      rewrite Hlook by (by apply list_elem_of_lookup_2 in Hn).
      by apply (zip_env_lookup _ vs i). }
    simpl.
    assert (match f_varargs sig with
            | Some x =>
                match <["p":=extra]> (locals_of sig (Bound vs rpos rkw)) !! x
                with
                | Some (LTuple l) => Ok (forwarded_pos (f_params sig) vs ++ l)
                | _ => Raise CallError
                end
            | None => Ok (forwarded_pos (f_params sig) vs)
            end = Ok (forwarded_pos (f_params sig) vs ++ rpos)) as ->.
    { destruct (f_varargs sig) as [x |] eqn:Hx.
      - destruct (Hxprop x eq_refl) as (Hxp & _ & Hxy).
        rewrite lookup_insert_ne by (by apply not_eq_sym).
        unfold locals_of. simpl. rewrite Hx.
        destruct (f_varkw sig) as [y |] eqn:Hy.
        + rewrite lookup_insert_ne by congruence.
          by rewrite lookup_insert_eq.
        + by rewrite lookup_insert_eq.
      - rewrite (Hva eq_refl). by rewrite app_nil_r. }
    simpl.
    destruct (f_varkw sig) as [y |] eqn:Hy.
    + destruct (Hyprop y eq_refl) as [Hyp _].
      rewrite lookup_insert_ne by (by apply not_eq_sym).
      unfold locals_of. simpl. rewrite Hy. rewrite lookup_insert_eq.
      rewrite decide_True; [done |].
      apply map_disjoint_spec. intros x v1 v2 H1 H2.
      destruct (decide (x ∈ (f_params sig).*1)) as [Hx | Hx].
      * rewrite Hin in H1 by done. done.
      * rewrite forwarded_kw_lookup_None in H2 by done. done.
    + rewrite (Hkn eq_refl). by rewrite (right_id_L ∅ (∪)).
  - apply inner_bind; try done.
    destruct Hcond' as [-> | ?]; [by right | by left].
  - intros x Hx. rewrite lookup_union, forwarded_kw_lookup_None by done.
    rewrite (left_id_L None (∪)). by apply Hout.
Qed.

(** Calling through an instance binds the receiver to the first parameter;
    a keyword with the name of that parameter is refused. *)
Lemma bind_receiver (full popped : formatted value) a d r pos kw :
  f_params full = (a, d) :: f_params popped →
  f_varargs full = f_varargs popped →
  f_varkw full = f_varkw popped →
  bind full (r :: pos) kw =
    if decide (a ∈ dom kw) then Raise CallError
    else b ← bind popped pos kw;
         Ok (Bound (r :: b_args b) (b_varargs b) (b_kw b)).
Proof.
  intros Hp Hv Hk. unfold bind. rewrite Hp, Hv, Hk. simpl.
  case_decide; [done |].
  destruct (bind_params (f_params popped) pos kw) as [[[vs rpos] rkw] |];
    simpl; [| done].
  repeat case_decide; done.
Qed.

End CallFacts.

(** ** The module proxy: lemmas *)

Section ProxyFacts.
Import ModuleClsProxy ProxyExamples.
Implicit Types (w : world) (d g l : loc) (k name : string) (e : entry).
Implicit Types (c : cls) (self : instance).

Lemma dict_of_setitem w d k e d' k' :
  dict_of (setitem d k e w) d' !! k' =
    if decide (d = d' ∧ k = k') then Some e else dict_of w d' !! k'.
Proof.
  unfold setitem, dict_of. simpl.
  destruct (decide (d = d')) as [<- | Hd].
  - rewrite lookup_insert_eq. simpl.
    destruct (decide (k = k')) as [<- | Hk].
    + rewrite lookup_insert_eq. by rewrite decide_True.
    + rewrite lookup_insert_ne by done. rewrite decide_False; [done | tauto].
  - rewrite lookup_insert_ne by done. rewrite decide_False; [done | tauto].
Qed.

Lemma dict_of_setitem_eq w d k e : dict_of (setitem d k e w) d !! k = Some e.
Proof. rewrite dict_of_setitem. by rewrite decide_True. Qed.

Lemma dict_of_setitem_ne w d k e d' k' :
  d ≠ d' ∨ k ≠ k' →
  dict_of (setitem d k e w) d' !! k' = dict_of w d' !! k'.
Proof. intros. rewrite dict_of_setitem. rewrite decide_False; [done | tauto]. Qed.

Lemma delitem_Ok w d k :
  k ∈ dom (dict_of w d) →
  (delitem d k w).1 = Ok ()
  ∧ setups (delitem d k w).2 = setups w
  ∧ members (delitem d k w).2 = members w
  ∧ ∀ d' k', dict_of (delitem d k w).2 d' !! k' =
      if decide (d = d' ∧ k = k') then None else dict_of w d' !! k'.
Proof.
  intros Hin. unfold delitem. rewrite decide_True by done. simpl.
  split_and!; try done. intros d' k'. unfold dict_of at 1. simpl.
  destruct (decide (d = d')) as [<- | Hd].
  - rewrite lookup_insert_eq. simpl.
    destruct (decide (k = k')) as [<- | Hk].
    + rewrite lookup_delete_eq. by rewrite decide_True.
    + rewrite lookup_delete_ne by done. rewrite decide_False; [done | tauto].
  - rewrite lookup_insert_ne by done. rewrite decide_False; [done | tauto].
Qed.

(** *** Loops *)

Lemma for_each_app {A} (body : A → world → result () * world)
    (l1 l2 : list A) w :
  for_each body (l1 ++ l2) w =
    match for_each body l1 w with
    | (Ok _, w1) => for_each body l2 w1
    | (Raise e, w1) => (Raise e, w1)
    end.
Proof.
  revert w. induction l1 as [| x l1 IH]; intros w; simpl; [done |].
  destruct (body x w) as [[[] | e] w1]; [apply IH | done].
Qed.

(** A loop whose body keeps an invariant and does not raise under it runs
    to its end and keeps the invariant. *)
Lemma for_each_total {A} (body : A → world → result () * world)
    (Inv : world → Prop) (xs : list A) :
  (∀ x w, x ∈ xs → Inv w → (body x w).1 = Ok () ∧ Inv (body x w).2) →
  ∀ w, Inv w →
    (for_each body xs w).1 = Ok () ∧ Inv (for_each body xs w).2.
Proof.
  induction xs as [| x xs IH]; intros Hbody w Hinv; simpl; [done |].
  destruct (Hbody x w) as [Hok Hinv']; [apply list_elem_of_here | done |].
  destruct (body x w) as [[[] | e] w1]; simpl in *; [| done].
  apply IH; [| done]. intros y w' Hy. apply Hbody.
  by apply list_elem_of_further.
Qed.

(** Under an invariant that every iteration keeps without raising, what
    some iteration establishes and no iteration undoes holds at the end. *)
Lemma for_each_establish {A} (body : A → world → result () * world)
    (Inv P : world → Prop) (xs : list A) (x : A) :
  x ∈ xs →
  (∀ y w, y ∈ xs → Inv w → (body y w).1 = Ok () ∧ Inv (body y w).2) →
  (∀ w, Inv w → P (body x w).2) →
  (∀ y w, y ∈ xs → Inv w → P w → P (body y w).2) →
  ∀ w, Inv w → P (for_each body xs w).2.
Proof.
  intros Hx Hinv Hest Hkeep.
  assert (∀ ys w, ys ⊆ xs → Inv w → P w → P (for_each body ys w).2)
    as Hpres.
  { induction ys as [| y ys IH]; intros w Hsub HI HP; simpl in *; [done |].
    assert (y ∈ xs) as Hy by (apply Hsub, list_elem_of_here).
    destruct (Hinv y w Hy HI) as [Hok HI'].
    specialize (Hkeep y w Hy HI HP).
    destruct (body y w) as [[[] | e] w1]; simpl in *; [| done].
    apply IH; [| done..].
    intros z Hz. apply Hsub. by apply list_elem_of_further. }
  assert (∀ ys w, ys ⊆ xs → x ∈ ys → Inv w → P (for_each body ys w).2)
    as Hmain.
  { induction ys as [| y ys IH]; intros w Hsub Hin HI; simpl in *.
    - by apply elem_of_nil in Hin.
    - assert (y ∈ xs) as Hy by (apply Hsub, list_elem_of_here).
      destruct (Hinv y w Hy HI) as [Hok HI'].
      apply elem_of_cons in Hin as [-> | Hin].
      + specialize (Hest w HI).
        destruct (body y w) as [[[] | e] w1]; simpl in *; [| done].
        apply Hpres; [| done..].
        intros z Hz. apply Hsub. by apply list_elem_of_further.
      + destruct (body y w) as [[[] | e] w1]; simpl in *; [| done].
        apply IH; [| done..].
    intros z Hz. apply Hsub. by apply list_elem_of_further. }
  intros w. by apply Hmain.
Qed.

(** *** [_remove_proxy] *)

Lemma delete_names_spec g (names : list string) : ∀ w,
  NoDup names →
  (∀ a, a ∈ names → a ∈ dom (dict_of w g)) →
  (for_each (λ a, delitem g a) names w).1 = Ok ()
  ∧ setups (for_each (λ a, delitem g a) names w).2 = setups w
  ∧ members (for_each (λ a, delitem g a) names w).2 = members w
  ∧ ∀ d k, dict_of (for_each (λ a, delitem g a) names w).2 d !! k =
      if decide (d = g ∧ k ∈ names) then None else dict_of w d !! k.
Proof.
  induction names as [| a names IH]; intros w Hnd Hdom; simpl.
  - split_and!; try done. intros d k. rewrite decide_False; [done |].
    intros [_ Hin]. by apply elem_of_nil in Hin.
  - apply NoDup_cons in Hnd as [Ha Hnd].
    destruct (delitem_Ok w g a) as (Hok & Hs & Hm & Hd).
    { apply Hdom, list_elem_of_here. }
    destruct (delitem g a w) as [[[] | e] w1]; simpl in *; [| done].
    destruct (IH w1 Hnd) as (Hok' & Hs' & Hm' & Hd').
    { intros a' Ha'. apply elem_of_dom. rewrite Hd.
      rewrite decide_False by (intros [_ ->]; done).
      apply elem_of_dom, Hdom. by apply list_elem_of_further. }
    split_and!; [done | congruence | congruence |].
    intros d k. rewrite Hd', Hd.
    destruct (decide (d = g ∧ k ∈ names)) as [[-> Hk] | Hn].
    + rewrite decide_True; [done |]. split; [done |].
      by apply list_elem_of_further.
    + destruct (decide (g = d ∧ a = k)) as [[-> ->] | Hn'].
      * rewrite decide_True; [done |]. split; [done | apply list_elem_of_here].
      * rewrite decide_False; [done |].
        intros [-> [-> | Hin]%elem_of_cons]; tauto.
Qed.

(** The loop of [_remove_proxy] over modules with pairwise distinct
    [globals_], each binding every name of [names]. *)
Lemma remove_loop_spec (names : list string) : ∀ (ms : list (loc * loc)) w,
  NoDup names →
  NoDup ms.*1 →
  (∀ g a, g ∈ ms.*1 → a ∈ names → a ∈ dom (dict_of w g)) →
  let body := (λ '(globals_, locals_) w,
      for_each (λ attr_name, delitem globals_ attr_name) names
        (setitem globals_ "_proxy" (EVal VNone) w))
    : loc * loc → world → result () * world in
  (for_each body ms w).1 = Ok ()
  ∧ setups (for_each body ms w).2 = setups w
  ∧ members (for_each body ms w).2 = members w
  ∧ ∀ d k, dict_of (for_each body ms w).2 d !! k =
      if decide (d ∈ ms.*1)
      then if decide (k ∈ names) then None
           else if decide (k = "_proxy") then Some (EVal VNone)
           else dict_of w d !! k
      else dict_of w d !! k.
Proof.
  intros ms w Hnames. revert w.
  induction ms as [| [g l] ms IH]; intros w Hnd Hdom body; subst body;
    simpl.
  - by split_and!.
  - simpl in Hnd. apply NoDup_cons in Hnd as [Hg Hnd].
    set (w0 := setitem g "_proxy" (EVal VNone) w).
    destruct (delete_names_spec g names w0 Hnames)
      as (Hok & Hs & Hm & Hd).
    { intros a Ha. apply elem_of_dom. unfold w0. rewrite dict_of_setitem.
      case_decide; [done |]. apply elem_of_dom, Hdom; [| done].
      apply list_elem_of_here. }
    destruct (for_each _ names w0) as [[[] | e] w1]; simpl in *; [| done].
    assert (∀ d k, d ≠ g → dict_of w1 d !! k = dict_of w d !! k) as Hframe.
    { intros d k Hne. rewrite Hd. rewrite decide_False by tauto.
      unfold w0. rewrite dict_of_setitem_ne; [done | by left]. }
    destruct (IH w1 Hnd) as (Hok' & Hs' & Hm' & Hd').
    { intros g' a Hg' Ha. apply elem_of_dom. rewrite Hframe.
      - apply elem_of_dom, Hdom; [by apply list_elem_of_further | done].
      - by intros ->. }
    split_and!; [done | by rewrite Hs', Hs | by rewrite Hm', Hm |].
    intros d k. rewrite Hd'.
    destruct (decide (d = g)) as [-> | Hne].
    + rewrite (decide_False (P := g ∈ ms.*1)) by done.
      destruct (decide (g ∈ g :: _)) as [Hin | Hin];
        [| destruct Hin; apply list_elem_of_here].
      rewrite Hd. destruct (decide (k ∈ names)) as [Hk | Hk].
      * by rewrite decide_True.
      * rewrite decide_False by tauto. unfold w0. rewrite dict_of_setitem.
        destruct (decide (k = "_proxy")) as [-> | Hk'].
        -- by rewrite decide_True.
        -- rewrite decide_False; [done |]. by intros [_ <-].
    + rewrite !Hframe by done.
      destruct (decide (d ∈ ms.*1)) as [Hin | Hin].
      * destruct (decide (d ∈ g :: _)) as [Hin' | Hin']; [done |].
        destruct Hin'. by apply list_elem_of_further.
      * destruct (decide (d ∈ g :: _)) as [Hin' | Hin']; [| done].
        by apply elem_of_cons in Hin' as [-> | ?].
Qed.

Lemma remove_proxy_spec w self :
  NoDup (modules w (inst_cls self)).*1 →
  (∀ g a, g ∈ (modules w (inst_cls self)).*1 →
     a ∈ attr_names w (inst_cls self) → a ∈ dom (dict_of w g)) →
  (_remove_proxy self w).1 = Ok ()
  ∧ setups (_remove_proxy self w).2 = setups w
  ∧ members (_remove_proxy self w).2 = members w
  ∧ ∀ d k, dict_of (_remove_proxy self w).2 d !! k =
      if decide (d ∈ (modules w (inst_cls self)).*1)
      then if decide (k ∈ attr_names w (inst_cls self)) then None
           else if decide (k = "_proxy") then Some (EVal VNone)
           else dict_of w d !! k
      else dict_of w d !! k.
Proof.
  intros Hnd Hdom. unfold _remove_proxy.
  destruct (remove_loop_spec (elements (attr_names w (inst_cls self)))
              (modules w (inst_cls self)) w) as (Hok & Hs & Hm & Hd).
  - apply NoDup_elements.
  - done.
  - intros g a Hg Ha. apply Hdom; [done |]. by apply elem_of_elements.
  - split_and!; try done. intros d k. rewrite Hd.
    repeat case_decide; try done;
      match goal with
      | H : _ ∈ elements _ |- _ => by apply elem_of_elements in H
      | H : _ ∉ elements _ |- _ => by rewrite elem_of_elements in H
      end.
Qed.

(** *** Calls of a generated function *)

Lemma locals_of_not_parameter sig b x :
  x ∉ parameters sig → locals_of sig b !! x = None.
Proof.
  unfold parameters, locals_of. rewrite !not_elem_of_app. intros (Hx & Hv & Hk).
  assert ((list_to_map (zip (f_params sig).*1 (LVal <$> b_args b))
           : gmap string lval) !! x = None) as H0.
  { apply not_elem_of_list_to_map_1. intros Hin.
    apply list_elem_of_fmap in Hin as ([y v] & -> & Hin).
    by apply elem_of_zip_l in Hin. }
  destruct (f_varargs sig) as [va |], (f_varkw sig) as [vk |]; simpl in *;
    repeat match goal with
           | H : _ ∉ [_] |- _ => apply not_elem_of_cons in H as [? _]
           end;
    by rewrite ?lookup_insert_ne.
Qed.

Lemma translate_line_lookup w (f : proxy_function) env env' x :
  translate_line w f env = Ok env' → x ≠ "args" → x ≠ "kw" →
  env' !! x = env !! x.
Proof.
  unfold translate_line. intros H Ha Hk.
  destruct (pf_translate f) as [[spec tr] |]; [| by inversion H].
  destruct (dict_of w (pf_globals f) !! "_translate") as [[] |]; try done.
  destruct (env !! "args") as [[] |]; try done.
  destruct (env !! "kw") as [[] |]; try done.
  destruct (Translate.translate _ _ _ _) as [[args' kw'] |]; [| done].
  simpl in H. inversion H.
  by rewrite (lookup_insert_ne _ "kw" x), (lookup_insert_ne _ "args" x).
Qed.

(** A name that is no parameter is no local variable when the lookup of
    [_proxy] is reached. *)
Lemma not_parameter_not_local w (f : proxy_function) b env x :
  x ∉ parameters (pf_outer f) → x ≠ "args" → x ≠ "kw" →
  translate_line w f (locals_of (pf_outer f) b) = Ok env →
  env !! x = None.
Proof.
  intros Hx Ha Hk H. rewrite (translate_line_lookup _ _ _ _ _ H Ha Hk).
  by apply locals_of_not_parameter.
Qed.

Lemma call_proxy_function_None w (f : proxy_function) pos kw :
  "_proxy" ∉ parameters (pf_outer f) →
  dict_of w (pf_globals f) !! "_proxy" = Some (EVal VNone) →
  call_proxy_function w f pos kw =
    raises_after_arguments w f pos kw
      (AttributeError
         ("'NoneType' object has no attribute '" +:+ pf_name f +:+ "'")).
Proof.
  intros Hl Hp. unfold call_proxy_function, raises_after_arguments.
  destruct (bind (pf_outer f) pos kw) as [b |]; simpl; [| done].
  destruct (translate_line w f _) as [env |] eqn:Ht; simpl; [| done].
  by rewrite (not_parameter_not_local _ _ _ _ _ Hl) by done; rewrite Hp.
Qed.

Lemma call_proxy_function_unbound w (f : proxy_function) pos kw c :
  "_proxy" ∉ parameters (pf_outer f) →
  "_name_error" ∉ parameters (pf_outer f) →
  dict_of w (pf_globals f) !! "_proxy" = None →
  dict_of w (pf_globals f) !! "_name_error" = Some (ENameError c) →
  call_proxy_function w f pos kw =
    raises_after_arguments w f pos kw
      (NameError (name_error_message (pf_name f) c)).
Proof.
  intros Hl Hl' Hp Hn. unfold call_proxy_function, raises_after_arguments.
  destruct (bind (pf_outer f) pos kw) as [b |]; simpl; [| done].
  destruct (translate_line w f _) as [env |] eqn:Ht; simpl; [| done].
  rewrite (not_parameter_not_local _ _ _ _ _ Hl) by done. rewrite Hp.
  unfold name_error_line.
  by rewrite (not_parameter_not_local _ _ _ _ _ Hl') by done; rewrite Hn.
Qed.

(** The only [NameError] the argument phase can raise is about
    [_translate]; it is not the message of [_name_error]. *)
Lemma translate_line_not_name_error w (f : proxy_function) env name c :
  translate_line w f env ≠ Raise (NameError (name_error_message name c)).
Proof.
  unfold translate_line.
  destruct (pf_translate f) as [[spec tr] |]; [| done].
  destruct (dict_of w (pf_globals f) !! "_translate") as [[] |]; try done.
  destruct (env !! "args") as [[] |]; try done.
  destruct (env !! "kw") as [[] |]; try done.
  unfold Translate.translate.
  destruct (Translate.fill_loop _ _ _ _) as [[? ?] |] eqn:Hf; simpl;
    [done |].
  rewrite fill_loop_spec in Hf.
  destruct (filter _ _ !! _); [| done].
  by injection Hf as <-.
Qed.

Lemma bind_params_not_name_error msg ps : ∀ (p : list value)
    (m : gmap string value),
  bind_params ps p m ≠ Raise (NameError msg).
Proof.
  induction ps as [| [a d] ps IH]; intros p m; simpl; [done |].
  destruct p as [| v p].
  - destruct (m !! a) as [x |], d as [y |]; try done.
    + specialize (IH [] (delete a m)).
      destruct (bind_params ps [] (delete a m)) as [[[? ?] ?] |];
        simpl; congruence.
    + specialize (IH [] (delete a m)).
      destruct (bind_params ps [] (delete a m)) as [[[? ?] ?] |];
        simpl; congruence.
    + specialize (IH [] m).
      destruct (bind_params ps [] m) as [[[? ?] ?] |]; simpl; congruence.
  - case_decide; [done |]. specialize (IH p m).
    destruct (bind_params ps p m) as [[[? ?] ?] |]; simpl; congruence.
Qed.

Lemma bind_not_name_error sig pos kw msg :
  bind sig pos kw ≠ Raise (NameError msg).
Proof.
  unfold bind.
  pose proof (bind_params_not_name_error msg (f_params sig) pos kw) as Hbp.
  destruct (bind_params _ _ _) as [[[? ?] ?] |]; simpl; [| congruence].
  repeat case_decide; done.
Qed.

Lemma raises_after_arguments_not_name_error w (f : proxy_function) pos kw
    (e : exn) name c :
  e ≠ NameError (name_error_message name c) →
  raises_after_arguments w f pos kw e
    ≠ Raise (NameError (name_error_message name c)).
Proof.
  intros He. unfold raises_after_arguments.
  pose proof (bind_not_name_error (pf_outer f) pos kw
                (name_error_message name c)) as Hb.
  destruct (bind (pf_outer f) pos kw) as [b |]; simpl; [| congruence].
  pose proof (translate_line_not_name_error w f
                (locals_of (pf_outer f) b) name c) as Ht.
  destruct (translate_line w f _); congruence.
Qed.

(** *** [_install_proxy] *)

Lemma bind_names_spec g self (names : list string) : ∀ w,
  let body := (λ a w, (Ok (), setitem g a (EGetattr self a) w))
    : string → world → result () * world in
  (for_each body names w).1 = Ok ()
  ∧ setups (for_each body names w).2 = setups w
  ∧ members (for_each body names w).2 = members w
  ∧ ∀ d k, dict_of (for_each body names w).2 d !! k =
      if decide (d = g ∧ k ∈ names) then Some (EGetattr self k)
      else dict_of w d !! k.
Proof.
  induction names as [| a names IH]; intros w body; subst body; simpl.
  - split_and!; try done. intros d k. rewrite decide_False; [done |].
    intros [_ Hin]. by apply elem_of_nil in Hin.
  - destruct (IH (setitem g a (EGetattr self a) w)) as (Hok & Hs & Hm & Hd).
    split_and!; try done. intros d k. rewrite Hd, dict_of_setitem.
    destruct (decide (d = g ∧ k ∈ names)) as [[-> Hk] | Hn].
    + rewrite decide_True; [done |]. split; [done |].
      by apply list_elem_of_further.
    + destruct (decide (g = d ∧ a = k)) as [[-> ->] | Hn'].
      * rewrite decide_True; [done |]. split; [done | apply list_elem_of_here].
      * rewrite decide_False; [done |].
        intros [-> [-> | Hin]%elem_of_cons]; tauto.
Qed.

Lemma install_loop_spec self (names : list string) :
  ∀ (ms : list (loc * loc)) w,
  let body := (λ '(globals_, locals_) w,
      for_each (λ attr_name w,
          (Ok (), setitem globals_ attr_name (EGetattr self attr_name) w))
        names (setitem globals_ "_proxy" (EVal (VInst self)) w))
    : loc * loc → world → result () * world in
  (for_each body ms w).1 = Ok ()
  ∧ setups (for_each body ms w).2 = setups w
  ∧ members (for_each body ms w).2 = members w
  ∧ ∀ d k, dict_of (for_each body ms w).2 d !! k =
      if decide (d ∈ ms.*1)
      then if decide (k ∈ names) then Some (EGetattr self k)
           else if decide (k = "_proxy") then Some (EVal (VInst self))
           else dict_of w d !! k
      else dict_of w d !! k.
Proof.
  induction ms as [| [g l] ms IH]; intros w body; subst body; simpl.
  - by split_and!.
  - set (w0 := setitem g "_proxy" (EVal (VInst self)) w).
    destruct (bind_names_spec g self names w0) as (Hok & Hs & Hm & Hd).
    simpl in *.
    destruct (for_each _ names w0) as [[[] | e] w1]; simpl in *; [| done].
    destruct (IH w1) as (Hok' & Hs' & Hm' & Hd').
    split_and!; [done | by rewrite Hs', Hs | by rewrite Hm', Hm |].
    intros d k. rewrite Hd', Hd. unfold w0. rewrite dict_of_setitem.
    destruct (decide (d ∈ g :: _)) as [Hin | Hin].
    + destruct (decide (k ∈ names)) as [Hk | Hk].
      * destruct (decide (d ∈ ms.*1)); [done |].
        apply elem_of_cons in Hin as [-> | Hin]; [| done].
        by rewrite decide_True.
      * destruct (decide (k = "_proxy")) as [-> | Hk'].
        -- destruct (decide (d ∈ ms.*1)); [done |].
           apply elem_of_cons in Hin as [-> | Hin]; [| done].
           rewrite decide_False by tauto. by rewrite decide_True.
        -- rewrite (decide_False (P := d = g ∧ k ∈ names)) by tauto.
           rewrite (decide_False (P := g = d ∧ "_proxy" = k))
             by (by intros [_ <-]).
           by destruct (decide (d ∈ ms.*1)).
    + apply not_elem_of_cons in Hin as [Hne Hin].
      rewrite (decide_False (P := d ∈ ms.*1)) by done.
      rewrite (decide_False (P := d = g ∧ k ∈ names)) by tauto.
      rewrite decide_False; [done |]. by intros [<- _].
Qed.

Lemma install_proxy_spec w self :
  (_install_proxy self w).1 = Ok ()
  ∧ setups (_install_proxy self w).2 = setups w
  ∧ members (_install_proxy self w).2 = members w
  ∧ ∀ d k, dict_of (_install_proxy self w).2 d !! k =
      if decide (d ∈ (modules w (inst_cls self)).*1)
      then if decide (k ∈ attr_names w (inst_cls self))
           then Some (EGetattr self k)
           else if decide (k = "_proxy") then Some (EVal (VInst self))
           else dict_of w d !! k
      else dict_of w d !! k.
Proof.
  unfold _install_proxy.
  destruct (install_loop_spec self (elements (attr_names w (inst_cls self)))
              (modules w (inst_cls self)) w) as (Hok & Hs & Hm & Hd).
  split_and!; try done. intros d k. rewrite Hd.
  repeat case_decide; try done;
    match goal with
    | H : _ ∈ elements _ |- _ => by apply elem_of_elements in H
    | H : _ ∉ elements _ |- _ => by rewrite elem_of_elements in H
    end.
Qed.

Lemma modules_eq w w' c : setups w' = setups w → modules w' c = modules w c.
Proof. unfold modules, setup_of. by intros ->. Qed.

Lemma attr_names_eq w w' c :
  setups w' = setups w → attr_names w' c = attr_names w c.
Proof. unfold attr_names, setup_of. by intros ->. Qed.

Lemma members_of_eq w w' c :
  members w' = members w → members_of w' c = members_of w c.
Proof. unfold members_of. by intros ->. Qed.

(** After [_install_proxy] the instance is the one installed, as long as
    [_proxy] is no attribute name. *)
Lemma install_proxy_attached w self :
  "_proxy" ∉ attr_names w (inst_cls self) →
  attached (_install_proxy self w).2 self.
Proof.
  intros Hp. destruct (install_proxy_spec w self) as (_ & Hs & _ & Hd).
  intros g Hg. rewrite (modules_eq _ _ _ Hs) in Hg.
  rewrite (attr_names_eq _ _ _ Hs). split.
  - rewrite Hd. rewrite decide_True by done.
    rewrite decide_False by done. by rewrite decide_True.
  - intros a Ha. rewrite Hd. rewrite decide_True by done.
    by rewrite decide_True.
Qed.

Lemma attached_proxy_not_attr w self :
  attached w self → modules w (inst_cls self) ≠ [] →
  "_proxy" ∉ attr_names w (inst_cls self).
Proof.
  intros Hatt Hms Hin.
  destruct (modules w (inst_cls self)) as [| [g l] ms] eqn:Hm; [done |].
  destruct (Hatt g) as [Hp Ha].
  { rewrite Hm. apply list_elem_of_here. }
  specialize (Ha _ Hin). congruence.
Qed.

(** *** [_add_proxied_attribute] *)

Lemma public_not_private k k' :
  String.prefix "_" k = false → String.prefix "_" k' = true → k ≠ k'.
Proof. intros Hk Hk' ->. congruence. Qed.

Lemma bind_helpers_lookup c g tr w d k :
  String.prefix "_" k = false →
  dict_of (bind_helpers c g tr w) d !! k = dict_of w d !! k.
Proof.
  intros Hk. unfold bind_helpers. destruct tr.
  - rewrite dict_of_setitem_ne; [done |]. right.
    by apply not_eq_sym, (public_not_private k).
  - rewrite !dict_of_setitem_ne; [done | |]; right;
      by apply not_eq_sym, (public_not_private k).
Qed.

Lemma bind_helpers_setups c g tr w :
  setups (bind_helpers c g tr w) = setups w
  ∧ members (bind_helpers c g tr w) = members w.
Proof. unfold bind_helpers. by destruct tr. Qed.

Lemma add_proxied_attribute_private c name g l w :
  String.prefix "_" name = true →
  _add_proxied_attribute c name g l w = (Ok (), w).
Proof. intros Hp. unfold _add_proxied_attribute. by rewrite Hp. Qed.

Lemma add_proxied_attribute_function c name g l w kind spec tr doc :
  String.prefix "_" name = false →
  members_of w c !! name = Some (MFunction kind spec tr doc) →
  _add_proxied_attribute c name g l w =
    (Ok (),
     setitem l name (EFunction (func_text name g spec tr doc))
       (bind_helpers c g tr w)).
Proof.
  intros Hp Hm. unfold _add_proxied_attribute, _create_method_proxy.
  by rewrite Hp, Hm.
Qed.

Lemma add_proxied_attribute_attr c name g l w :
  String.prefix "_" name = false →
  members_of w c !! name = Some MAttribute →
  _add_proxied_attribute c name g l w = (Ok (), add_attr_name c name w).
Proof.
  intros Hp Hm. unfold _add_proxied_attribute. by rewrite Hp, Hm.
Qed.

Lemma setup_of_add_attr_name c name w c' :
  setup_of (add_attr_name c name w) c' =
    if decide (c = c') then ({[name]} ∪ attr_names w c, modules w c)
    else setup_of w c'.
Proof.
  unfold add_attr_name, setup_of. simpl. case_decide as Hc.
  - subst. by rewrite lookup_insert_eq.
  - by rewrite lookup_insert_ne.
Qed.

Lemma members_of_set_member c key m w c' k :
  members_of (set_member c key m w) c' !! k =
    if decide (c = c' ∧ key = k) then Some m else members_of w c' !! k.
Proof.
  unfold set_member, members_of. simpl.
  destruct (decide (c = c')) as [<- | Hc].
  - rewrite lookup_insert_eq. simpl.
    destruct (decide (key = k)) as [<- | Hk].
    + rewrite lookup_insert_eq. by rewrite decide_True.
    + rewrite lookup_insert_ne by done. rewrite decide_False; [done | tauto].
  - rewrite lookup_insert_ne by done. rewrite decide_False; [done | tauto].
Qed.

Lemma NoDup_snd_inj {A B} (ms : list (A * B)) x x' y :
  NoDup ms.*2 → (x, y) ∈ ms → (x', y) ∈ ms → x = x'.
Proof.
  induction ms as [| [a b] ms IH]; intros Hnd Hin Hin'; simpl in *.
  - by apply elem_of_nil in Hin.
  - apply NoDup_cons in Hnd as [Hb Hnd].
    apply elem_of_cons in Hin as [Heq | Hin];
      apply elem_of_cons in Hin' as [Heq' | Hin']; simplify_eq.
    + done.
    + destruct Hb. apply list_elem_of_fmap. by exists (x', b).
    + destruct Hb. apply list_elem_of_fmap. by exists (x, b).
    + by apply IH.
Qed.

(** *** [_update_module_proxies] *)

Lemma update_function_step w0 c key kind spec tr doc g l w :
  String.prefix "_" key = false →
  members_of w0 c !! key = Some (MFunction kind spec tr doc) →
  update_inv w0 c w →
  _add_proxied_attribute c key g l w =
    (Ok (),
     setitem l key (EFunction (func_text key g spec tr doc))
       (bind_helpers c g tr w))
  ∧ update_inv w0 c (_add_proxied_attribute c key g l w).2.
Proof.
  intros Hk Hm [Hmem Hmod].
  rewrite (add_proxied_attribute_function c key g l w kind spec tr doc);
    [| done | by rewrite (members_of_eq _ _ _ Hmem)].
  split; [done |]. simpl.
  destruct (bind_helpers_setups c g tr w) as [Hs Hm'].
  split; simpl.
  - by rewrite Hm'.
  - unfold modules, setup_of in *. simpl. by rewrite Hs.
Qed.

Lemma update_function w0 c key kind spec tr doc :
  String.prefix "_" key = false →
  members_of w0 c !! key = Some (MFunction kind spec tr doc) →
  (_update_module_proxies c key w0).1 = Ok ()
  ∧ update_inv w0 c (_update_module_proxies c key w0).2
  ∧ ∀ g l, (g, l) ∈ modules w0 c →
      ∃ g', (g', l) ∈ modules w0 c
        ∧ dict_of (_update_module_proxies c key w0).2 l !! key
          = Some (EFunction (func_text key g' spec tr doc)).
Proof.
  intros Hk Hm. unfold _update_module_proxies.
  set (body := (λ '(globals_, locals_),
                  _add_proxied_attribute c key globals_ locals_)
               : loc * loc → world → result () * world).
  assert (∀ y w, y ∈ modules w0 c → update_inv w0 c w →
            (body y w).1 = Ok () ∧ update_inv w0 c (body y w).2) as Hstep.
  { intros [g l] w _ Hinv. unfold body.
    destruct (update_function_step w0 c key kind spec tr doc g l w)
      as [Heq Hinv']; try done.
    split; [by rewrite Heq | done]. }
  assert (update_inv w0 c w0) as Hinv0 by done.
  destruct (for_each_total body (update_inv w0 c) (modules w0 c) Hstep w0)
    as [Hok Hinv]; [done |].
  split_and!; [done | done |].
  intros g l Hin.
  apply (for_each_establish body (update_inv w0 c)
           (λ w, ∃ g', (g', l) ∈ modules w0 c
              ∧ dict_of w l !! key
                = Some (EFunction (func_text key g' spec tr doc)))
           (modules w0 c) (g, l)); [done | done | | | done].
  - intros w Hw. unfold body.
    destruct (update_function_step w0 c key kind spec tr doc g l w)
      as [Heq _]; try done.
    rewrite Heq. simpl. exists g. split; [done |].
    apply dict_of_setitem_eq.
  - intros [g2 l2] w Hin2 Hw (g' & Hg' & Hd). unfold body.
    destruct (update_function_step w0 c key kind spec tr doc g2 l2 w)
      as [Heq _]; try done.
    rewrite Heq. simpl. destruct (decide (l2 = l)) as [-> | Hne].
    + exists g2. split; [done |]. apply dict_of_setitem_eq.
    + exists g'. split; [done |].
      rewrite dict_of_setitem_ne by (by left).
      by rewrite bind_helpers_lookup.
Qed.

Lemma update_attribute_step w0 c key g l w :
  String.prefix "_" key = false →
  members_of w0 c !! key = Some MAttribute →
  update_inv w0 c w →
  _add_proxied_attribute c key g l w = (Ok (), add_attr_name c key w)
  ∧ update_inv w0 c (_add_proxied_attribute c key g l w).2.
Proof.
  intros Hk Hm [Hmem Hmod].
  rewrite (add_proxied_attribute_attr c key g l w);
    [| done | by rewrite (members_of_eq _ _ _ Hmem)].
  split; [done |]. simpl. split; [done |].
  unfold modules at 1. rewrite setup_of_add_attr_name.
  by rewrite decide_True.
Qed.

Lemma update_attribute w0 c key :
  String.prefix "_" key = false →
  members_of w0 c !! key = Some MAttribute →
  (_update_module_proxies c key w0).1 = Ok ()
  ∧ update_inv w0 c (_update_module_proxies c key w0).2
  ∧ (modules w0 c ≠ [] →
     key ∈ attr_names (_update_module_proxies c key w0).2 c).
Proof.
  intros Hk Hm. unfold _update_module_proxies.
  set (body := (λ '(globals_, locals_),
                  _add_proxied_attribute c key globals_ locals_)
               : loc * loc → world → result () * world).
  assert (∀ y w, y ∈ modules w0 c → update_inv w0 c w →
            (body y w).1 = Ok () ∧ update_inv w0 c (body y w).2) as Hstep.
  { intros [g l] w _ Hinv. unfold body.
    destruct (update_attribute_step w0 c key g l w) as [Heq Hinv'];
      try done.
    split; [by rewrite Heq | done]. }
  assert (update_inv w0 c w0) as Hinv0 by done.
  destruct (for_each_total body (update_inv w0 c) (modules w0 c) Hstep w0)
    as [Hok Hinv]; [done |].
  split_and!; [done | done |].
  intros Hne. destruct (modules w0 c) as [| [g l] ms] eqn:Hms; [done |].
  apply (for_each_establish body (update_inv w0 c)
           (λ w, key ∈ attr_names w c) ((g, l) :: ms) (g, l));
    [apply list_elem_of_here | done | | | done].
  - intros w Hw. unfold body.
    destruct (update_attribute_step w0 c key g l w) as [Heq _]; try done.
    rewrite Heq. simpl. unfold attr_names at 1.
    rewrite setup_of_add_attr_name, decide_True by done. simpl.
    apply elem_of_union_l, elem_of_singleton. done.
  - intros [g2 l2] w Hin2 Hw Hin. unfold body.
    destruct (update_attribute_step w0 c key g2 l2 w) as [Heq _]; try done.
    rewrite Heq. simpl. unfold attr_names at 1.
    rewrite setup_of_add_attr_name, decide_True by done. simpl.
    by apply elem_of_union_r.
Qed.

(** Assigning an attribute that is not callable writes no dictionary. *)
Lemma update_attribute_dicts w0 c key :
  String.prefix "_" key = false →
  members_of w0 c !! key = Some MAttribute →
  dicts (_update_module_proxies c key w0).2 = dicts w0.
Proof.
  intros Hk Hm. unfold _update_module_proxies.
  set (body := (λ '(globals_, locals_),
                  _add_proxied_attribute c key globals_ locals_)
               : loc * loc → world → result () * world).
  set (Inv := λ w, update_inv w0 c w ∧ dicts w = dicts w0).
  assert (∀ y w, y ∈ modules w0 c → Inv w →
            (body y w).1 = Ok () ∧ Inv (body y w).2) as Hstep.
  { intros [g l] w _ [Hinv Hd]. unfold body.
    destruct (update_attribute_step w0 c key g l w) as [Heq Hinv'];
      try done.
    split; [by rewrite Heq |]. split; [done |]. by rewrite Heq. }
  destruct (for_each_total body Inv (modules w0 c) Hstep w0)
    as [_ [_ Hd]]; [by split |].
  done.
Qed.

End ProxyFacts.

(** ** Registration: lemmas *)

Section RegisterFacts.
Import ModuleClsProxy ProxyExamples.
Implicit Types (w : world) (d g l : loc) (k name : string) (e : entry).
Implicit Types (c : cls) (self : instance).

Lemma elem_of_dir w c name :
  name ∈ dir_ w c ↔ is_Some (members_of w c !! name).
Proof.
  unfold dir_. rewrite merge_sort_Permutation.
  rewrite elem_of_elements. apply elem_of_dom.
Qed.

Lemma register_inv_refl w c : register_inv w c w.
Proof. split_and!; try done. intros a Ha. by left. Qed.

(** One iteration of [_setup_proxy], on a name the class has. *)
Lemma register_step w0 c n g l w :
  is_Some (members_of w0 c !! n) →
  register_inv w0 c w →
  (_add_proxied_attribute c n g l w).1 = Ok ()
  ∧ register_inv w0 c (_add_proxied_attribute c n g l w).2.
Proof.
  intros [m Hm] (Hmem & Hmod & Hattr).
  assert (members_of w c !! n = Some m) as Hm'
    by (by rewrite (members_of_eq _ _ _ Hmem)).
  destruct (String.prefix "_" n) eqn:Hn.
  { rewrite add_proxied_attribute_private by done. by split_and!. }
  destruct m as [kind spec tr doc |].
  - rewrite (add_proxied_attribute_function c n g l w kind spec tr doc)
      by done.
    simpl. destruct (bind_helpers_setups c g tr w) as [Hs Hms].
    split; [done |]. split_and!.
    + simpl. by rewrite Hms.
    + unfold modules, setup_of in *. simpl. by rewrite Hs.
    + intros a. unfold attr_names, setup_of in *. simpl. rewrite Hs.
      apply Hattr.
  - rewrite add_proxied_attribute_attr by done. simpl.
    split; [done |]. split_and!.
    + done.
    + unfold modules at 1. rewrite setup_of_add_attr_name.
      by rewrite decide_True.
    + intros a. unfold attr_names at 1. rewrite setup_of_add_attr_name.
      rewrite decide_True by done. simpl.
      intros [->%elem_of_singleton | Ha]%elem_of_union; [by right |].
      by apply Hattr.
Qed.

(** The iteration on a public function binds its generated function in
    [locals_] and the helpers in [globals_]. *)
Lemma register_step_function w0 c n g l w kind spec tr doc :
  String.prefix "_" n = false →
  members_of w0 c !! n = Some (MFunction kind spec tr doc) →
  register_inv w0 c w →
  (_add_proxied_attribute c n g l w).2 =
    setitem l n (EFunction (func_text n g spec tr doc))
      (bind_helpers c g tr w).
Proof.
  intros Hn Hm (Hmem & _).
  rewrite (add_proxied_attribute_function c n g l w kind spec tr doc);
    [done | done |]. by rewrite (members_of_eq _ _ _ Hmem).
Qed.

(** No iteration on another name touches a public name of [locals_], and
    none unbinds [_translate]. *)
Lemma register_step_lookup w0 c n g l w d k :
  is_Some (members_of w0 c !! n) →
  register_inv w0 c w →
  String.prefix "_" k = false →
  n ≠ k →
  dict_of (_add_proxied_attribute c n g l w).2 d !! k = dict_of w d !! k.
Proof.
  intros [m Hm] Hinv Hk Hne.
  destruct (String.prefix "_" n) eqn:Hn.
  { by rewrite add_proxied_attribute_private. }
  destruct m as [kind spec tr doc |].
  - rewrite (register_step_function w0 c n g l w kind spec tr doc) by done.
    rewrite dict_of_setitem_ne by (by right).
    by apply bind_helpers_lookup.
  - destruct Hinv as (Hmem & _).
    rewrite add_proxied_attribute_attr;
      [done | done | by rewrite (members_of_eq _ _ _ Hmem)].
Qed.

Lemma register_step_translate w0 c n g l w :
  is_Some (members_of w0 c !! n) →
  register_inv w0 c w →
  dict_of w g !! "_translate" = Some ETranslate →
  dict_of (_add_proxied_attribute c n g l w).2 g !! "_translate"
    = Some ETranslate.
Proof.
  intros [m Hm] Hinv Ht.
  destruct (String.prefix "_" n) eqn:Hn.
  { by rewrite add_proxied_attribute_private. }
  destruct m as [kind spec tr doc |].
  - rewrite (register_step_function w0 c n g l w kind spec tr doc) by done.
    rewrite dict_of_setitem_ne.
    + unfold bind_helpers. destruct tr.
      * by rewrite dict_of_setitem_ne by (by right).
      * by rewrite dict_of_setitem_eq.
    + right. intros ->. done.
  - destruct Hinv as (Hmem & _).
    rewrite add_proxied_attribute_attr;
      [done | done | by rewrite (members_of_eq _ _ _ Hmem)].
Qed.

(** [create_module_class_proxy] never raises; it appends the module, adds
    to [attr_names] only public attributes that are not callable, binds in
    [locals_] the function generated for each public function of the class,
    and [_translate] in [globals_] when one of them has translations. *)
Lemma register_spec w c g l :
  (create_module_class_proxy c g l w).1 = Ok ()
  ∧ members (create_module_class_proxy c g l w).2 = members w
  ∧ modules (create_module_class_proxy c g l w).2 c = modules w c ++ [(g, l)]
  ∧ (∀ a, a ∈ attr_names (create_module_class_proxy c g l w).2 c →
       a ∈ attr_names w c
       ∨ (String.prefix "_" a = false
          ∧ members_of w c !! a = Some MAttribute))
  ∧ (∀ name kind spec tr doc,
       String.prefix "_" name = false →
       members_of w c !! name = Some (MFunction kind spec tr doc) →
       dict_of (create_module_class_proxy c g l w).2 l !! name
         = Some (EFunction (func_text name g spec tr doc))
       ∧ (tr ≠ [] →
          dict_of (create_module_class_proxy c g l w).2 g !! "_translate"
            = Some ETranslate)).
Proof.
  unfold create_module_class_proxy, _setup_proxy.
  set (w0 := append_module c g l w).
  assert (members w0 = members w) as Hmem0 by done.
  assert (members_of w0 c = members_of w c) as Hmof by done.
  assert (modules w0 c = modules w c ++ [(g, l)]) as Hmod0.
  { unfold w0, append_module, modules at 1, setup_of. simpl.
    by rewrite lookup_insert_eq. }
  assert (attr_names w0 c = attr_names w c) as Hattr0.
  { unfold w0, append_module, attr_names at 1, setup_of. simpl.
    by rewrite lookup_insert_eq. }
  set (body := λ methname, _add_proxied_attribute c methname g l).
  assert (∀ y w', y ∈ dir_ w0 c → register_inv w0 c w' →
            (body y w').1 = Ok () ∧ register_inv w0 c (body y w').2)
    as Hstep.
  { intros y w' Hy Hinv. apply register_step; [| done].
    by apply elem_of_dir. }
  destruct (for_each_total body (register_inv w0 c) (dir_ w0 c) Hstep w0
              (register_inv_refl w0 c)) as (Hok & Hmem & Hmod & Hattr).
  split_and!.
  - done.
  - by rewrite Hmem.
  - by rewrite Hmod.
  - intros a Ha. rewrite <- Hattr0, <- Hmof. by apply Hattr.
  - intros name kind spec tr doc Hname Hm. rewrite <- Hmof in Hm.
    assert (name ∈ dir_ w0 c) as Hin by (apply elem_of_dir; by eexists).
    split.
    + apply (for_each_establish body (register_inv w0 c)
               (λ w', dict_of w' l !! name
                  = Some (EFunction (func_text name g spec tr doc)))
               (dir_ w0 c) name); [done | done | | | apply register_inv_refl].
      * intros w' Hinv. unfold body.
        rewrite (register_step_function w0 c name g l w' kind spec tr doc)
          by done.
        apply dict_of_setitem_eq.
      * intros y w' Hy Hinv HP. unfold body.
        destruct (decide (y = name)) as [-> | Hne].
        -- rewrite (register_step_function w0 c name g l w' kind spec tr doc)
             by done.
           apply dict_of_setitem_eq.
        -- rewrite (register_step_lookup w0 c y g l w' l name);
             [done | by apply elem_of_dir | done | done | done].
    + intros Htr.
      apply (for_each_establish body (register_inv w0 c)
               (λ w', dict_of w' g !! "_translate" = Some ETranslate)
               (dir_ w0 c) name); [done | done | | | apply register_inv_refl].
      * intros w' Hinv. unfold body.
        rewrite (register_step_function w0 c name g l w' kind spec tr doc)
          by done.
        rewrite dict_of_setitem_ne by (right; by intros ->).
        unfold bind_helpers. destruct tr; [done |].
        apply dict_of_setitem_eq.
      * intros y w' Hy Hinv HP. unfold body.
        apply (register_step_translate w0); [by apply elem_of_dir | done..].
Qed.

End RegisterFacts.


(** ** Calls through a generated function: lemmas *)

Section ForwardFacts.
Import ModuleClsProxy ProxyExamples.
Implicit Types (w : world) (d g l : loc) (k name : string) (e : entry).
Implicit Types (c : cls) (self : instance).
Implicit Types (pos : list value) (kw : gmap string value).

Lemma signature_params_length spec :
  length (f_params (signature spec)) = length (spec_args spec).
Proof.
  unfold signature.
  rewrite <- (formatargspec_names (spec_args spec) (spec_varargs spec)
               (spec_keywords spec) (spec_defaults spec)) at 2.
  by rewrite length_fmap.
Qed.

Lemma pop_self_other spec :
  head (spec_args spec) ≠ Some "self" → pop_self spec = spec.
Proof.
  unfold pop_self. destruct (spec_args spec) as [| a rest]; [done |].
  simpl. intros Hne. case_decide; [by subst | done].
Qed.

Lemma pop_self_self spec :
  head (spec_args spec) = Some "self" →
  ∃ rest, spec_args spec = "self" :: rest
    ∧ pop_self spec = ArgSpec rest (spec_varargs spec) (spec_keywords spec)
                        (spec_defaults spec).
Proof.
  unfold pop_self. destruct (spec_args spec) as [| a rest]; [done |].
  simpl. intros [= ->]. exists rest. by rewrite decide_True.
Qed.

Lemma pop_self_rest spec :
  spec_varargs (pop_self spec) = spec_varargs spec
  ∧ spec_keywords (pop_self spec) = spec_keywords spec
  ∧ spec_defaults (pop_self spec) = spec_defaults spec.
Proof.
  unfold pop_self. destruct (spec_args spec) as [| a rest]; [done |].
  by case_decide.
Qed.

(** The function generated for a method without translations declares the
    parameters of the method without [self], and forwards the names of
    those parameters. *)
Lemma func_text_plain name g spec doc :
  pf_name (func_text name g spec [] doc) = name
  ∧ pf_outer (func_text name g spec [] doc) = signature (pop_self spec)
  ∧ pf_translate (func_text name g spec [] doc) = None
  ∧ pf_globals (func_text name g spec [] doc) = g
  ∧ f_params (pf_inner (func_text name g spec [] doc))
    = inner_params (f_params (signature (pop_self spec)))
  ∧ f_varargs (pf_inner (func_text name g spec [] doc))
    = f_varargs (signature (pop_self spec))
  ∧ f_varkw (pf_inner (func_text name g spec [] doc))
    = f_varkw (signature (pop_self spec)).
Proof.
  unfold func_text, signature. simpl. split_and!; try done.
  apply (formatargspec_inner (spec_args (pop_self spec))
           (spec_varargs (pop_self spec)) (spec_keywords (pop_self spec))
           (spec_defaults (pop_self spec))).
Qed.

(** A call whose arguments the parameter list [sig0] accepts, forwarded and
    bound by [sig0] again. *)
Lemma forwarded_bind (sig0 : formatted value) (inner : formatted string)
    pos kw b (extra : lval) :
  f_params inner = inner_params (f_params sig0) →
  f_varargs inner = f_varargs sig0 →
  f_varkw inner = f_varkw sig0 →
  NoDup ((f_params sig0).*1 ++ option_list (f_varargs sig0)
         ++ option_list (f_varkw sig0)) →
  "p" ∉ (f_params sig0).*1 ++ option_list (f_varargs sig0)
        ++ option_list (f_varkw sig0) →
  defaults_at_tail (f_params sig0) →
  bind sig0 pos kw = Ok b →
  (Forall (λ p, p.2 = None) (f_params sig0) ∨ f_varargs sig0 = None
   ∨ length pos ≤ length (f_params sig0)) →
  ∃ pos' kw',
    eval_call inner (<["p" := extra]> (locals_of sig0 b)) = Ok (pos', kw')
    ∧ bind sig0 pos' kw' = Ok b
    ∧ (∀ x, x ∉ (f_params sig0).*1 → kw' !! x = kw !! x).
Proof.
  intros Hip Hiv Hik Hnd Hp Htail Hb Hcond.
  destruct (forward_roundtrip sig0 inner pos kw b extra)
    as (pos' & kw' & He & Hbp & Hkw); try done.
  exists pos', kw'. split_and!; [done | | done].
  apply bind_Ok. apply bind_Ok in Hb as (_ & Hva & Hkn). by split_and!.
Qed.

Lemma signature_names spec :
  (f_params (signature spec)).*1 ++ option_list (f_varargs (signature spec))
    ++ option_list (f_varkw (signature spec)) = param_names spec.
Proof.
  unfold signature, param_names. by rewrite formatargspec_names.
Qed.

(** The condition under which the forwarded call binds as the call did. *)
Lemma forward_condition spec0 pos :
  spec_defaults spec0 = [] ∨ spec_varargs spec0 = None
  ∨ length pos ≤ length (spec_args spec0) →
  Forall (λ p, p.2 = None) (f_params (signature spec0))
  ∨ f_varargs (signature spec0) = None
  ∨ length pos ≤ length (f_params (signature spec0)).
Proof.
  intros [Hd | [Hv | Hl]].
  - left. unfold signature. rewrite Hd. apply formatargspec_no_defaults.
  - right. by left.
  - right. right. by rewrite signature_params_length.
Qed.

Lemma result_bind_Ok {A B} (a : A) (f : A → result B) : Ok a ≫= f = f a.
Proof. done. Qed.

Lemma result_bind_Raise {A B} (e : exn) (f : A → result B) :
  Raise e ≫= f = Raise e.
Proof. done. Qed.

(** The body of a generated function without translations, when [_proxy] is
    an instance that has the attribute. *)
Lemma call_proxy_function_installed w (f : proxy_function) self m pos kw :
  pf_translate f = None →
  "_proxy" ∉ parameters (pf_outer f) →
  dict_of w (pf_globals f) !! "_proxy" = Some (EVal (VInst self)) →
  members_of w (inst_cls self) !! pf_name f = Some m →
  call_proxy_function w f pos kw =
    b ← bind (pf_outer f) pos kw;
    '(pos', kw') ← eval_call (pf_inner f)
                     (<["p" := LVal (VInst self)]> (locals_of (pf_outer f) b));
    invoke self (pf_name f) m pos' kw'.
Proof.
  intros Ht Hl Hp Hm. unfold call_proxy_function, translate_line.
  rewrite Ht. destruct (bind (pf_outer f) pos kw) as [b |]; [| done].
  rewrite !result_bind_Ok, (locals_of_not_parameter _ _ _ Hl), Hp.
  unfold call_attribute. by rewrite Hm.
Qed.

(** Popping [self] leaves no name that was not there. *)
Lemma param_names_pop_self spec x :
  x ∉ param_names spec → x ∉ param_names (pop_self spec).
Proof.
  destruct (decide (head (spec_args spec) = Some "self")) as [Hs | Hs].
  - destruct (pop_self_self spec Hs) as (rest & Hargs & ->).
    unfold param_names. rewrite Hargs. cbn [spec_args spec_varargs spec_keywords].
    rewrite <- app_comm_cons, not_elem_of_cons. by intros [_ ?].
  - by rewrite (pop_self_other spec Hs).
Qed.

Lemma parameters_signature spec : parameters (signature spec) = param_names spec.
Proof. apply signature_names. Qed.

(** With an instance installed, the function generated for a method
    without translations calls the method as a direct call would. *)
Lemma call_plain w g name kind spec doc self pos kw :
  dict_of w g !! "_proxy" = Some (EVal (VInst self)) →
  members_of w (inst_cls self) !! name = Some (MFunction kind spec [] doc) →
  NoDup (param_names spec) →
  "p" ∉ param_names spec →
  "_proxy" ∉ param_names spec →
  (kind ≠ StaticMethod ↔ head (spec_args spec) = Some "self") →
  (spec_defaults spec = [] ∨ spec_varargs spec = None
   ∨ length pos ≤ length (spec_args (pop_self spec))) →
  call_proxy_function w (func_text name g spec [] doc) pos kw
    = call_method w self name pos kw.
Proof.
  intros Hproxy Hm Hnd Hp Hpx Hkind Hcond.
  destruct (func_text_plain name g spec doc)
    as (Hname & Houter & Htr & Hg & Hip & Hiv & Hik).
  rewrite (call_proxy_function_installed w _ self
             (MFunction kind spec [] doc));
    [| done
     | rewrite Houter, parameters_signature; by apply param_names_pop_self
     | by rewrite Hg | by rewrite Hname].
  unfold call_method. rewrite Hm. unfold invoke.
  rewrite Hname, Houter.
  set (inner := pf_inner (func_text name g spec [] doc)) in *.
  set (sig0 := signature (pop_self spec)) in *.
  assert (defaults_at_tail (f_params sig0)) as H3.
  { unfold sig0, signature. apply formatargspec_tail. }
  assert (Forall (λ p, p.2 = None) (f_params sig0)
          ∨ f_varargs sig0 = None
          ∨ length pos ≤ length (f_params sig0)) as H4.
  { apply (forward_condition (pop_self spec)).
    destruct (pop_self_rest spec) as (Hv & _ & Hd).
    by rewrite Hv, Hd. }
  destruct (decide (kind = StaticMethod)) as [-> | Hk].
  - (* no receiver, and nothing popped *)
    assert (pop_self spec = spec) as Hpop.
    { apply pop_self_other. intros Hh. by apply Hkind in Hh. }
    assert (sig0 = signature spec) as Hsig by (unfold sig0; by rewrite Hpop).
    rewrite <- Hsig. cbn [receiver app].
    destruct (bind sig0 pos kw) as [b |] eqn:Hb;
      [| by rewrite !result_bind_Raise].
    assert (NoDup ((f_params sig0).*1 ++ option_list (f_varargs sig0)
                   ++ option_list (f_varkw sig0))) as H1.
    { unfold sig0. by rewrite signature_names, Hpop. }
    assert ("p" ∉ (f_params sig0).*1 ++ option_list (f_varargs sig0)
                  ++ option_list (f_varkw sig0)) as H2.
    { unfold sig0. by rewrite signature_names, Hpop. }
    destruct (forwarded_bind sig0 inner pos kw b
                (LVal (VInst self)) Hip Hiv Hik H1 H2 H3 Hb H4)
      as (pos' & kw' & He & Hb' & _).
    rewrite !result_bind_Ok, He, result_bind_Ok.
    by rewrite Hb'.
  - (* the receiver is the popped [self] *)
    destruct (pop_self_self spec) as (rest & Hargs & Hpop);
      [by apply Hkind |].
    assert (∃ r, receiver kind self = [r]) as [r Hr].
    { destruct kind; [by eexists | by eexists | done]. }
    rewrite Hr. cbn [app].
    assert (param_names spec = "self" :: param_names (pop_self spec))
      as Hpn.
    { unfold param_names. by rewrite Hpop, Hargs. }
    rewrite Hpn in Hnd, Hp. apply NoDup_cons in Hnd as [Hself Hnd].
    apply not_elem_of_cons in Hp as [_ Hp].
    assert ("self" ∉ (f_params sig0).*1) as Hself'.
    { intros Hin. apply Hself. unfold param_names.
      apply elem_of_app. left. unfold sig0, signature in Hin.
      by rewrite formatargspec_names in Hin. }
    assert (∃ dv, f_params (signature spec) = ("self", dv) :: f_params sig0)
      as [dv Hfull].
    { unfold sig0, signature. rewrite Hpop, Hargs. cbn [spec_args
        spec_varargs spec_keywords spec_defaults].
      eexists. apply formatargspec_cons. }
    assert (f_varargs (signature spec) = f_varargs sig0) as Hfv
      by (unfold sig0; by rewrite Hpop).
    assert (f_varkw (signature spec) = f_varkw sig0) as Hfk
      by (unfold sig0; by rewrite Hpop).
    rewrite (bind_receiver (signature spec) sig0 "self" dv r pos kw)
      by done.
    destruct (bind sig0 pos kw) as [b |] eqn:Hb.
    + assert (NoDup ((f_params sig0).*1 ++ option_list (f_varargs sig0)
                     ++ option_list (f_varkw sig0))) as H1.
      { unfold sig0. by rewrite signature_names. }
      assert ("p" ∉ (f_params sig0).*1 ++ option_list (f_varargs sig0)
                    ++ option_list (f_varkw sig0)) as H2.
      { unfold sig0. by rewrite signature_names. }
      destruct (forwarded_bind sig0 inner pos kw b
                  (LVal (VInst self)) Hip Hiv Hik H1 H2 H3 Hb H4)
        as (pos' & kw' & He & Hb' & Hkw).
      rewrite !result_bind_Ok, He, result_bind_Ok.
      rewrite (bind_receiver (signature spec) sig0 "self" dv r pos' kw')
        by done.
      rewrite Hb'.
      destruct (decide ("self" ∈ dom kw)) as [Hin | Hin].
      * rewrite decide_True; [done |].
        apply elem_of_dom. rewrite Hkw by done. by apply elem_of_dom.
      * rewrite decide_False; [done |].
        intros Hin'. apply Hin. apply elem_of_dom.
        rewrite <- Hkw by done. by apply elem_of_dom.
    + apply bind_Raise in Hb as ->. rewrite !result_bind_Raise.
      by case_decide.
Qed.

(** With an instance installed, the function generated for a method with
    translations takes any arguments and calls the method with what
    [translate] makes of them. *)
Lemma call_translated w g name kind spec tr doc self pos kw :
  tr ≠ [] →
  dict_of w g !! "_proxy" = Some (EVal (VInst self)) →
  dict_of w g !! "_translate" = Some ETranslate →
  members_of w (inst_cls self) !! name = Some (MFunction kind spec tr doc) →
  call_proxy_function w (func_text name g spec tr doc) pos kw =
    '(args', kw') ← Translate.translate (pop_self spec) tr pos kw;
    call_method w self name args' kw'.
Proof.
  intros Htr Hproxy Htranslate Hm.
  destruct tr as [| t tr]; [done |].
  unfold call_proxy_function, call_method, translate_line, func_text.
  simpl. rewrite Htranslate, Hproxy, Hm. unfold bind. simpl.
  unfold locals_of. simpl.
  rewrite lookup_insert_ne by done. rewrite lookup_insert_eq.
  rewrite lookup_insert_eq.
  destruct (Translate.translate _ _ _ _) as [[args' kw'] |]; simpl; [| done].
  unfold eval_call. simpl.
  rewrite !(lookup_insert_ne _ "p") by done.
  rewrite (lookup_insert_ne _ "kw" "args") by done.
  rewrite !lookup_insert_eq. simpl.
  rewrite decide_True by apply map_disjoint_empty_r. simpl.
  by rewrite (left_id_L ∅ (∪)).
Qed.

End ForwardFacts.

(** ** The dispatcher: claims *)

Section DispatcherClaims.
Import Dispatcher DispatchExamples.

(** C1.  [dispatch] returns a handler [fn] exactly when the ancestor chain
    of the object's type splits as [pre ++ c :: post] where no class of
    [pre] answers, [c] answers (it has the qualifier, which is not
    'default', or it has 'default') and [fn] is what [c] answers with: its
    handler for the qualifier when it has one, its 'default' handler
    otherwise.  With [(Base, 'default') -> H1] and [(Derived, 'x') -> H2]:
    a [Derived] instance resolves 'x' to H2 and 'default' to H1, and a
    [Base] instance resolves 'x' to H1. *)
Theorem dispatch_first_matching_ancestor :
  (∀ (Fn : Type) (mro : cls → list cls) (σ : gmap loc (gmap dkey Fn))
     (self : loc) (obj : pyobject) (q : string) (fn : Fn),
     dispatch mro self obj q σ = Ok fn ↔
     ∃ pre c post,
       mro (ob_type obj) = pre ++ c :: post
       ∧ Forall (λ b, ¬ matches (registry_of σ self) q b) pre
       ∧ matches (registry_of σ self) q c
       ∧ handler_at (registry_of σ self) q c = Some fn)
  ∧ dispatch example_mro example_table.1 derivedInstance "x"
      example_table.2 = Ok "H2"
  ∧ dispatch example_mro example_table.1 derivedInstance "default"
      example_table.2 = Ok "H1"
  ∧ dispatch example_mro example_table.1 baseInstance "x"
      example_table.2 = Ok "H1".
Proof.
  split; [| by vm_compute].
  intros. unfold dispatch. apply dispatch_loop_Ok.
Qed.

(** C2 (what the code does).  On a new dispatcher, registering a handler for
    [(target, q)] and then a second one for the same key raises nothing:
    the second call returns its handler and the entry holds the second
    handler.  The guard [target not in self._registry] looks the bare class
    up among keys that are all tuples. *)
Theorem dispatch_for_twice_overwrites :
  ∀ (Fn : Type) (σ : gmap loc (gmap dkey Fn)) (target : cls) (q : string)
    (h1 h2 : Fn),
    let t := (__init__ σ).1 in
    let σ1 := (dispatch_for t target q h1 (__init__ σ).2).2 in
    (dispatch_for t target q h1 (__init__ σ).2).1 = Ok h1
    ∧ registry_of σ1 t !! KPair target q = Some h1
    ∧ (dispatch_for t target q h2 σ1).1 = Ok h2
    ∧ registry_of (dispatch_for t target q h2 σ1).2 t !! KPair target q
      = Some h2.
Proof.
  intros Fn σ target q h1 h2 t σ1.
  assert (pairs_only (registry_of (__init__ σ).2 t)) as Hp0.
  { unfold t, __init__. simpl. rewrite registry_of_insert_eq.
    intros c. apply lookup_empty. }
  assert (pairs_only (registry_of σ1 t)) as Hp1.
  { by apply dispatch_for_keeps_pairs_only. }
  unfold σ1 in *. revert Hp1.
  rewrite (dispatch_for_pairs_only _ _ _ h1) by done. simpl.
  intros Hp1. rewrite (dispatch_for_pairs_only _ _ _ h2) by done. simpl.
  rewrite !registry_of_insert_eq, !lookup_insert_eq. done.
Qed.

(** C3.  For a live table [t1], [branch] returns a new table [t2], distinct
    from every live table, whose entries are those of [t1] at that time,
    and leaves every live table as it was.  After that, whatever
    registrations [ops] are made, on these or on other tables, the entries
    of [t1] are what the registrations made on [t1] alone give, and the
    same for [t2]: so each [dispatch] on one of them is what it would be
    had the other never been written.  In particular a registration on [t2]
    leaves every result of [t1.dispatch] unchanged, an exception included,
    and a registration on [t1] every result of [t2.dispatch]. *)
Theorem branch_isolated :
  ∀ (Fn : Type) (mro : cls → list cls) (σ : gmap loc (gmap dkey Fn))
    (t1 : loc),
    t1 ∈ dom σ →
    let t2 := (branch t1 σ).1 in
    let σ' := (branch t1 σ).2 in
    t2 ≠ t1
    ∧ (t2 ∉ dom σ)
    ∧ registry_of σ' t2 = registry_of σ t1
    ∧ (∀ t, t ∈ dom σ → registry_of σ' t = registry_of σ t)
    ∧ (∀ ops,
         registry_of (register_all ops σ') t1
           = registry_of (register_all (on_table t1 ops) σ') t1
         ∧ registry_of (register_all ops σ') t2
           = registry_of (register_all (on_table t2 ops) σ') t2)
    ∧ (∀ target q fn obj q',
         dispatch mro t1 obj q' (dispatch_for t2 target q fn σ').2
           = dispatch mro t1 obj q' σ
         ∧ dispatch mro t2 obj q' (dispatch_for t1 target q fn σ').2
           = dispatch mro t1 obj q' σ).
Proof.
  intros Fn mro σ t1 Hin t2 σ'.
  destruct (branch_spec σ t1 Hin) as (Hfresh & Hcopy & Hold).
  fold t2 in Hfresh, Hcopy. fold σ' in Hcopy, Hold.
  assert (t2 ≠ t1) as Hne by (intros Heq; by rewrite Heq in Hfresh).
  split_and!; try done.
  - intros ops. split; by apply register_all_on_table.
  - intros target q fn obj q'. unfold dispatch. split.
    + rewrite dispatch_for_frame by done. by rewrite Hold.
    + rewrite dispatch_for_frame by done. by rewrite Hcopy.
Qed.

(** C3, at a concrete store: the table of the example is branched. *)
Lemma branch_isolated_witness :
  let σ := example_table.2 in
  let t1 := example_table.1 in
  t1 ∈ dom σ
  ∧ (branch t1 σ).1 ≠ t1
  ∧ registry_of (branch t1 σ).2 (branch t1 σ).1 = registry_of σ t1.
Proof.
  intros σ t1.
  assert (t1 ∈ dom σ) as Hin by (by vm_compute).
  split; [exact Hin |].
  destruct (branch_isolated string example_mro σ t1 Hin)
    as (Hne & _ & Hcopy & _).
  by split.
Defined.

(** C8 (amended).  When no class of the ancestor chain answers, [dispatch]
    returns no handler: it raises.  For an object that is not a tuple the
    exception is a [ValueError] whose message is "no dispatch function for
    object: " followed by [str(obj)]; the message is built from the object
    alone, so it is the same whatever qualifier was asked for. *)
Theorem dispatch_unresolved :
  ∀ (Fn : Type) (mro : cls → list cls) (σ : gmap loc (gmap dkey Fn))
    (self : loc) (obj : pyobject) (q : string),
    Forall (λ c, ¬ matches (registry_of σ self) q c) (mro (ob_type obj)) →
    is_ok (dispatch mro self obj q σ) = false
    ∧ (ob_items obj = None →
       dispatch mro self obj q σ =
         Raise (ValueError
                  ("no dispatch function for object: " +:+ ob_str obj)))
    ∧ (∀ q',
         Forall (λ c, ¬ matches (registry_of σ self) q' c)
           (mro (ob_type obj)) →
         dispatch mro self obj q' σ = dispatch mro self obj q σ).
Proof.
  intros Fn mro σ self obj q Hno. unfold dispatch.
  rewrite dispatch_loop_no_match by done. split_and!.
  - simpl. by destruct (format_s _ _).
  - intros Hnt. simpl. unfold format_s. by rewrite Hnt.
  - intros q' Hno'. by rewrite dispatch_loop_no_match.
Qed.

(** C8, at a concrete input: an empty table asked about [widget]. *)
Lemma dispatch_unresolved_witness :
  Forall (λ c, ¬ matches (registry_of (∅ : gmap loc (gmap dkey string)) 1%positive)
                 "mysql" c)
    (example_mro (ob_type widget))
  ∧ dispatch example_mro 1%positive widget "mysql"
      (∅ : gmap loc (gmap dkey string))
    = Raise (ValueError "no dispatch function for object: a nice thing").
Proof.
  assert (Forall (λ c, ¬ matches
            (registry_of (∅ : gmap loc (gmap dkey string)) 1%positive)
            "mysql" c) (example_mro (ob_type widget))) as Hno.
  { apply Forall_forall. intros c _. unfold matches, registry_of.
    rewrite lookup_empty. simpl. rewrite dom_empty_L.
    intros [[_ Hin] | Hin]; by apply not_elem_of_empty in Hin. }
  split; [exact Hno |].
  by apply (dispatch_unresolved string example_mro ∅ 1%positive widget
              "mysql" Hno).
Defined.

(** C8 as stated fails: on an empty table, asking for qualifier 'mysql'
    about an object of class Widget whose [str()] is 'a nice thing' raises
    a [ValueError] whose message holds neither the qualifier nor the name of
    the class. *)
Lemma dispatch_unresolved_message_counterexample :
  ¬ (∃ msg,
       dispatch example_mro 1%positive widget "mysql"
         (∅ : gmap loc (gmap dkey string)) = Raise (ValueError msg)
       ∧ mentions msg (cls_name (ob_type widget)) = true
       ∧ mentions msg "mysql" = true).
Proof.
  intros (msg & Hd & _ & Hq).
  vm_compute in Hd. injection Hd as <-. vm_compute in Hq. discriminate.
Qed.

End DispatcherClaims.

(** ** Legacy keyword names: claims *)

Section TranslateClaims.
Import Translate.

(** C6 (amended).  Let [(old, new)] be a rule and [old] a keyword of the
    call, with value [v].  If [old] maps to no other name, no other rule
    whose old name is a keyword of the call maps to [new], and [new] is not
    itself a keyword that stays after the renaming (it is not supplied, or
    it is the old name of a rule), then the keywords [translate] returns
    bind [new] to [v]; they do not hold [old] unless a rule whose old name
    is supplied maps to [old].  A keyword that is the old name of no rule is
    returned with its value, and outside the names of the rules the
    keywords returned are those supplied.  The keywords of a successful
    [translate] are these. *)
Theorem translate_moves_legacy_keyword :
  ∀ (tr : list (string * string)) (kw : gmap string value)
    (old new : string) (v : value),
    (old, new) ∈ tr →
    kw !! old = Some v →
    (∀ new', (old, new') ∈ tr → new' = new) →
    (∀ old', (old', new) ∈ tr → old' ≠ old → kw !! old' = None) →
    (kw !! new = None ∨ new ∈ tr.*1) →
    translate_kw tr kw !! new = Some v
    ∧ ((∀ o, (o, old) ∈ tr → kw !! o = None) →
       translate_kw tr kw !! old = None)
    ∧ (∀ k x, k ∉ tr.*1 → kw !! k = Some x →
       translate_kw tr kw !! k = Some x)
    ∧ (∀ k, k ∉ tr.*1 → k ∉ tr.*2 → translate_kw tr kw !! k = kw !! k)
    ∧ (∀ spec args args' kw',
         translate spec tr args kw = Ok (args', kw') →
         kw' = translate_kw tr kw).
Proof.
  intros tr kw old new v Hin Hold Hsingle Hother Hnew.
  assert (old ∈ tr.*1) as Holds.
  { apply list_elem_of_fmap. by exists (old, new). }
  split_and!.
  - rewrite translate_kw_lookup.
    assert ((rename_loop tr ∅ kw).2 !! new = None) as ->.
    { destruct Hnew as [Hnew | Hnew].
      - by apply rename_loop_kw_None.
      - by apply rename_loop_kw_old. }
    by apply (rename_loop_rkw_moved _ _ _ old).
  - intros Hnot. rewrite translate_kw_lookup.
    rewrite rename_loop_kw_old by done.
    by rewrite rename_loop_rkw_untouched.
  - intros k x Hk Hx. by apply translate_kw_passthrough.
  - intros k Hk1 Hk2. rewrite translate_kw_lookup.
    rewrite rename_loop_kw_other by done.
    rewrite rename_loop_rkw_not_new by done.
    rewrite lookup_empty. by destruct (kw !! k).
  - intros spec args args' kw'. unfold translate.
    destruct (fill_loop _ _ _ _) as [[ra ar] |]; simpl; [| done].
    by intros [= _ <-].
Qed.

(** C6, at a concrete call: the rule old -> new and the keyword old=5. *)
Lemma translate_moves_legacy_keyword_witness :
  translate_kw [("old", "new")] {["old" := VInt 5]} !! "new"
    = Some (VInt 5)
  ∧ translate_kw [("old", "new")] {["old" := VInt 5]} !! "old" = None.
Proof.
  pose proof (translate_moves_legacy_keyword
    [("old", "new")] {["old" := VInt 5]} "old" "new" (VInt 5)) as H.
  destruct H as (Hnew & Hold & _).
  - apply list_elem_of_here.
  - by vm_compute.
  - intros new' [[= <-] | Hin]%elem_of_cons; [done |].
    by apply elem_of_nil in Hin.
  - intros old' [[= <-] | Hin]%elem_of_cons; [done |].
    by apply elem_of_nil in Hin.
  - left. by vm_compute.
  - split; [exact Hnew |]. apply Hold.
    intros o [[=] | Hin]%elem_of_cons.
    by apply elem_of_nil in Hin.
Defined.

(** C6 as stated fails: with the rule old -> new and the keywords old=5 and
    new=7, [old] is a keyword of the call and yet the keywords returned
    bind [new] to 7, not to the value 5 of [old]. *)
Lemma translate_moves_legacy_keyword_counterexample :
  let tr := [("old", "new")] in
  let kw : gmap string value := <["old" := VInt 5]> {["new" := VInt 7]} in
  ("old", "new") ∈ tr
  ∧ kw !! "old" = Some (VInt 5)
  ∧ translate_kw tr kw !! "new" = Some (VInt 7)
  ∧ translate_kw tr kw !! "new" ≠ Some (VInt 5).
Proof.
  split_and!.
  - apply list_elem_of_here.
  - by vm_compute.
  - by vm_compute.
  - by vm_compute.
Qed.

(** C7.  Let [need] be the parameters before the defaulted ones that are no
    keyword after the renaming, in order.  When they outnumber the
    positional arguments, [translate] raises a [TypeError] whose message is
    "missing required positional argument: " followed by the first of them
    left without a positional argument.  Otherwise [translate] succeeds and
    returns the positional arguments as they were given, those beyond
    [need] included, with the renamed keywords. *)
Theorem translate_missing_positional :
  ∀ (spec : argspec) (tr : list (string * string)) (args : list value)
    (kw : gmap string value),
    let return_kw := translate_kw tr kw in
    let need := filter (λ a, a ∉ dom return_kw) (pos_only spec) in
    (length args < length need →
     ∃ p, need !! length args = Some p
       ∧ p ∈ pos_only spec
       ∧ (p ∉ dom return_kw)
       ∧ translate spec tr args kw =
           Raise (TypeError
                    ("missing required positional argument: " +:+ p)))
    ∧ (length need ≤ length args →
       translate spec tr args kw = Ok (args, return_kw)).
Proof.
  intros spec tr args kw return_kw need. unfold translate.
  fold return_kw. rewrite fill_loop_spec. fold need. split.
  - intros Hlt. destruct (lookup_lt_is_Some_2 need (length args) Hlt)
      as [p Hp].
    exists p. rewrite Hp. split_and!; try done.
    + apply list_elem_of_lookup_2 in Hp.
      by apply list_elem_of_filter in Hp as [_ ?].
    + apply list_elem_of_lookup_2 in Hp.
      by apply list_elem_of_filter in Hp as [? _].
  - intros Hle. rewrite (lookup_ge_None_2 need) by done. simpl.
    by rewrite take_drop.
Qed.

(** C10 (amended).  Let [(old, new)] be a rule, and let the call supply both
    [old] and [new].  If [new] is not the old name of a rule, the keywords
    returned bind [new] to the value supplied under [new]; they do not hold
    [old] unless a rule whose old name is supplied maps to [old]; and when
    [old] maps to no other name, they are what they would be had [old] not
    been supplied.  Nothing is raised about the two keywords: the one
    exception of [translate] is the [TypeError] of a parameter left without
    a positional argument. *)
Theorem translate_both_supplied :
  ∀ (tr : list (string * string)) (kw : gmap string value)
    (old new : string) (v_old v_new : value),
    (old, new) ∈ tr →
    kw !! old = Some v_old →
    kw !! new = Some v_new →
    new ∉ tr.*1 →
    translate_kw tr kw !! new = Some v_new
    ∧ ((∀ o, (o, old) ∈ tr → kw !! o = None) →
       translate_kw tr kw !! old = None)
    ∧ ((∀ new', (old, new') ∈ tr → new' = new) →
       translate_kw tr kw = translate_kw tr (delete old kw))
    ∧ (∀ spec args e,
         translate spec tr args kw = Raise e →
         ∃ p, p ∈ pos_only spec
           ∧ e = TypeError ("missing required positional argument: " +:+ p)).
Proof.
  intros tr kw old new v_old v_new Hin Hold Hnew Hnotold.
  assert (old ∈ tr.*1) as Holds.
  { apply list_elem_of_fmap. by exists (old, new). }
  assert (new ≠ old) as Hne by (by intros ->).
  split_and!.
  - by apply translate_kw_passthrough.
  - intros Hnot. rewrite translate_kw_lookup.
    rewrite rename_loop_kw_old by done.
    by rewrite rename_loop_rkw_untouched.
  - intros Hsingle. apply map_eq. intros k.
    rewrite !translate_kw_lookup.
    destruct (decide (k ∈ tr.*1)) as [Hk | Hk].
    + rewrite !rename_loop_kw_old by done.
      apply (rename_loop_delete _ _ _ _ _ old new); try done.
      * intros k' Hk'. by rewrite lookup_delete_ne.
      * apply lookup_delete_eq.
      * by intros ->.
    + rewrite !rename_loop_kw_other by done.
      assert (k ≠ old) as Hkold by (by intros ->).
      rewrite lookup_delete_ne by done.
      destruct (kw !! k) as [x |] eqn:Hk'; [done |].
      apply (rename_loop_delete _ _ _ _ _ old new); try done.
      * intros k' Hk''. by rewrite lookup_delete_ne.
      * apply lookup_delete_eq.
      * intros ->. by rewrite Hnew in Hk'.
  - intros spec args e. unfold translate. rewrite fill_loop_spec.
    destruct (filter _ _ !! length args) as [p |] eqn:Hp; simpl; [| done].
    intros [= <-]. exists p. split; [| done].
    apply list_elem_of_lookup_2 in Hp.
    by apply list_elem_of_filter in Hp as [_ ?].
Qed.

(** C10, at a concrete call: the rule old -> new, the keywords old=5 and
    new=7. *)
Lemma translate_both_supplied_witness :
  translate_kw [("old", "new")] (<["old" := VInt 5]> {["new" := VInt 7]})
    !! "new" = Some (VInt 7)
  ∧ translate_kw [("old", "new")] (<["old" := VInt 5]> {["new" := VInt 7]})
    = translate_kw [("old", "new")] {["new" := VInt 7]}.
Proof.
  pose proof (translate_both_supplied [("old", "new")]
    (<["old" := VInt 5]> {["new" := VInt 7]}) "old" "new"
    (VInt 5) (VInt 7)) as H.
  destruct H as (Hnew & _ & Hdel & _).
  - apply list_elem_of_here.
  - by vm_compute.
  - by vm_compute.
  - intros [Heq | Hin]%elem_of_cons; [done |].
    by apply elem_of_nil in Hin.
  - split; [exact Hnew |]. rewrite Hdel; [by vm_compute |].
    intros new' [[= <-] | Hin]%elem_of_cons; [done |].
    by apply elem_of_nil in Hin.
Defined.

(** C10 as stated fails: with the rules a -> b and b -> c and the keywords
    a=1 and b=2, the call supplies both names of the rule a -> b, and the
    keywords returned bind [b] to 1, the value supplied under [a], not to
    the value 2 supplied under [b]. *)
Lemma translate_both_supplied_counterexample :
  let tr := [("a", "b"); ("b", "c")] in
  let kw : gmap string value := <["a" := VInt 1]> {["b" := VInt 2]} in
  ("a", "b") ∈ tr
  ∧ kw !! "a" = Some (VInt 1)
  ∧ kw !! "b" = Some (VInt 2)
  ∧ translate_kw tr kw !! "b" = Some (VInt 1)
  ∧ translate_kw tr kw !! "b" ≠ Some (VInt 2).
Proof.
  split_and!.
  - apply list_elem_of_here.
  - by vm_compute.
  - by vm_compute.
  - by vm_compute.
  - by vm_compute.
Qed.

End TranslateClaims.

(** ** The module proxy: claims *)

Section ProxyClaims.
Import ModuleClsProxy ProxyExamples.

(** Closed decidable facts, by evaluation. *)
Local Ltac by_compute := apply (bool_decide_unpack _); vm_compute; exact I.

(** C4 (amended).  Let an instance be installed for its class, the modules
    of the class having pairwise distinct [globals_] dictionaries.  Then
    [_remove_proxy] raises nothing and, in every such [globals_], leaves
    [_proxy] bound to [None] and no name of [attr_names] bound; every other
    binding, the generated functions among them, and every other dictionary
    stay as they were.  Calling afterwards a generated function whose
    globals are one of these dictionaries, and which has no parameter
    called [_proxy], fails: once its arguments are accepted it raises the
    [AttributeError] of looking its name up on [None], and it never raises
    the [NameError] of [_name_error].  That [NameError], which names the
    function and the class, is what a call of a function without a
    parameter called [_proxy] or [_name_error] raises while [_proxy] has
    never been bound.  (A parameter of one of these names is a local
    variable of the generated function and stands in for the global.) *)
Theorem remove_proxy_clears :
  ∀ (w : world) (self : instance),
    attached w self →
    NoDup (modules w (inst_cls self)).*1 →
    (_remove_proxy self w).1 = Ok ()
    ∧ setups (_remove_proxy self w).2 = setups w
    ∧ (∀ g, g ∈ (modules w (inst_cls self)).*1 →
         dict_of (_remove_proxy self w).2 g !! "_proxy" = Some (EVal VNone)
         ∧ (∀ a, a ∈ attr_names w (inst_cls self) →
              dict_of (_remove_proxy self w).2 g !! a = None)
         ∧ (∀ k, k ∉ attr_names w (inst_cls self) → k ≠ "_proxy" →
              dict_of (_remove_proxy self w).2 g !! k = dict_of w g !! k))
    ∧ (∀ d k, d ∉ (modules w (inst_cls self)).*1 →
         dict_of (_remove_proxy self w).2 d !! k = dict_of w d !! k)
    ∧ (∀ (f : proxy_function) pos kw,
         pf_globals f ∈ (modules w (inst_cls self)).*1 →
         "_proxy" ∉ parameters (pf_outer f) →
         call_proxy_function (_remove_proxy self w).2 f pos kw =
           raises_after_arguments (_remove_proxy self w).2 f pos kw
             (AttributeError
                ("'NoneType' object has no attribute '" +:+ pf_name f
                 +:+ "'"))
         ∧ is_ok (call_proxy_function (_remove_proxy self w).2 f pos kw)
           = false
         ∧ (∀ c, call_proxy_function (_remove_proxy self w).2 f pos kw
                 ≠ Raise (NameError (name_error_message (pf_name f) c))))
    ∧ (∀ w0 (f : proxy_function) pos kw c,
         "_proxy" ∉ parameters (pf_outer f) →
         "_name_error" ∉ parameters (pf_outer f) →
         dict_of w0 (pf_globals f) !! "_proxy" = None →
         dict_of w0 (pf_globals f) !! "_name_error" = Some (ENameError c) →
         call_proxy_function w0 f pos kw =
           raises_after_arguments w0 f pos kw
             (NameError (name_error_message (pf_name f) c))).
Proof.
  intros w self Hatt Hnd.
  destruct (remove_proxy_spec w self Hnd) as (Hok & Hs & _ & Hd).
  { intros g a Hg Ha. apply elem_of_dom.
    destruct (Hatt g Hg) as [_ Hattr]. by rewrite (Hattr a Ha). }
  assert (∀ g, g ∈ (modules w (inst_cls self)).*1 →
            "_proxy" ∉ attr_names w (inst_cls self)) as Hproxy.
  { intros g Hg. apply attached_proxy_not_attr; [done |].
    intros Hnil. rewrite Hnil in Hg. by apply elem_of_nil in Hg. }
  assert (∀ g, g ∈ (modules w (inst_cls self)).*1 →
            dict_of (_remove_proxy self w).2 g !! "_proxy"
              = Some (EVal VNone)) as Hnone.
  { intros g Hg. rewrite Hd. rewrite decide_True by done.
    rewrite decide_False by eauto. by rewrite decide_True. }
  split_and!; try done.
  - intros g Hg. split_and!.
    + by apply Hnone.
    + intros a Ha. rewrite Hd. rewrite decide_True by done.
      by rewrite decide_True.
    + intros k Hk Hk'. rewrite Hd. rewrite decide_True by done.
      by rewrite !decide_False.
  - intros d k Hd'. rewrite Hd. by rewrite decide_False.
  - intros f pos kw Hf Hl.
    rewrite (call_proxy_function_None _ f pos kw Hl (Hnone _ Hf)).
    split_and!; try done.
    + unfold raises_after_arguments. by destruct (_ ≫= _).
    + intros c. by apply raises_after_arguments_not_name_error.
  - intros w0 f pos kw c. apply call_proxy_function_unbound.
Qed.

(** C4, at a concrete state: [ops] installed in the module at 1, removed,
    and the function generated for [go] then called; and the same function
    called before any instance was installed. *)
Lemma remove_proxy_clears_witness :
  attached w_installed ops
  ∧ NoDup (modules w_installed (inst_cls ops)).*1
  ∧ (_remove_proxy ops w_installed).1 = Ok ()
  ∧ dict_of w_removed 1 !! "version" = None
  ∧ call_proxy_function w_removed (func_text "go" 1 go_spec [] None)
      [VInt 3] ∅
    = Raise (AttributeError "'NoneType' object has no attribute 'go'")
  ∧ call_proxy_function w_registered (func_text "go" 1 go_spec [] None)
      [VInt 3] ∅
    = Raise (NameError (name_error_message "go" Operations)).
Proof.
  assert (attached w_installed ops) as Hatt.
  { apply install_proxy_attached. by_compute. }
  assert (NoDup (modules w_installed (inst_cls ops)).*1) as Hnd.
  { by_compute. }
  destruct (remove_proxy_clears w_installed ops Hatt Hnd)
    as (Hok & _ & Hg & _ & Hcall & Hunbound).
  split_and!; [exact Hatt | exact Hnd | exact Hok | | |].
  - destruct (Hg 1%positive) as (_ & Ha & _); [by_compute |].
    apply Ha. by_compute.
  - destruct (Hcall (func_text "go" 1 go_spec [] None) [VInt 3] ∅)
      as (Hc & _); [by_compute | by_compute |].
    unfold w_removed. rewrite Hc. vm_compute. reflexivity.
  - rewrite (Hunbound w_registered (func_text "go" 1 go_spec [] None)
               [VInt 3] ∅ Operations);
      [vm_compute; reflexivity | by_compute | by_compute
       | vm_compute; reflexivity | vm_compute; reflexivity].
Defined.

(** C4 as stated fails: after [ops] was installed in the module at 1 and
    removed, the function generated for [go] is still bound, [_proxy] is
    still bound (to [None]), and calling the function raises an
    [AttributeError] about [None], not the [NameError] that names the class
    and the function. *)
Lemma remove_proxy_counterexample :
  (_remove_proxy ops w_installed).1 = Ok ()
  ∧ dict_of w_removed 1 !! "go"
    = Some (EFunction (func_text "go" 1 go_spec [] None))
  ∧ dict_of w_removed 1 !! "_proxy" = Some (EVal VNone)
  ∧ call_proxy_function w_removed (func_text "go" 1 go_spec [] None)
      [VInt 3] ∅
    = Raise (AttributeError "'NoneType' object has no attribute 'go'")
  ∧ ¬ (∃ msg,
         call_proxy_function w_removed (func_text "go" 1 go_spec [] None)
           [VInt 3] ∅ = Raise (NameError msg)).
Proof.
  split_and!; try by vm_compute.
  intros [msg Hmsg]. vm_compute in Hmsg. discriminate.
Qed.

(** C5 (amended).  Assigning a public attribute [key] of a class raises
    nothing and needs no further [create_module_class_proxy].  When the
    value is a function, every module [(globals_, locals_)] registered for
    the class has in its [locals_] the function generated for [key],
    forwarding through the [globals_] of a registered module with that
    [locals_]: its own when the modules have pairwise distinct [locals_].
    When the value is not callable, the assignment changes no dictionary;
    if the class has a module, [key] joins [attr_names], the names bound in
    every registered [globals_] by [_install_proxy]: the next instance
    installed has its attribute [key] bound there. *)
Theorem setattr_propagates :
  ∀ (w : world) (c : cls) (key : string) (m : member),
    String.prefix "_" key = false →
    (__setattr__ c key m w).1 = Ok ()
    ∧ members_of (__setattr__ c key m w).2 c !! key = Some m
    ∧ modules (__setattr__ c key m w).2 c = modules w c
    ∧ match m with
      | MFunction kind spec tr doc =>
          ∀ g l, (g, l) ∈ modules w c →
            ∃ g', (g', l) ∈ modules w c
              ∧ dict_of (__setattr__ c key m w).2 l !! key
                = Some (EFunction (func_text key g' spec tr doc))
              ∧ (NoDup (modules w c).*2 → g' = g)
      | MAttribute =>
          (∀ d, dict_of (__setattr__ c key m w).2 d = dict_of w d)
          ∧ (modules w c ≠ [] →
             key ∈ attr_names (__setattr__ c key m w).2 c
             ∧ ∀ self g, inst_cls self = c → g ∈ (modules w c).*1 →
                 dict_of (_install_proxy self (__setattr__ c key m w).2).2 g
                   !! key = Some (EGetattr self key))
      end.
Proof.
  intros w c key m Hk. unfold __setattr__.
  set (w1 := set_member c key m w).
  assert (members_of w1 c !! key = Some m) as Hm.
  { unfold w1. rewrite members_of_set_member. by rewrite decide_True. }
  assert (modules w1 c = modules w c) as Hmod by done.
  destruct m as [kind spec tr doc |].
  - destruct (update_function w1 c key kind spec tr doc Hk Hm)
      as (Hok & [Hmem Hmod'] & Hf).
    split_and!; [done | | congruence |].
    + by rewrite (members_of_eq _ _ _ Hmem).
    + intros g l Hin. rewrite <- Hmod in Hin.
      destruct (Hf g l Hin) as (g' & Hg' & Hd).
      exists g'. rewrite <- Hmod. split_and!; [done | done |].
      intros Hnd. by apply (NoDup_snd_inj (modules w1 c) g' g l).
  - destruct (update_attribute w1 c key Hk Hm) as (Hok & [Hmem Hmod'] & Ha).
    split; [done |]. split; [| split; [congruence | split]].
    + by rewrite (members_of_eq _ _ _ Hmem).
    + intros d. unfold dict_of.
      by rewrite (update_attribute_dicts w1 c key Hk Hm).
    + intros Hne. rewrite <- Hmod in Hne. specialize (Ha Hne).
      split; [done |]. intros self g <- Hg.
      destruct (install_proxy_spec (_update_module_proxies (inst_cls self)
                  key w1).2 self) as (_ & _ & _ & Hd).
      rewrite Hd. rewrite Hmod', Hmod. rewrite decide_True by done.
      by rewrite decide_True.
Qed.

(** C5, at a concrete state: a method [foo] is assigned on the class of the
    example, registered in the modules (1, 2) and (3, 4). *)
Lemma setattr_propagates_witness :
  let w' :=
    (__setattr__ Operations "foo" (MFunction InstanceMethod foo_spec [] None)
       w_two_scopes).2 in
  String.prefix "_" "foo" = false
  ∧ modules w_two_scopes Operations = [(1, 2); (3, 4)]%positive
  ∧ dict_of w' 2 !! "foo"
    = Some (EFunction (func_text "foo" 1 foo_spec [] None))
  ∧ dict_of w' 4 !! "foo"
    = Some (EFunction (func_text "foo" 3 foo_spec [] None)).
Proof.
  intros w'.
  assert (String.prefix "_" "foo" = false) as Hk by reflexivity.
  assert (modules w_two_scopes Operations = [(1, 2); (3, 4)]%positive)
    as Hms by (vm_compute; reflexivity).
  assert (NoDup (modules w_two_scopes Operations).*2) as Hnd.
  { apply (bool_decide_unpack _). vm_compute. exact I. }
  destruct (setattr_propagates w_two_scopes Operations "foo"
              (MFunction InstanceMethod foo_spec [] None) Hk)
    as (_ & _ & _ & Hf).
  split_and!; [exact Hk | exact Hms | |].
  - destruct (Hf 1%positive 2%positive) as (g' & _ & Hd & Hg').
    + rewrite Hms. apply list_elem_of_here.
    + rewrite (Hg' Hnd) in Hd. exact Hd.
  - destruct (Hf 3%positive 4%positive) as (g' & _ & Hd & Hg').
    + rewrite Hms. apply list_elem_of_further, list_elem_of_here.
    + rewrite (Hg' Hnd) in Hd. exact Hd.
Defined.

(** C5 as stated fails for a member that is not callable: with the class
    registered in two modules and [ops] installed, assigning the attribute
    [flag] binds it in no dictionary, while the attribute [version], there
    from the start, is bound. *)
Lemma setattr_propagates_counterexample :
  let w := (_install_proxy ops w_two_scopes).2 in
  let w' := (__setattr__ Operations "flag" MAttribute w).2 in
  (__setattr__ Operations "flag" MAttribute w).1 = Ok ()
  ∧ modules w' Operations = [(1, 2); (3, 4)]%positive
  ∧ members_of w' Operations !! "flag" = Some MAttribute
  ∧ dict_of w' 1 !! "version" = Some (EGetattr ops "version")
  ∧ dict_of w' 1 !! "flag" = None
  ∧ dict_of w' 2 !! "flag" = None
  ∧ dict_of w' 3 !! "flag" = None
  ∧ dict_of w' 4 !! "flag" = None.
Proof.
  split_and!; by vm_compute.
Qed.

(** C9 (amended).  Let a class have a public function [name], its
    [attr_names] holding public names other than [name]; register the class
    in a module [(globals_, locals_)] and install an instance.  Neither step
    raises, and [locals_] then binds [name] to the function generated for
    it.  When the function has no translations, the generated function has
    the parameters of the method, defaults and variadic parameters
    included, less a first parameter named [self]; and if the parameter
    names are distinct, none of them is [p] or [_proxy] (the two names the
    generated text uses for itself), and the first one is [self]
    exactly when the method takes a receiver, then calling the generated
    function gives what calling the method on the instance with the same
    arguments gives, the same invocation or the same exception, for every
    call that passes no more positional arguments than the method has named
    parameters, and for every call when the method lacks defaults or
    lacks a variadic positional parameter.  When the function has
    translations, the generated function takes any positional and keyword
    arguments, and calls the method on the instance with the arguments
    [translate] returns, raising what [translate] raises. *)
Theorem proxy_forwards_call :
  ∀ (w : world) (c : cls) (g l : loc) (self : instance) (name : string)
    (kind : method_kind) (spec : argspec) (tr : list (string * string))
    (doc : option string),
    inst_cls self = c →
    members_of w c !! name = Some (MFunction kind spec tr doc) →
    String.prefix "_" name = false →
    (∀ a, a ∈ attr_names w c → String.prefix "_" a = false ∧ a ≠ name) →
    let w1 := (create_module_class_proxy c g l w).2 in
    let w2 := (_install_proxy self w1).2 in
    let f := func_text name g spec tr doc in
    (create_module_class_proxy c g l w).1 = Ok ()
    ∧ (_install_proxy self w1).1 = Ok ()
    ∧ dict_of w2 l !! name = Some (EFunction f)
    ∧ match tr with
      | [] =>
          pf_outer f = signature (pop_self spec)
          ∧ (NoDup (param_names spec) →
             "p" ∉ param_names spec →
             "_proxy" ∉ param_names spec →
             (kind ≠ StaticMethod ↔ head (spec_args spec) = Some "self") →
             ∀ pos kw,
               (spec_defaults spec = [] ∨ spec_varargs spec = None
                ∨ length pos ≤ length (spec_args (pop_self spec))) →
               call_proxy_function w2 f pos kw
                 = call_method w2 self name pos kw)
      | _ :: _ =>
          pf_outer f = star_args_kw
          ∧ ∀ pos kw,
              call_proxy_function w2 f pos kw =
                '(args', kw') ← Translate.translate (pop_self spec) tr pos kw;
                call_method w2 self name args' kw'
      end.
Proof.
  intros w c g l self name kind spec tr doc Hc Hm Hname Hattr w1 w2 f.
  destruct (register_spec w c g l) as (Hok1 & Hmem1 & Hmod1 & Hattr1 & Hf1).
  fold w1 in Hmem1, Hmod1, Hattr1, Hf1.
  destruct (Hf1 name kind spec tr doc Hname Hm) as [Hf Htr]. fold f in Hf.
  assert (∀ a, a ∈ attr_names w1 c → String.prefix "_" a = false ∧ a ≠ name)
    as Hattr'.
  { intros a Ha. destruct (Hattr1 a Ha) as [Hin | [Hpub Hma]]; [by apply Hattr |].
    split; [done |]. intros ->. congruence. }
  destruct (install_proxy_spec w1 self) as (Hok2 & Hs2 & Hmem2 & Hd2).
  fold w2 in Hs2, Hmem2, Hd2. rewrite Hc in Hd2.
  assert (∀ d k, k ∉ attr_names w1 c → k ≠ "_proxy" →
            dict_of w2 d !! k = dict_of w1 d !! k) as Hkeep.
  { intros d k Hk Hk'. rewrite Hd2. case_decide; [| done].
    by rewrite !decide_False. }
  assert ("_proxy" ∉ attr_names w1 c) as Hnp.
  { intros Hin. by destruct (Hattr' _ Hin). }
  assert (dict_of w2 g !! "_proxy" = Some (EVal (VInst self))) as Hproxy.
  { rewrite Hd2. rewrite decide_True.
    - rewrite decide_False by done. by rewrite decide_True.
    - rewrite Hmod1, fmap_app. apply elem_of_app. right.
      apply list_elem_of_here. }
  assert (members_of w2 (inst_cls self) !! name
          = Some (MFunction kind spec tr doc)) as Hm2.
  { rewrite Hc. rewrite (members_of_eq w1 w2) by done.
    by rewrite (members_of_eq w w1). }
  split_and!; [done | done | |].
  - rewrite Hkeep; [done | | by intros ->].
    intros Hin. by destruct (Hattr' _ Hin).
  - destruct tr as [| t tr].
    + split; [by destruct (func_text_plain name g spec doc) as (_ & ? & _) |].
      intros Hnd Hp Hpx Hkind pos kw Hcond.
      by apply (call_plain w2 g name kind spec doc self pos kw).
    + split; [done |]. intros pos kw.
      apply (call_translated w2 g name kind spec (t :: tr) doc self pos kw);
        [done | done | | done].
      rewrite Hkeep; [by apply Htr | | done].
      intros Hin. by destruct (Hattr' _ Hin).
Qed.

(** C9, at a concrete state: the class of the example registered in the
    module at 1, [ops] installed, and [go] called through its generated
    function and on [ops]. *)
Lemma proxy_forwards_call_witness :
  inst_cls ops = Operations
  ∧ members_of w_class Operations !! "go"
    = Some (MFunction InstanceMethod go_spec [] None)
  ∧ dict_of w_installed 1 !! "go"
    = Some (EFunction (func_text "go" 1 go_spec [] None))
  ∧ pf_outer (func_text "go" 1 go_spec [] None)
    = Formatted [("a", None); ("b", Some (VInt 1))] None None
  ∧ call_proxy_function w_installed (func_text "go" 1 go_spec [] None)
      [VInt 3] {["b" := VInt 4]}
    = call_method w_installed ops "go" [VInt 3] {["b" := VInt 4]}
  ∧ is_ok (call_method w_installed ops "go" [VInt 3] {["b" := VInt 4]}) = true.
Proof.
  assert (inst_cls ops = Operations) as Hc by reflexivity.
  assert (members_of w_class Operations !! "go"
          = Some (MFunction InstanceMethod go_spec [] None)) as Hm
    by (vm_compute; reflexivity).
  assert (String.prefix "_" "go" = false) as Hname by reflexivity.
  assert (∀ a, a ∈ attr_names w_class Operations →
            String.prefix "_" a = false ∧ a ≠ "go") as Hattr.
  { intros a Ha. exfalso. revert Ha.
    change (attr_names w_class Operations) with (∅ : gset string).
    apply not_elem_of_empty. }
  destruct (proxy_forwards_call w_class Operations 1%positive 1%positive ops
              "go" InstanceMethod go_spec [] None Hc Hm Hname Hattr)
    as (_ & _ & Hf & Hsig & Hcall).
  split_and!; [exact Hc | exact Hm | exact Hf | | |].
  - rewrite Hsig. vm_compute. reflexivity.
  - apply Hcall.
    + by_compute.
    + by_compute.
    + by_compute.
    + split; [reflexivity | discriminate].
    + right. left. reflexivity.
  - vm_compute. reflexivity.
Defined.

(** C9 as stated fails.  For a method with translations: the function
    generated for [drop(self, new, x=None)] takes [( *args, **kw)], not the
    parameters of the method, and called with the keyword [old] it calls
    the method, which called directly refuses that keyword.  For a method
    with a default and a variadic parameter: the function generated for
    [many(self, a, b=1, *rest, **opts)] forwards with [b=b] ahead of
    [*rest], so that [many(3, 4, 5)], which the method accepts, is
    refused. *)
Lemma proxy_forwards_call_counterexample :
  members_of w_installed Operations !! "drop"
    = Some (MFunction InstanceMethod drop_spec [("old", "new")] None)
  ∧ dict_of w_installed 1 !! "drop"
    = Some (EFunction (func_text "drop" 1 drop_spec [("old", "new")] None))
  ∧ pf_outer (func_text "drop" 1 drop_spec [("old", "new")] None)
    ≠ signature (pop_self drop_spec)
  ∧ is_ok (call_proxy_function w_installed
             (func_text "drop" 1 drop_spec [("old", "new")] None)
             [] {["old" := VInt 5]}) = true
  ∧ call_method w_installed ops "drop" [] {["old" := VInt 5]}
    = Raise CallError
  ∧ dict_of w_installed 1 !! "many"
    = Some (EFunction (func_text "many" 1 many_spec [] None))
  ∧ is_ok (call_method w_installed ops "many" [VInt 3; VInt 4; VInt 5] ∅)
    = true
  ∧ call_proxy_function w_installed (func_text "many" 1 many_spec [] None)
      [VInt 3; VInt 4; VInt 5] ∅
    = Raise CallError.
Proof.
  split_and!; try by vm_compute.
Qed.

End ProxyClaims.

(** * Further properties *)

(** ** The dispatcher: further properties *)

Section DispatcherMore.
Import Dispatcher DispatchExamples.
Context {Fn : Type}.
Implicit Types (σ : gmap loc (gmap dkey Fn)) (reg : gmap dkey Fn).
Implicit Types (t self : loc) (q : string) (c : cls) (fn : Fn).

(** The walk reads, at each class, the entry of the qualifier and the
    entry of 'default', and nothing else. *)
Lemma dispatch_loop_ext reg reg' obj q (l : list cls) :
  (∀ c, c ∈ l → reg !! KPair c q = reg' !! KPair c q
                ∧ reg !! KPair c "default" = reg' !! KPair c "default") →
  dispatch_loop reg obj q l = dispatch_loop reg' obj q l.
Proof.
  induction l as [| c l IH]; intros Heq; [done |].
  destruct (Heq c) as [Hq Hd]; [apply list_elem_of_here |].
  assert (∀ k, reg !! k = reg' !! k → (k ∈ dom reg ↔ k ∈ dom reg')) as Hdom.
  { intros k Hk. by rewrite !elem_of_dom, Hk. }
  simpl. unfold getitem. rewrite Hq, Hd.
  rewrite IH by (intros c' Hc'; apply Heq; by apply list_elem_of_further).
  destruct (decide (q ≠ "default" ∧ KPair c q ∈ dom reg)) as [H1 | H1].
  - rewrite decide_True; [done |]. by rewrite <- (Hdom _ Hq).
  - rewrite (decide_False (P := q ≠ "default" ∧ KPair c q ∈ dom reg'))
      by (by rewrite <- (Hdom _ Hq)).
    destruct (decide (KPair c "default" ∈ dom reg)) as [H2 | H2].
    + rewrite decide_True; [done |]. by rewrite <- (Hdom _ Hd).
    + rewrite decide_False; [done |]. by rewrite <- (Hdom _ Hd).
Qed.

(** A request for 'default' is answered like a request for a qualifier no
    class of the chain has. *)
Lemma dispatch_loop_unknown_qualifier reg obj q (l : list cls) :
  (∀ c, c ∈ l → reg !! KPair c q = None) →
  dispatch_loop reg obj q l = dispatch_loop reg obj "default" l.
Proof.
  induction l as [| c l IH]; intros Hno; [done |].
  rewrite !dispatch_loop_cons.
  rewrite IH by (intros c' Hc'; apply Hno; by apply list_elem_of_further).
  assert (KPair c q ∉ dom reg) as Hq.
  { apply not_elem_of_dom. apply Hno, list_elem_of_here. }
  assert (handler_at reg q c = handler_at reg "default" c) as ->.
  { unfold handler_at. rewrite !decide_False; [done | |]; by intros [? ?]. }
  destruct (decide (matches reg "default" c)) as [Hm | Hm].
  - rewrite decide_True; [done |]. destruct Hm as [[? _] | Hm]; [done |].
    by right.
  - rewrite decide_False; [done |]. intros [[_ ?] | Hd]; [done |].
    apply Hm. by right.
Qed.

End DispatcherMore.

Section DispatcherExtras.
Import Dispatcher DispatchExamples.

(** X1.  Registration and resolution round trip: when [dispatch_for]
    returns, a request for the same qualifier about an object whose
    ancestor chain reaches [target] past classes that do not answer
    returns the handler just registered. *)
Theorem dispatch_for_then_dispatch :
  ∀ (Fn : Type) (mro : cls → list cls) (σ : gmap loc (gmap dkey Fn))
    (self : loc) (target : cls) (q : string) (fn : Fn) (obj : pyobject)
    (pre post : list cls),
    (dispatch_for self target q fn σ).1 = Ok fn →
    mro (ob_type obj) = pre ++ target :: post →
    target ∉ pre →
    Forall (λ c, ¬ matches (registry_of σ self) q c) pre →
    dispatch mro self obj q (dispatch_for self target q fn σ).2 = Ok fn.
Proof.
  intros Fn mro σ self target q fn obj pre post Hok Hmro Hpre Hno.
  unfold dispatch_for in *. case_decide as Hguard; [done |]. simpl.
  unfold dispatch. rewrite registry_of_insert_eq, Hmro.
  set (reg := registry_of σ self).
  assert (∀ k, k ≠ KPair target q →
            (k ∈ dom (<[KPair target q := fn]> reg) ↔ k ∈ dom reg)) as Hdom.
  { intros k Hk. by rewrite !elem_of_dom, lookup_insert_ne. }
  assert (KPair target q ∈ dom (<[KPair target q := fn]> reg)) as Hin.
  { apply elem_of_dom. rewrite lookup_insert_eq. by eexists. }
  apply dispatch_loop_Ok. exists pre, target, post. split_and!.
  - done.
  - apply Forall_forall. intros c Hc.
    assert (c ≠ target) as Hne by (by intros ->).
    rewrite Forall_forall in Hno. specialize (Hno c Hc).
    unfold matches in *.
    rewrite !Hdom by congruence. done.
  - unfold matches.
    destruct (decide (q = "default")) as [-> | Hq]; [by right | by left].
  - unfold handler_at.
    destruct (decide (q = "default")) as [-> | Hq].
    + rewrite decide_False by (by intros [? _]). apply lookup_insert_eq.
    + rewrite decide_True by done. apply lookup_insert_eq.
Qed.

(** X1, at a concrete table: a handler registered for [Base] under 'x'
    answers a [Derived] object. *)
Lemma dispatch_for_then_dispatch_witness :
  (dispatch_for 1%positive Base "x" "H" (∅ : gmap loc (gmap dkey string))).1
    = Ok "H"
  ∧ example_mro (ob_type derivedInstance) = [Derived] ++ Base :: [object_]
  ∧ dispatch example_mro 1%positive derivedInstance "x"
      (dispatch_for 1%positive Base "x" "H" ∅).2 = Ok "H".
Proof.
  assert ((dispatch_for 1%positive Base "x" "H"
             (∅ : gmap loc (gmap dkey string))).1 = Ok "H") as Hok
    by (vm_compute; reflexivity).
  assert (example_mro (ob_type derivedInstance)
          = [Derived] ++ Base :: [object_]) as Hmro
    by (vm_compute; reflexivity).
  split_and!; [exact Hok | exact Hmro |].
  apply (dispatch_for_then_dispatch string example_mro ∅ 1%positive Base "x"
           "H" derivedInstance [Derived] [object_] Hok Hmro).
  - intros [Heq | Hin]%elem_of_cons; [discriminate |].
    by apply elem_of_nil in Hin.
  - apply Forall_cons_2; [| apply Forall_nil_2].
    unfold matches, registry_of. rewrite lookup_empty. simpl.
    rewrite dom_empty_L.
    intros [[_ Hin] | Hin]; by apply not_elem_of_empty in Hin.
Defined.

(** X2.  A registration answers only the requests it is made for: it
    leaves [dispatch] as it was on every other table, for every object
    whose ancestor chain does not hold [target], and, when its qualifier is
    not 'default', for every request with another qualifier. *)
Theorem dispatch_for_other_request :
  ∀ (Fn : Type) (mro : cls → list cls) (σ : gmap loc (gmap dkey Fn))
    (t self : loc) (target : cls) (q q' : string) (fn : Fn) (obj : pyobject),
    t ≠ self ∨ target ∉ mro (ob_type obj) ∨ (q ≠ "default" ∧ q ≠ q') →
    dispatch mro self obj q' (dispatch_for t target q fn σ).2
      = dispatch mro self obj q' σ.
Proof.
  intros Fn mro σ t self target q q' fn obj Hcase. unfold dispatch.
  destruct (decide (t = self)) as [-> | Hne];
    [| by rewrite dispatch_for_frame].
  unfold dispatch_for. case_decide; [done |]. simpl.
  rewrite registry_of_insert_eq. apply dispatch_loop_ext.
  intros c Hc.
  destruct Hcase as [? | [Hnot | [Hq Hqq]]]; [done | |].
  - assert (c ≠ target) as Hct by (by intros ->).
    rewrite !lookup_insert_ne by congruence. done.
  - rewrite !lookup_insert_ne by congruence. done.
Qed.

(** X2, at a concrete table: registering for [Base] under 'x' does not
    change what 'y' resolves to. *)
Lemma dispatch_for_other_request_witness :
  dispatch example_mro example_table.1 derivedInstance "y"
    (dispatch_for example_table.1 Base "x" "H3" example_table.2).2
  = Ok "H1".
Proof.
  rewrite (dispatch_for_other_request string example_mro example_table.2
             example_table.1 example_table.1 Base "x" "y" "H3"
             derivedInstance).
  - vm_compute. reflexivity.
  - right. right. split; discriminate.
Defined.

(** X3.  A qualifier that no class of the ancestor chain is registered
    under is resolved as 'default' is: to the same handler or the same
    exception. *)
Theorem dispatch_unknown_qualifier :
  ∀ (Fn : Type) (mro : cls → list cls) (σ : gmap loc (gmap dkey Fn))
    (self : loc) (obj : pyobject) (q : string),
    (∀ c, c ∈ mro (ob_type obj) → registry_of σ self !! KPair c q = None) →
    dispatch mro self obj q σ = dispatch mro self obj "default" σ.
Proof.
  intros Fn mro σ self obj q Hno. unfold dispatch.
  by apply dispatch_loop_unknown_qualifier.
Qed.

(** X3, at a concrete table: 'postgresql' names no entry of the example. *)
Lemma dispatch_unknown_qualifier_witness :
  dispatch example_mro example_table.1 derivedInstance "postgresql"
    example_table.2 = Ok "H1".
Proof.
  rewrite (dispatch_unknown_qualifier string example_mro example_table.2
             example_table.1 derivedInstance "postgresql").
  - vm_compute. reflexivity.
  - intros c Hc.
    change (example_mro (ob_type derivedInstance))
      with [Derived; Base; object_] in Hc.
    repeat (apply elem_of_cons in Hc as [-> | Hc];
            [vm_compute; reflexivity |]).
    by apply elem_of_nil in Hc.
Defined.

(** X4.  When no class of the ancestor chain answers and the object is a
    tuple, the [%] of the message unpacks it: for a tuple of one item the
    [ValueError] shows that item in place of the tuple, and for any other
    tuple [dispatch] raises the [TypeError] of the formatting, not a
    [ValueError]. *)
Theorem dispatch_unresolved_tuple :
  ∀ (Fn : Type) (mro : cls → list cls) (σ : gmap loc (gmap dkey Fn))
    (self : loc) (obj : pyobject) (q : string) (items : list string),
    Forall (λ c, ¬ matches (registry_of σ self) q c) (mro (ob_type obj)) →
    ob_items obj = Some items →
    match items with
    | [s] =>
        dispatch mro self obj q σ
          = Raise (ValueError ("no dispatch function for object: " +:+ s))
    | _ =>
        ∃ msg, dispatch mro self obj q σ = Raise (TypeError msg)
    end.
Proof.
  intros Fn mro σ self obj q items Hno Hitems. unfold dispatch.
  rewrite dispatch_loop_no_match by done. simpl. unfold format_s.
  rewrite Hitems. destruct items as [| s [| s' items]]; [| done |];
    by eexists.
Qed.

(** X4, at a concrete input: an empty table asked about the pair
    [(1, 2)]. *)
Lemma dispatch_unresolved_tuple_witness :
  ∃ msg,
    dispatch example_mro 1%positive
      (PyObject (Cls "tuple") "(1, 2)" (Some ["1"; "2"])) "default"
      (∅ : gmap loc (gmap dkey string))
    = Raise (TypeError msg).
Proof.
  apply (dispatch_unresolved_tuple string example_mro ∅ 1%positive
           (PyObject (Cls "tuple") "(1, 2)" (Some ["1"; "2"])) "default"
           ["1"; "2"]); [| reflexivity].
  apply Forall_forall. intros c _. unfold matches, registry_of.
  rewrite lookup_empty. simpl. rewrite dom_empty_L.
  intros [[_ Hin] | Hin]; by apply not_elem_of_empty in Hin.
Defined.

End DispatcherExtras.

(** ** Legacy keyword names: further properties *)

Section TranslateMore.
Import Translate.
Implicit Types (tr : list (string * string)) (kw rkw : gmap string value).
Implicit Types (old new k : string) (v : value).

(** What is left of [kw] was in [kw]. *)
Lemma rename_loop_kw_Some tr : ∀ rkw kw k v,
  (rename_loop tr rkw kw).2 !! k = Some v → kw !! k = Some v.
Proof.
  induction tr as [| [o n] tr IH]; intros rkw kw k v Hk; simpl in *; [done |].
  destruct (kw !! o) as [vo |] eqn:Ho.
  - apply IH in Hk. apply lookup_delete_Some in Hk as [_ ?]. done.
  - by apply IH in Hk.
Qed.

(** What the loop writes comes from a supplied old name. *)
Lemma rename_loop_rkw_Some tr : ∀ rkw kw k v,
  (rename_loop tr rkw kw).1 !! k = Some v →
  rkw !! k = Some v ∨ ∃ old, (old, k) ∈ tr ∧ kw !! old = Some v.
Proof.
  induction tr as [| [o n] tr IH]; intros rkw kw k v Hk; simpl in *;
    [by left |].
  destruct (kw !! o) as [vo |] eqn:Ho.
  - apply IH in Hk as [Hk | (old & Hin & Hold)].
    + apply lookup_insert_Some in Hk as [[<- <-] | [_ Hk]]; [| by left].
      right. exists o. split; [apply list_elem_of_here | done].
    + right. exists old. split; [by apply list_elem_of_further |].
      apply lookup_delete_Some in Hold as [_ ?]. done.
  - apply IH in Hk as [Hk | (old & Hin & Hold)]; [by left |].
    right. exists old. split; [by apply list_elem_of_further | done].
Qed.

(** The loop moves keywords, one at a time: it never makes more of them. *)
Lemma rename_loop_size tr : ∀ rkw kw,
  size (rename_loop tr rkw kw).1 + size (rename_loop tr rkw kw).2
    ≤ size rkw + size kw.
Proof.
  induction tr as [| [o n] tr IH]; intros rkw kw; simpl; [done |].
  destruct (kw !! o) as [vo |] eqn:Ho; [| apply IH].
  etrans; [apply IH |].
  assert (size (delete o kw) + 1 = size kw) as Hd.
  { rewrite <- (insert_delete_id kw o vo) at 2 by done.
    rewrite map_size_insert_None by apply lookup_delete_eq. lia. }
  assert (size (<[n := vo]> rkw) ≤ size rkw + 1) as Hi.
  { rewrite map_size_insert. destruct (rkw !! n); simpl; lia. }
  lia.
Qed.

(** With no old name among the keywords the loop does nothing. *)
Lemma rename_loop_no_old tr : ∀ rkw kw,
  (∀ old, old ∈ tr.*1 → kw !! old = None) →
  rename_loop tr rkw kw = (rkw, kw).
Proof.
  induction tr as [| [o n] tr IH]; intros rkw kw Hno; simpl; [done |].
  rewrite Hno by apply list_elem_of_here.
  apply IH. intros old Hold. apply Hno. by apply list_elem_of_further.
Qed.

Lemma translate_kw_no_old tr kw :
  (∀ old, old ∈ tr.*1 → kw !! old = None) →
  translate_kw tr kw = kw.
Proof.
  intros Hno. unfold translate_kw. rewrite rename_loop_no_old by done.
  apply (right_id_L ∅ (∪)).
Qed.

End TranslateMore.

Section TranslateExtras.
Import Translate.

(** X5.  [translate] makes up no keyword: each keyword it returns holds a
    value the call supplied, under the same name or under an old name that
    a rule maps to it; and it returns no more keywords than the call
    supplied. *)
Theorem translate_kw_provenance :
  ∀ (tr : list (string * string)) (kw : gmap string value),
    (∀ k v, translate_kw tr kw !! k = Some v →
       kw !! k = Some v ∨ ∃ old, (old, k) ∈ tr ∧ kw !! old = Some v)
    ∧ size (translate_kw tr kw) ≤ size kw.
Proof.
  intros tr kw. split.
  - intros k v. rewrite translate_kw_lookup.
    destruct ((rename_loop tr ∅ kw).2 !! k) as [v' |] eqn:Hk.
    + intros [= ->]. left. by apply rename_loop_kw_Some in Hk.
    + intros [Hk' | Hk']%rename_loop_rkw_Some; [| by right].
      by rewrite lookup_empty in Hk'.
  - pose proof (rename_loop_size tr ∅ kw) as Hs.
    unfold translate_kw.
    destruct (rename_loop tr ∅ kw) as [rkw' kw']. simpl in Hs.
    rewrite map_size_empty in Hs.
    etrans; [| exact Hs].
    rewrite <- !size_dom, dom_union_L, size_union_alt.
    assert (size (dom rkw' ∖ dom kw') ≤ size (dom rkw')) as Hle.
    { apply subseteq_size. intros x [Hx _]%elem_of_difference. exact Hx. }
    lia.
Qed.

(** X6.  A call that uses no old name is left alone: its keywords are
    returned as they are, and [translate] does what it does without any
    rule. *)
Theorem translate_modern_call :
  ∀ (spec : argspec) (tr : list (string * string)) (args : list value)
    (kw : gmap string value),
    (∀ old, old ∈ tr.*1 → kw !! old = None) →
    translate_kw tr kw = kw
    ∧ translate spec tr args kw = translate spec [] args kw.
Proof.
  intros spec tr args kw Hno.
  pose proof (translate_kw_no_old tr kw Hno) as Heq.
  split; [done |]. unfold translate. rewrite Heq.
  by rewrite (translate_kw_no_old [] kw) by (intros ? []%elem_of_nil).
Qed.

(** X6, at a concrete call: the rule old -> new and the keyword new=7. *)
Lemma translate_modern_call_witness :
  translate (ArgSpec ["new"; "x"] None None [VNone]) [("old", "new")]
    [] {["new" := VInt 7]}
  = Ok ([], {["new" := VInt 7]}).
Proof.
  destruct (translate_modern_call (ArgSpec ["new"; "x"] None None [VNone])
              [("old", "new")] [] {["new" := VInt 7]}) as [_ ->].
  - intros old [-> | Hin]%elem_of_cons; [by vm_compute |].
    by apply elem_of_nil in Hin.
  - by vm_compute.
Defined.

(** X7.  When no new name of a rule is also an old name, translating is
    idempotent: the keywords returned hold no old name, and translating
    them again returns them. *)
Theorem translate_kw_idempotent :
  ∀ (tr : list (string * string)) (kw : gmap string value),
    (∀ new, new ∈ tr.*2 → new ∉ tr.*1) →
    (∀ old, old ∈ tr.*1 → translate_kw tr kw !! old = None)
    ∧ translate_kw tr (translate_kw tr kw) = translate_kw tr kw.
Proof.
  intros tr kw Hsep.
  assert (∀ old, old ∈ tr.*1 → translate_kw tr kw !! old = None) as Hno.
  { intros old Hold. rewrite translate_kw_lookup.
    rewrite rename_loop_kw_old by done.
    rewrite rename_loop_rkw_not_new; [apply lookup_empty |].
    intros Hnew. by apply (Hsep old). }
  split; [done |]. by apply translate_kw_no_old.
Qed.

(** X7, at a concrete call: the rule old -> new and the keyword old=5. *)
Lemma translate_kw_idempotent_witness :
  translate_kw [("old", "new")]
    (translate_kw [("old", "new")] {["old" := VInt 5]})
  = {["new" := VInt 5]}.
Proof.
  destruct (translate_kw_idempotent [("old", "new")] {["old" := VInt 5]})
    as [_ ->].
  - intros new [-> | Hin]%elem_of_cons.
    + intros [Heq | Hin]%elem_of_cons; [discriminate |].
      by apply elem_of_nil in Hin.
    + by apply elem_of_nil in Hin.
  - by vm_compute.
Defined.

End TranslateExtras.

(** ** The module proxy: further lemmas *)

Section ProxyMore.
Import ModuleClsProxy ProxyExamples.
Implicit Types (w : world) (d g l : loc) (k name : string) (e : entry).
Implicit Types (c : cls) (self : instance).

(** [del] of a name that is not bound ends the loop over the names. *)
Lemma delete_names_KeyError g (names : list string) : ∀ w a,
  a ∈ names → dict_of w g !! a = None →
  (for_each (λ a, delitem g a) names w).1 = Raise KeyError.
Proof.
  induction names as [| a0 names IH]; intros w a Hin Ha.
  - by apply elem_of_nil in Hin.
  - simpl. destruct (decide (a0 ∈ dom (dict_of w g))) as [Hb | Hb].
    + destruct (delitem_Ok w g a0 Hb) as (Hok & _ & _ & Hd).
      destruct (delitem g a0 w) as [[[] | e] w1] eqn:Hdel; simpl in *;
        [| done].
      assert (a ≠ a0) as Hne.
      { intros ->. apply elem_of_dom in Hb as [? Hb]. congruence. }
      apply elem_of_cons in Hin as [-> | Hin]; [done |].
      apply (IH w1 a Hin). rewrite Hd. rewrite decide_False; [done |].
      intros [_ ?]. congruence.
    + unfold delitem. by rewrite decide_False.
Qed.

(** [_remove_proxy] raises [KeyError] when a name of [attr_names] is not
    bound in the [globals_] of the first module of the class. *)
Lemma remove_proxy_KeyError w self g l ms a :
  modules w (inst_cls self) = (g, l) :: ms →
  a ∈ attr_names w (inst_cls self) →
  a ≠ "_proxy" →
  dict_of w g !! a = None →
  (_remove_proxy self w).1 = Raise KeyError.
Proof.
  intros Hms Ha Hne Hd. unfold _remove_proxy. rewrite Hms. simpl.
  pose proof (delete_names_KeyError g
                (elements (attr_names w (inst_cls self)))
                (setitem g "_proxy" (EVal VNone) w) a) as Hk.
  destruct (for_each _ (elements _) _) as [[[] | e] w1]; simpl in *.
  - discriminate Hk.
    + by apply elem_of_elements.
    + rewrite dict_of_setitem_ne; [done | right; congruence].
  - rewrite Hk; [done | by apply elem_of_elements |].
    rewrite dict_of_setitem_ne; [done | right; congruence].
Qed.

(** A loop whose body does nothing does nothing. *)
Lemma for_each_skip {A} (body : A → world → result () * world)
    (xs : list A) w :
  (∀ x w', x ∈ xs → body x w' = (Ok (), w')) →
  for_each body xs w = (Ok (), w).
Proof.
  induction xs as [| x xs IH]; intros Hbody; simpl; [done |].
  rewrite Hbody by apply list_elem_of_here.
  apply IH. intros y w' Hy. apply Hbody. by apply list_elem_of_further.
Qed.

End ProxyMore.

Section ProxyExtras.
Import ModuleClsProxy ProxyExamples.
Local Ltac by_compute := apply (bool_decide_unpack _); vm_compute; exact I.

(** X8.  Detaching an installed instance and installing it again restores
    every dictionary: both steps raise nothing, and each name of each
    dictionary is bound as it was before the instance was removed. *)
Theorem reinstall_restores :
  ∀ (w : world) (self : instance),
    attached w self →
    NoDup (modules w (inst_cls self)).*1 →
    (_remove_proxy self w).1 = Ok ()
    ∧ (_install_proxy self (_remove_proxy self w).2).1 = Ok ()
    ∧ setups (_install_proxy self (_remove_proxy self w).2).2 = setups w
    ∧ members (_install_proxy self (_remove_proxy self w).2).2 = members w
    ∧ ∀ d, dict_of (_install_proxy self (_remove_proxy self w).2).2 d
           = dict_of w d.
Proof.
  intros w self Hatt Hnd.
  destruct (remove_proxy_spec w self Hnd) as (Hok & Hs & Hm & Hd).
  { intros g a Hg Ha. apply elem_of_dom.
    destruct (Hatt g Hg) as [_ Hattr]. by rewrite (Hattr a Ha). }
  set (w1 := (_remove_proxy self w).2) in *.
  destruct (install_proxy_spec w1 self) as (Hok' & Hs' & Hm' & Hd').
  split_and!; [done | done | congruence | congruence |].
  intros d. apply map_eq. intros k. rewrite Hd'.
  rewrite (modules_eq _ _ _ Hs), (attr_names_eq _ _ _ Hs), Hd.
  destruct (decide (d ∈ (modules w (inst_cls self)).*1)) as [Hin | Hin];
    [| done].
  destruct (Hatt d Hin) as [Hp Ha].
  destruct (decide (k ∈ attr_names w (inst_cls self))) as [Hk | Hk].
  - by rewrite Ha.
  - destruct (decide (k = "_proxy")) as [-> | Hk']; [by rewrite Hp | done].
Qed.

(** X8, at a concrete state: [ops] installed in the module at 1. *)
Lemma reinstall_restores_witness :
  attached w_installed ops
  ∧ dict_of (_install_proxy ops (_remove_proxy ops w_installed).2).2 1
    = dict_of w_installed 1.
Proof.
  assert (attached w_installed ops) as Hatt.
  { apply install_proxy_attached. by_compute. }
  assert (NoDup (modules w_installed (inst_cls ops)).*1) as Hnd.
  { by_compute. }
  destruct (reinstall_restores w_installed ops Hatt Hnd)
    as (_ & _ & _ & _ & Hd).
  split; [exact Hatt | apply Hd].
Defined.

(** X9.  [_remove_proxy] is not to be called twice: with an instance
    installed for a class that has a module and exposes an attribute, the
    first call raises nothing and the second raises [KeyError]. *)
Theorem remove_proxy_twice :
  ∀ (w : world) (self : instance) (a : string),
    attached w self →
    NoDup (modules w (inst_cls self)).*1 →
    modules w (inst_cls self) ≠ [] →
    a ∈ attr_names w (inst_cls self) →
    (_remove_proxy self w).1 = Ok ()
    ∧ (_remove_proxy self (_remove_proxy self w).2).1 = Raise KeyError.
Proof.
  intros w self a Hatt Hnd Hms Ha.
  destruct (remove_proxy_spec w self Hnd) as (Hok & Hs & Hm & Hd).
  { intros g a' Hg Ha'. apply elem_of_dom.
    destruct (Hatt g Hg) as [_ Hattr]. by rewrite (Hattr a' Ha'). }
  split; [done |].
  destruct (modules w (inst_cls self)) as [| [g l] ms] eqn:Hmods; [done |].
  apply (remove_proxy_KeyError _ self g l ms a).
  - by rewrite (modules_eq _ _ _ Hs).
  - by rewrite (attr_names_eq _ _ _ Hs).
  - intros ->. apply (attached_proxy_not_attr w self); [done | | done].
    by rewrite Hmods.
  - rewrite Hd. rewrite decide_True by apply list_elem_of_here.
    by rewrite decide_True.
Qed.

(** X9, at a concrete state: [ops] installed in the module at 1, with the
    attribute [version]. *)
Lemma remove_proxy_twice_witness :
  (_remove_proxy ops w_installed).1 = Ok ()
  ∧ (_remove_proxy ops w_removed).1 = Raise KeyError.
Proof.
  apply (remove_proxy_twice w_installed ops "version").
  - apply install_proxy_attached. by_compute.
  - by_compute.
  - by vm_compute.
  - by_compute.
Defined.

(** X10.  An attribute that is not callable, assigned on the class while an
    instance is installed, is bound in no dictionary and yet counted among
    the names to unbind: the next [_remove_proxy] raises [KeyError]. *)
Theorem setattr_then_remove_proxy :
  ∀ (w : world) (self : instance) (key : string),
    String.prefix "_" key = false →
    modules w (inst_cls self) ≠ [] →
    (∀ g, g ∈ (modules w (inst_cls self)).*1 → dict_of w g !! key = None) →
    (__setattr__ (inst_cls self) key MAttribute w).1 = Ok ()
    ∧ (_remove_proxy self
         (__setattr__ (inst_cls self) key MAttribute w).2).1
      = Raise KeyError.
Proof.
  intros w self key Hk Hms Hfree. unfold __setattr__.
  set (c := inst_cls self) in *.
  set (w1 := set_member c key MAttribute w).
  assert (members_of w1 c !! key = Some MAttribute) as Hm.
  { unfold w1. rewrite members_of_set_member. by rewrite decide_True. }
  destruct (update_attribute w1 c key Hk Hm) as (Hok & [_ Hmod] & Ha).
  split; [done |].
  destruct (modules w c) as [| [g l] ms] eqn:Hmods; [done |].
  apply (remove_proxy_KeyError _ self g l ms key).
  - fold c. by rewrite Hmod.
  - fold c. apply Ha. unfold w1, modules, setup_of. simpl.
    fold (setup_of w c). fold (modules w c). by rewrite Hmods.
  - intros ->. done.
  - unfold dict_of. rewrite (update_attribute_dicts w1 c key Hk Hm).
    apply Hfree. apply list_elem_of_here.
Qed.

(** X10, at a concrete state: [flag] is assigned with [ops] installed. *)
Lemma setattr_then_remove_proxy_witness :
  (_remove_proxy ops
     (__setattr__ Operations "flag" MAttribute w_installed).2).1
  = Raise KeyError.
Proof.
  apply (setattr_then_remove_proxy w_installed ops "flag").
  - reflexivity.
  - by vm_compute.
  - intros g Hg.
    change ((modules w_installed (inst_cls ops)).*1) with [1%positive] in Hg.
    apply elem_of_cons in Hg as [-> | Hg]; [by vm_compute |].
    by apply elem_of_nil in Hg.
Defined.

(** X11.  Installing an instance over another of the same class, without
    removing the first, leaves the dictionaries as installing it alone
    does; so installing is idempotent. *)
Theorem install_proxy_last_wins :
  ∀ (w : world) (a b : instance),
    inst_cls a = inst_cls b →
    ∀ d, dict_of (_install_proxy b (_install_proxy a w).2).2 d
         = dict_of (_install_proxy b w).2 d.
Proof.
  intros w a b Hc d.
  destruct (install_proxy_spec w a) as (_ & Hs & _ & Hd).
  destruct (install_proxy_spec w b) as (_ & _ & _ & Hd').
  destruct (install_proxy_spec (_install_proxy a w).2 b)
    as (_ & _ & _ & Hd'').
  apply map_eq. intros k. rewrite Hd'', Hd'.
  rewrite (modules_eq _ _ _ Hs), (attr_names_eq _ _ _ Hs), Hd, Hc.
  repeat case_decide; done.
Qed.

(** X11, at a concrete state: another instance of [Operations] is
    installed over [ops]. *)
Lemma install_proxy_last_wins_witness :
  dict_of (_install_proxy (Instance Operations 8) w_installed).2 1
    !! "_proxy"
  = Some (EVal (VInst (Instance Operations 8))).
Proof.
  unfold w_installed.
  rewrite (install_proxy_last_wins w_registered ops (Instance Operations 8)
             eq_refl 1%positive).
  by vm_compute.
Defined.

(** X12.  Assigning a private attribute, or an attribute of a class that
    has no module, raises nothing and changes the attributes of the class
    only: no dictionary and no [_setups] entry. *)
Theorem setattr_private :
  ∀ (w : world) (c : cls) (key : string) (m : member),
    String.prefix "_" key = true ∨ modules w c = [] →
    __setattr__ c key m w = (Ok (), set_member c key m w).
Proof.
  intros w c key m Hcase. unfold __setattr__, _update_module_proxies.
  destruct Hcase as [Hk | Hms].
  - apply for_each_skip. intros [g l] w' _.
    by apply add_proxied_attribute_private.
  - change (modules (set_member c key m w) c) with (modules w c).
    by rewrite Hms.
Qed.

(** X12, at a concrete state: a private method is assigned on the class
    of the example, registered in two modules. *)
Lemma setattr_private_witness :
  dicts (__setattr__ Operations "_secret"
           (MFunction InstanceMethod foo_spec [] None) w_two_scopes).2
  = dicts w_two_scopes.
Proof.
  rewrite (setattr_private w_two_scopes Operations "_secret"
             (MFunction InstanceMethod foo_spec [] None));
    [reflexivity | by left].
Defined.

End ProxyExtras.

(** ** Registration: what is written *)

Section RegisterMore.
Import ModuleClsProxy ProxyExamples.
Implicit Types (w : world) (d g l : loc) (k name : string) (e : entry).
Implicit Types (c : cls) (self : instance).

Lemma bind_helpers_frame c g tr w d k :
  dict_of (bind_helpers c g tr w) d !! k = dict_of w d !! k
  ∨ (d = g ∧ (k = "_name_error" ∨ k = "_translate")).
Proof.
  unfold bind_helpers. destruct tr as [| t tr].
  - rewrite dict_of_setitem. case_decide as Hc; [| by left].
    destruct Hc as [-> <-]. right. by split; [| left].
  - rewrite !dict_of_setitem. repeat case_decide; try (by left);
      match goal with
      | Hc : _ = _ ∧ _ = _ |- _ => destruct Hc as [-> <-]
      end; right; (split; [done |]); [by right | by left].
Qed.

Lemma add_proxied_attribute_frame w0 c n g l w d k :
  members w = members w0 →
  dict_of (_add_proxied_attribute c n g l w).2 d !! k = dict_of w d !! k
  ∨ (d = l ∧ String.prefix "_" k = false
     ∧ ∃ kind spec tr doc,
         members_of w0 c !! k = Some (MFunction kind spec tr doc))
  ∨ (d = g ∧ (k = "_name_error" ∨ k = "_translate")).
Proof.
  intros Hmem.
  destruct (String.prefix "_" n) eqn:Hn.
  { rewrite add_proxied_attribute_private by done. by left. }
  destruct (members_of w c !! n) as [[kind spec tr doc |] |] eqn:Hm.
  - rewrite (add_proxied_attribute_function c n g l w kind spec tr doc)
      by done.
    simpl. rewrite dict_of_setitem. case_decide as Hc.
    + destruct Hc as [-> <-]. right. left. split_and!; [done | done |].
      exists kind, spec, tr, doc. by rewrite <- (members_of_eq _ _ _ Hmem).
    + destruct (bind_helpers_frame c g tr w d k) as [-> | ?];
        [by left | by right; right].
  - rewrite add_proxied_attribute_attr by done. by left.
  - unfold _add_proxied_attribute. rewrite Hn, Hm. by left.
Qed.

Lemma add_proxied_attribute_other_setups c n g l w c' :
  c ≠ c' →
  setup_of (_add_proxied_attribute c n g l w).2 c' = setup_of w c'.
Proof.
  intros Hne.
  destruct (String.prefix "_" n) eqn:Hn.
  { by rewrite add_proxied_attribute_private. }
  destruct (members_of w c !! n) as [[kind spec tr doc |] |] eqn:Hm.
  - rewrite (add_proxied_attribute_function c n g l w kind spec tr doc)
      by done.
    simpl. destruct (bind_helpers_setups c g tr w) as [Hs _].
    unfold setup_of in *. simpl. by rewrite Hs.
  - rewrite add_proxied_attribute_attr by done. simpl.
    rewrite setup_of_add_attr_name. by rewrite decide_False.
  - unfold _add_proxied_attribute. by rewrite Hn, Hm.
Qed.

Lemma add_proxied_attribute_attr_names_mono c n g l w a :
  a ∈ attr_names w c →
  a ∈ attr_names (_add_proxied_attribute c n g l w).2 c.
Proof.
  intros Ha.
  destruct (String.prefix "_" n) eqn:Hn.
  { by rewrite add_proxied_attribute_private. }
  destruct (members_of w c !! n) as [[kind spec tr doc |] |] eqn:Hm.
  - rewrite (add_proxied_attribute_function c n g l w kind spec tr doc)
      by done.
    simpl. destruct (bind_helpers_setups c g tr w) as [Hs _].
    unfold attr_names, setup_of in *. simpl. by rewrite Hs.
  - rewrite add_proxied_attribute_attr by done. simpl.
    unfold attr_names at 1. rewrite setup_of_add_attr_name.
    rewrite decide_True by done. simpl. by apply elem_of_union_r.
  - unfold _add_proxied_attribute. by rewrite Hn, Hm.
Qed.

(** What a whole registration writes, and what it keeps. *)
Lemma register_frame w c g l :
  (∀ d k,
     dict_of (create_module_class_proxy c g l w).2 d !! k = dict_of w d !! k
     ∨ (d = l ∧ String.prefix "_" k = false
        ∧ ∃ kind spec tr doc,
            members_of w c !! k = Some (MFunction kind spec tr doc))
     ∨ (d = g ∧ (k = "_name_error" ∨ k = "_translate")))
  ∧ (∀ c', c' ≠ c →
       setup_of (create_module_class_proxy c g l w).2 c' = setup_of w c')
  ∧ (∀ a, a ∈ attr_names w c →
       a ∈ attr_names (create_module_class_proxy c g l w).2 c)
  ∧ (∀ a, String.prefix "_" a = false →
       members_of w c !! a = Some MAttribute →
       a ∈ attr_names (create_module_class_proxy c g l w).2 c).
Proof.
  unfold create_module_class_proxy, _setup_proxy in *.
  set (w0 := append_module c g l w) in *.
  assert (members_of w0 c = members_of w c) as Hmof by done.
  assert (∀ d, dict_of w0 d = dict_of w d) as Hd0 by done.
  assert (attr_names w0 c = attr_names w c) as Hattr0.
  { unfold w0, append_module, attr_names at 1, setup_of. simpl.
    by rewrite lookup_insert_eq. }
  set (body := λ methname, _add_proxied_attribute c methname g l) in *.
  set (Inv := λ w', register_inv w0 c w'
    ∧ (∀ d k, dict_of w' d !! k = dict_of w0 d !! k
        ∨ (d = l ∧ String.prefix "_" k = false
           ∧ ∃ kind spec tr doc,
               members_of w0 c !! k = Some (MFunction kind spec tr doc))
        ∨ (d = g ∧ (k = "_name_error" ∨ k = "_translate")))
    ∧ (∀ c', c' ≠ c → setup_of w' c' = setup_of w0 c')
    ∧ (∀ a, a ∈ attr_names w0 c → a ∈ attr_names w' c)).
  assert (∀ y w', y ∈ dir_ w0 c → Inv w' →
            (body y w').1 = Ok () ∧ Inv (body y w').2) as Hstep.
  { intros y w' Hy (Hinv & Hfr & Hset & Hmono).
    destruct (register_step w0 c y g l w') as [Hoky Hinv'];
      [by apply elem_of_dir | done |].
    split; [done |]. unfold body. split_and!.
    - done.
    - intros d k.
      destruct (add_proxied_attribute_frame w0 c y g l w' d k)
        as [Heq | Hw]; [by destruct Hinv | | by right].
      rewrite Heq. apply Hfr.
    - intros c' Hc'.
      rewrite add_proxied_attribute_other_setups by done. by apply Hset.
    - intros a Ha. apply add_proxied_attribute_attr_names_mono.
      by apply Hmono. }
  assert (Inv w0) as Hinv0.
  { split_and!; [apply register_inv_refl | by left | done | done]. }
  destruct (for_each_total body Inv (dir_ w0 c) Hstep w0 Hinv0)
    as (_ & Hinv & Hfr & Hset & Hmono).
  split_and!.
  - intros d k. destruct (Hfr d k) as [Heq | Hw].
    + left. by rewrite Heq, Hd0.
    + right. by rewrite Hmof in Hw.
  - intros c' Hc'. rewrite Hset by done.
    unfold w0, append_module, setup_of. simpl.
    by rewrite lookup_insert_ne.
  - intros a Ha. apply Hmono. by rewrite Hattr0.
  - intros a Hpub Hm.
    assert (a ∈ dir_ w0 c) as Hin.
    { apply elem_of_dir. rewrite Hmof. by eexists. }
    apply (for_each_establish body Inv (λ w', a ∈ attr_names w' c)
             (dir_ w0 c) a); [done | done | | | done].
    + intros w' (Hinv' & _). unfold body.
      rewrite add_proxied_attribute_attr; [| done |].
      * simpl. unfold attr_names at 1. rewrite setup_of_add_attr_name.
        rewrite decide_True by done. simpl.
        apply elem_of_union_l, elem_of_singleton. done.
      * destruct Hinv' as (Hmem & _).
        by rewrite (members_of_eq _ _ _ Hmem), Hmof.
    + intros y w' _ _ Ha. unfold body.
      by apply add_proxied_attribute_attr_names_mono.
Qed.

End RegisterMore.

Section RegisterExtras.
Import ModuleClsProxy ProxyExamples.

(** X13.  What [create_module_class_proxy] writes.  It raises nothing.
    The only bindings it changes are, in [locals_], the names of the public
    functions of the class and, in [globals_], [_name_error] and
    [_translate]: no other dictionary is touched, no private name is
    exposed and [_proxy] is left alone.  The names it adds to [attr_names]
    are the public attributes that are not callable, and the [_setups]
    entry of every other class stays as it is. *)
Theorem create_module_class_proxy_frame :
  ∀ (w : world) (c : cls) (g l : loc),
    (create_module_class_proxy c g l w).1 = Ok ()
    ∧ (∀ d k,
         dict_of (create_module_class_proxy c g l w).2 d !! k
           ≠ dict_of w d !! k →
         (d = l ∧ String.prefix "_" k = false
          ∧ ∃ kind spec tr doc,
              members_of w c !! k = Some (MFunction kind spec tr doc))
         ∨ (d = g ∧ (k = "_name_error" ∨ k = "_translate")))
    ∧ (∀ a, a ∈ attr_names (create_module_class_proxy c g l w).2 c ↔
         a ∈ attr_names w c
         ∨ (String.prefix "_" a = false
            ∧ members_of w c !! a = Some MAttribute))
    ∧ (∀ c', c' ≠ c →
         setup_of (create_module_class_proxy c g l w).2 c' = setup_of w c').
Proof.
  intros w c g l.
  destruct (register_spec w c g l) as (Hok & _ & _ & Hattr & _).
  destruct (register_frame w c g l) as (Hfr & Hset & Hmono & Hnew).
  split_and!; [done | | | done].
  - intros d k Hne. by destruct (Hfr d k).
  - intros a. split; [apply Hattr |].
    intros [Ha | [Hpub Hm]]; [by apply Hmono | by apply Hnew].
Qed.

End RegisterExtras.

Section SharedMore.
Import ModuleClsProxy ProxyExamples.
Implicit Types (w : world) (d g l : loc) (k name : string) (e : entry).
Implicit Types (c : cls) (self : instance).

(** Registration binds [_name_error] to the closure of its class as soon
    as the class has a public function. *)
Lemma register_name_error w c g l name kind spec tr doc :
  String.prefix "_" name = false →
  members_of w c !! name = Some (MFunction kind spec tr doc) →
  dict_of (create_module_class_proxy c g l w).2 g !! "_name_error"
    = Some (ENameError c).
Proof.
  intros Hname Hm. unfold create_module_class_proxy, _setup_proxy.
  set (w0 := append_module c g l w).
  assert (members_of w0 c = members_of w c) as Hmof by done.
  set (body := λ methname, _add_proxied_attribute c methname g l).
  assert (∀ y w', y ∈ dir_ w0 c → register_inv w0 c w' →
            (body y w').1 = Ok () ∧ register_inv w0 c (body y w').2)
    as Hstep.
  { intros y w' Hy Hinv. apply register_step; [| done].
    by apply elem_of_dir. }
  assert (∀ n w' kind' spec' tr' doc',
            String.prefix "_" n = false →
            members_of w0 c !! n = Some (MFunction kind' spec' tr' doc') →
            register_inv w0 c w' →
            dict_of (body n w').2 g !! "_name_error" = Some (ENameError c))
    as Hset.
  { intros n w' kind' spec' tr' doc' Hn Hmn Hinv. unfold body.
    rewrite (register_step_function w0 c n g l w' kind' spec' tr' doc')
      by done.
    rewrite dict_of_setitem_ne by (right; by intros ->).
    unfold bind_helpers. destruct tr'.
    - apply dict_of_setitem_eq.
    - rewrite dict_of_setitem_ne by (by right). apply dict_of_setitem_eq. }
  apply (for_each_establish body (register_inv w0 c)
           (λ w', dict_of w' g !! "_name_error" = Some (ENameError c))
           (dir_ w0 c) name);
    [apply elem_of_dir; rewrite Hmof; by eexists | done | | |
     apply register_inv_refl].
  - intros w' Hinv. apply (Hset name w' kind spec tr doc); [done | | done].
    by rewrite Hmof.
  - intros y w' Hy Hinv HP.
    apply elem_of_dir in Hy as [m Hy].
    destruct (String.prefix "_" y) eqn:Hpy.
    { unfold body. by rewrite add_proxied_attribute_private. }
    destruct m as [kind' spec' tr' doc' |].
    + by apply (Hset y w' kind' spec' tr' doc').
    + unfold body. destruct Hinv as (Hmem & _).
      rewrite add_proxied_attribute_attr;
        [done | done | by rewrite (members_of_eq _ _ _ Hmem)].
Qed.

(** A class registered in a module and an instance installed: what the
    dictionaries of the module then hold for a public function. *)
Lemma registered_installed w c g l self name kind spec tr doc :
  inst_cls self = c →
  members_of w c !! name = Some (MFunction kind spec tr doc) →
  String.prefix "_" name = false →
  (∀ a, a ∈ attr_names w c → String.prefix "_" a = false ∧ a ≠ name) →
  let w2 :=
    (_install_proxy self (create_module_class_proxy c g l w).2).2 in
  dict_of w2 l !! name = Some (EFunction (func_text name g spec tr doc))
  ∧ dict_of w2 g !! "_proxy" = Some (EVal (VInst self))
  ∧ members_of w2 (inst_cls self) !! name
    = Some (MFunction kind spec tr doc)
  ∧ (tr ≠ [] → dict_of w2 g !! "_translate" = Some ETranslate).
Proof.
  intros Hc Hm Hname Hattr w2.
  destruct (register_spec w c g l) as (Hok1 & Hmem1 & Hmod1 & Hattr1 & Hf1).
  set (w1 := (create_module_class_proxy c g l w).2) in *.
  destruct (Hf1 name kind spec tr doc Hname Hm) as [Hf Htr].
  assert (∀ a, a ∈ attr_names w1 c → String.prefix "_" a = false ∧ a ≠ name)
    as Hattr'.
  { intros a Ha. destruct (Hattr1 a Ha) as [Hin | [Hpub Hma]];
      [by apply Hattr |].
    split; [done |]. intros ->. congruence. }
  destruct (install_proxy_spec w1 self) as (Hok2 & Hs2 & Hmem2 & Hd2).
  fold w2 in Hs2, Hmem2, Hd2. rewrite Hc in Hd2.
  assert (∀ d k, k ∉ attr_names w1 c → k ≠ "_proxy" →
            dict_of w2 d !! k = dict_of w1 d !! k) as Hkeep.
  { intros d k Hk Hk'. rewrite Hd2. case_decide; [| done].
    by rewrite !decide_False. }
  assert ("_proxy" ∉ attr_names w1 c) as Hnp.
  { intros Hin. by destruct (Hattr' _ Hin). }
  split_and!.
  - rewrite Hkeep; [done | | by intros ->].
    intros Hin. by destruct (Hattr' _ Hin).
  - rewrite Hd2. rewrite decide_True.
    + rewrite decide_False by done. by rewrite decide_True.
    + rewrite Hmod1, fmap_app. apply elem_of_app. right.
      apply list_elem_of_here.
  - rewrite Hc. rewrite (members_of_eq w1 w2) by done.
    by rewrite (members_of_eq w w1).
  - intros Hne. rewrite Hkeep; [by apply Htr | | done].
    intros Hin. by destruct (Hattr' _ Hin).
Qed.

End SharedMore.

Section SharedExtras.
Import ModuleClsProxy ProxyExamples SharedExamples LegacyNames.
Local Ltac by_compute := apply (bool_decide_unpack _); vm_compute; exact I.

(** X14.  [_name_error] belongs to the [globals_], not to the class: when
    two classes are registered with the same [globals_] and the second has
    a public function, then, as long as no instance is installed, every
    generated function of these [globals_] that has no parameter called
    [_proxy] or [_name_error] (such a parameter is a local variable and
    stands in for the global) and gets as far as looking [_proxy] up
    raises the [NameError] that names the second class; the functions
    generated for the first class, still bound in its [locals_], among
    them. *)
Theorem name_error_names_last_class :
  ∀ (w : world) (c1 c2 : cls) (g l1 l2 : loc) (name1 name2 : string)
    (kind1 kind2 : method_kind) (spec1 spec2 : argspec)
    (tr1 tr2 : list (string * string)) (doc1 doc2 : option string),
    String.prefix "_" name1 = false →
    String.prefix "_" name2 = false →
    members_of w c1 !! name1 = Some (MFunction kind1 spec1 tr1 doc1) →
    members_of w c2 !! name2 = Some (MFunction kind2 spec2 tr2 doc2) →
    l1 ≠ l2 →
    dict_of w g !! "_proxy" = None →
    let w1 := (create_module_class_proxy c1 g l1 w).2 in
    let w2 := (create_module_class_proxy c2 g l2 w1).2 in
    let f := func_text name1 g spec1 tr1 doc1 in
    dict_of w2 l1 !! name1 = Some (EFunction f)
    ∧ dict_of w2 g !! "_name_error" = Some (ENameError c2)
    ∧ ∀ (f' : proxy_function) pos kw,
        pf_globals f' = g →
        "_proxy" ∉ parameters (pf_outer f') →
        "_name_error" ∉ parameters (pf_outer f') →
        call_proxy_function w2 f' pos kw =
          raises_after_arguments w2 f' pos kw
            (NameError (name_error_message (pf_name f') c2)).
Proof.
  intros w c1 c2 g l1 l2 name1 name2 kind1 kind2 spec1 spec2 tr1 tr2
    doc1 doc2 Hn1 Hn2 Hm1 Hm2 Hl Hproxy w1 w2 f.
  destruct (register_spec w c1 g l1) as (_ & Hmem1 & _ & _ & Hf1).
  destruct (Hf1 name1 kind1 spec1 tr1 doc1 Hn1 Hm1) as [Hf _].
  fold w1 in Hmem1, Hf. fold f in Hf.
  destruct (register_frame w c1 g l1) as (Hfr1 & _).
  destruct (register_frame w1 c2 g l2) as (Hfr2 & _).
  fold w1 in Hfr1. fold w2 in Hfr2.
  assert (dict_of w2 g !! "_proxy" = None) as Hp2.
  { destruct (Hfr2 g "_proxy") as [-> | [(_ & Hpub & _) | (_ & [? | ?])]];
      [| done..].
    destruct (Hfr1 g "_proxy") as [-> | [(_ & Hpub & _) | (_ & [? | ?])]];
      done. }
  assert (dict_of w2 g !! "_name_error" = Some (ENameError c2)) as Hne.
  { apply (register_name_error w1 c2 g l2 name2 kind2 spec2 tr2 doc2);
      [done |]. by rewrite (members_of_eq w w1). }
  split_and!.
  - destruct (Hfr2 l1 name1) as [-> | [(? & _) | (_ & [-> | ->])]]; done.
  - done.
  - intros f' pos kw Hg Hpx Hnx.
    apply call_proxy_function_unbound; [done | done | by rewrite Hg..].
Qed.

(** X14, at a concrete state: [Operations], then [Context], registered
    with the [globals_] at 1 and the [locals_] at 2 and 3; [go] is called
    before any instance is installed. *)
Lemma name_error_names_last_class_witness :
  let w2 :=
    (create_module_class_proxy Context 1 3
       (create_module_class_proxy Operations 1 2 w_classes).2).2 in
  dict_of w2 2 !! "go" = Some (EFunction (func_text "go" 1 go_spec [] None))
  ∧ call_proxy_function w2 (func_text "go" 1 go_spec [] None) [VInt 3] ∅
    = Raise (NameError (name_error_message "go" Context)).
Proof.
  intros w2.
  assert (members_of w_classes Operations !! "go"
          = Some (MFunction InstanceMethod go_spec [] None)) as Hm1
    by (vm_compute; reflexivity).
  assert (members_of w_classes Context !! "configure"
          = Some (MFunction InstanceMethod configure_spec [] None)) as Hm2
    by (vm_compute; reflexivity).
  assert (dict_of w_classes 1 !! "_proxy" = None) as Hp
    by (vm_compute; reflexivity).
  assert (2%positive ≠ 3%positive) as Hl by discriminate.
  destruct (name_error_names_last_class w_classes Operations Context
              1%positive 2%positive 3%positive "go" "configure"
              InstanceMethod InstanceMethod go_spec configure_spec [] []
              None None eq_refl eq_refl Hm1 Hm2 Hl Hp) as (Hf & _ & Hcall).
  split; [exact Hf |].
  unfold w2. rewrite Hcall; [| reflexivity | by_compute | by_compute].
  vm_compute. reflexivity.
Defined.

(** X15.  A method decorated with [_with_legacy_names], once its class is
    registered and an instance installed: called through its generated
    function with enough positional arguments for the parameters without
    default that are no keyword after the renaming, it is called on the
    instance with the same positional arguments and the renamed keywords;
    called with fewer, the call raises the [TypeError] that names the first
    parameter left out; and a call that uses no old name, with enough
    positional arguments, is the direct call. *)
Theorem legacy_names_call :
  ∀ (w : world) (c : cls) (g l : loc) (self : instance) (name : string)
    (kind : method_kind) (spec : argspec) (tr : list (string * string))
    (doc : option string),
    inst_cls self = c →
    tr ≠ [] →
    members_of w c !! name
      = Some (_with_legacy_names tr (MFunction kind spec [] doc)) →
    String.prefix "_" name = false →
    (∀ a, a ∈ attr_names w c → String.prefix "_" a = false ∧ a ≠ name) →
    let w2 :=
      (_install_proxy self (create_module_class_proxy c g l w).2).2 in
    let f := func_text name g spec tr doc in
    dict_of w2 l !! name = Some (EFunction f)
    ∧ ∀ pos kw,
        let kw' := Translate.translate_kw tr kw in
        let need :=
          filter (λ a, a ∉ dom kw') (Translate.pos_only (pop_self spec)) in
        (length need ≤ length pos →
         call_proxy_function w2 f pos kw = call_method w2 self name pos kw')
        ∧ (length pos < length need →
           ∃ p, need !! length pos = Some p
             ∧ call_proxy_function w2 f pos kw =
                 Raise (TypeError
                          ("missing required positional argument: " +:+ p)))
        ∧ ((∀ old, old ∈ tr.*1 → kw !! old = None) →
           length need ≤ length pos →
           call_proxy_function w2 f pos kw
             = call_method w2 self name pos kw).
Proof.
  intros w c g l self name kind spec tr doc Hc Htr Hm Hname Hattr w2 f.
  simpl in Hm.
  destruct (registered_installed w c g l self name kind spec tr doc
              Hc Hm Hname Hattr) as (Hf & Hproxy & Hm2 & Htranslate).
  fold w2 in Hf, Hproxy, Hm2, Htranslate. split; [done |].
  intros pos kw kw' need.
  assert (call_proxy_function w2 f pos kw =
            '(args', kw'') ← Translate.translate (pop_self spec) tr pos kw;
            call_method w2 self name args' kw'') as Hcall.
  { apply (call_translated w2 g name kind spec tr doc self pos kw);
      [done | done | by apply Htranslate | done]. }
  assert (Translate.translate (pop_self spec) tr pos kw =
            match need !! length pos with
            | Some p =>
                Raise (TypeError
                         ("missing required positional argument: " +:+ p))
            | None => Ok (pos, kw')
            end) as Htrans.
  { unfold Translate.translate. fold kw'. rewrite fill_loop_spec.
    fold need. destruct (need !! length pos) eqn:Hl; simpl; [done |].
    by rewrite take_drop. }
  assert (length need ≤ length pos →
          call_proxy_function w2 f pos kw = call_method w2 self name pos kw')
    as Henough.
  { intros Hle. rewrite Hcall, Htrans.
    by rewrite (lookup_ge_None_2 need) by done. }
  split_and!.
  - done.
  - intros Hlt. destruct (lookup_lt_is_Some_2 need (length pos) Hlt)
      as [p Hp].
    exists p. split; [done |]. by rewrite Hcall, Htrans, Hp.
  - intros Hno Hle. rewrite Henough by done. unfold kw'.
    by rewrite translate_kw_no_old.
Qed.

(** X15, at a concrete state: [drop], declared with the rule old -> new,
    is called with the keyword [old]. *)
Lemma legacy_names_call_witness :
  call_proxy_function w_installed
    (func_text "drop" 1 drop_spec [("old", "new")] None)
    [] {["old" := VInt 5]}
  = call_method w_installed ops "drop" [] {["new" := VInt 5]}.
Proof.
  assert (members_of w_class Operations !! "drop"
          = Some (_with_legacy_names [("old", "new")]
                    (MFunction InstanceMethod drop_spec [] None))) as Hm
    by (vm_compute; reflexivity).
  assert (∀ a, a ∈ attr_names w_class Operations →
            String.prefix "_" a = false ∧ a ≠ "drop") as Hattr.
  { intros a Ha. exfalso. revert Ha.
    change (attr_names w_class Operations) with (∅ : gset string).
    apply not_elem_of_empty. }
  assert ([("old", "new")] ≠ ([] : list (string * string))) as Htr
    by discriminate.
  destruct (legacy_names_call w_class Operations 1%positive 1%positive ops
              "drop" InstanceMethod drop_spec [("old", "new")] None
              eq_refl Htr Hm eq_refl Hattr) as (_ & Hcall).
  destruct (Hcall [] {["old" := VInt 5]}) as (Henough & _).
  unfold w_installed, w_registered. rewrite Henough.
  - vm_compute. reflexivity.
  - vm_compute. lia.
Defined.

End SharedExtras.

(** ** Calls through a generated function: further lemmas *)

Section ForwardMore.
Import ModuleClsProxy ProxyExamples.
Implicit Types (w : world) (g l : loc) (name : string).
Implicit Types (pos : list value) (kw : gmap string value).

(** The arguments the forwarded call passes, spelled out. *)
Lemma forward_explicit (sig : formatted value) (inner : formatted string)
    pos kw b (extra : lval) :
  f_params inner = inner_params (f_params sig) →
  f_varargs inner = f_varargs sig →
  f_varkw inner = f_varkw sig →
  NoDup ((f_params sig).*1 ++ option_list (f_varargs sig)
         ++ option_list (f_varkw sig)) →
  "p" ∉ (f_params sig).*1 ++ option_list (f_varargs sig)
        ++ option_list (f_varkw sig) →
  bind sig pos kw = Ok b →
  length (b_args b) = length (f_params sig)
  ∧ eval_call inner (<["p" := extra]> (locals_of sig b))
    = Ok (forwarded_pos (f_params sig) (b_args b) ++ b_varargs b,
          forwarded_kw (f_params sig) (b_args b) ∪ b_kw b).
Proof.
  intros Hip Hiv Hik Hnd Hp Hb.
  apply bind_Ok in Hb as (Hbp & Hva & Hkn).
  destruct b as [vs rpos rkw]. simpl in *.
  destruct (bind_params_shape _ _ _ _ _ _ Hbp) as (Hlen & Hr & Hin & Hout).
  split; [done |].
  apply NoDup_app in Hnd as (Hnd1 & Hnd2 & Hnd3).
  assert (∀ n, n ∈ (f_params sig).*1 → n ≠ "p") as Hnp.
  { intros n Hn ->. apply Hp. apply elem_of_app. by left. }
  assert (∀ x, f_varargs sig = Some x →
            x ≠ "p" ∧ (x ∉ (f_params sig).*1) ∧ f_varkw sig ≠ Some x)
    as Hxprop.
  { intros x Hx. rewrite Hx in *. simpl in *. split_and!.
    - intros ->. apply Hp. apply elem_of_app. right. apply list_elem_of_here.
    - intros Hn. apply (Hnd2 x Hn). apply list_elem_of_here.
    - intros Hy. rewrite Hy in Hnd3. simpl in Hnd3.
      apply NoDup_cons in Hnd3 as [Hxy _]. apply Hxy, list_elem_of_here. }
  assert (∀ y, f_varkw sig = Some y → y ≠ "p" ∧ (y ∉ (f_params sig).*1))
    as Hyprop.
  { intros y Hy. rewrite Hy in *. simpl in *. split.
    - intros ->. apply Hp. apply elem_of_app. right.
      apply elem_of_app. right. apply list_elem_of_here.
    - intros Hn. apply (Hnd2 y Hn). apply elem_of_app. right.
      apply list_elem_of_here. }
  set (env0 := (list_to_map (zip (f_params sig).*1 (LVal <$> vs))
                : gmap string lval)).
  assert (∀ n, n ∈ (f_params sig).*1 →
            <["p" := extra]> (locals_of sig (Bound vs rpos rkw)) !! n
              = env0 !! n) as Hlook.
  { intros n Hn. rewrite lookup_insert_ne by (apply not_eq_sym; auto).
    unfold locals_of. simpl. fold env0.
    destruct (f_varkw sig) as [y |] eqn:Hy.
    - destruct (Hyprop y eq_refl) as [_ Hyn].
      rewrite lookup_insert_ne by (by intros ->).
      destruct (f_varargs sig) as [x |] eqn:Hx; [| done].
      destruct (Hxprop x eq_refl) as (_ & Hxn & _).
      rewrite lookup_insert_ne by (by intros ->). done.
    - destruct (f_varargs sig) as [x |] eqn:Hx; [| done].
      destruct (Hxprop x eq_refl) as (_ & Hxn & _).
      rewrite lookup_insert_ne by (by intros ->). done. }
  unfold eval_call. rewrite Hip, Hiv, Hik.
  rewrite (eval_params_forwarded _ vs); cycle 1.
  { apply Forall2_same_length_lookup_2; [done |].
    intros i p v Hp' Hv.
    assert ((f_params sig).*1 !! i = Some p.1) as Hn
      by (by rewrite list_lookup_fmap, Hp').
    rewrite Hlook by (by apply list_elem_of_lookup_2 in Hn).
    by apply (zip_env_lookup _ vs i). }
  simpl.
  assert (match f_varargs sig with
          | Some x =>
              match <["p":=extra]> (locals_of sig (Bound vs rpos rkw)) !! x
              with
              | Some (LTuple l) => Ok (forwarded_pos (f_params sig) vs ++ l)
              | _ => Raise CallError
              end
          | None => Ok (forwarded_pos (f_params sig) vs)
          end = Ok (forwarded_pos (f_params sig) vs ++ rpos)) as ->.
  { destruct (f_varargs sig) as [x |] eqn:Hx.
    - destruct (Hxprop x eq_refl) as (Hxp & _ & Hxy).
      rewrite lookup_insert_ne by (by apply not_eq_sym).
      unfold locals_of. simpl. rewrite Hx.
      destruct (f_varkw sig) as [y |] eqn:Hy.
      + rewrite lookup_insert_ne by congruence.
        by rewrite lookup_insert_eq.
      + by rewrite lookup_insert_eq.
    - rewrite (Hva eq_refl). by rewrite app_nil_r. }
  simpl.
  destruct (f_varkw sig) as [y |] eqn:Hy.
  + destruct (Hyprop y eq_refl) as [Hyp _].
    rewrite lookup_insert_ne by (by apply not_eq_sym).
    unfold locals_of. simpl. rewrite Hy. rewrite lookup_insert_eq.
    rewrite decide_True; [done |].
    apply map_disjoint_spec. intros x v1 v2 H1 H2.
    destruct (decide (x ∈ (f_params sig).*1)) as [Hx | Hx].
    * rewrite Hin in H1 by done. done.
    * rewrite forwarded_kw_lookup_None in H2 by done. done.
  + rewrite (Hkn eq_refl). by rewrite (right_id_L ∅ (∪)).
Qed.

(** Each parameter with a default is passed by keyword. *)
Lemma forwarded_kw_defaulted ps : ∀ (vs : list value) a d,
  length vs = length ps →
  (a, Some d) ∈ ps →
  a ∈ dom (forwarded_kw ps vs).
Proof.
  induction ps as [| [a0 [d0 |]] ps IH]; intros vs a d Hlen Hin.
  - by apply elem_of_nil in Hin.
  - destruct vs as [| v vs]; [done |]. simpl. rewrite dom_insert.
    apply elem_of_cons in Hin as [[= -> ->] | Hin].
    + apply elem_of_union_l, elem_of_singleton. done.
    + apply elem_of_union_r. apply (IH vs a d); [| done].
      simpl in Hlen. lia.
  - destruct vs as [| v vs]; [done |]. simpl.
    apply elem_of_cons in Hin as [[=] | Hin].
    apply (IH vs a d); [| done]. simpl in Hlen. lia.
Qed.

(** One positional argument more than the forwarded call passes does not
    fit: it is left over, or it lands on a parameter passed by keyword. *)
Lemma bind_params_shifted ps : ∀ (vs : list value) (x : value) kw,
  length vs = length ps →
  defaults_at_tail ps →
  (∀ a d, (a, Some d) ∈ ps → a ∈ dom kw) →
  match bind_params ps (x :: forwarded_pos ps vs) kw with
  | Ok (_, rpos, _) => rpos ≠ []
  | Raise _ => True
  end.
Proof.
  induction ps as [| [a0 [d0 |]] ps IH]; intros vs x kw Hlen Htail Hkw.
  - done.
  - destruct vs as [| v vs]; [done |].
    cbn [forwarded_pos]. rewrite forwarded_pos_all_default by done.
    cbn [bind_params]. rewrite decide_True; [done |].
    apply (Hkw a0 d0), list_elem_of_here.
  - destruct vs as [| v vs]; [done |].
    cbn [forwarded_pos bind_params]. case_decide; [done |].
    assert (length vs = length ps) as Hlen' by (simpl in Hlen; lia).
    assert (∀ a d, (a, Some d) ∈ ps → a ∈ dom kw) as Hkw'.
    { intros a d Hin. apply (Hkw a d). by apply list_elem_of_further. }
    specialize (IH vs v kw Hlen' Htail Hkw').
    destruct (bind_params ps (v :: forwarded_pos ps vs) kw)
      as [[[vs' rpos'] rkw'] |]; done.
Qed.

End ForwardMore.

Section ForwardExtras.
Import ModuleClsProxy ProxyExamples SharedExamples.
Local Ltac by_compute := apply (bool_decide_unpack _); vm_compute; exact I.

(** X23.  The receiver is recognised by its name only.  For a method that
    is bound to the instance or to its class, declared without [*args] and
    without translations, whose first parameter is not named [self] and
    whose parameters are named neither [p] nor [_proxy] (the names the
    generated text uses for itself), the generated function keeps that
    first parameter, and the bound method gets it as one positional
    argument too many: with an instance installed, no call through the
    generated function returns. *)
Theorem receiver_not_named_self :
  ∀ (w : world) (g : loc) (name : string) (kind : method_kind)
    (spec : argspec) (doc : option string) (self : instance)
    (pos : list value) (kw : gmap string value),
    dict_of w g !! "_proxy" = Some (EVal (VInst self)) →
    members_of w (inst_cls self) !! name
      = Some (MFunction kind spec [] doc) →
    kind ≠ StaticMethod →
    head (spec_args spec) ≠ Some "self" →
    spec_varargs spec = None →
    NoDup (param_names spec) →
    "p" ∉ param_names spec →
    "_proxy" ∉ param_names spec →
    pf_outer (func_text name g spec [] doc) = signature spec
    ∧ is_ok (call_proxy_function w (func_text name g spec [] doc) pos kw)
      = false.
Proof.
  intros w g name kind spec doc self pos kw Hproxy Hm Hkind Hhead Hva
    Hnd Hp Hpx.
  destruct (func_text_plain name g spec doc)
    as (Hname & Houter & Htr & Hg & Hip & Hiv & Hik).
  rewrite (pop_self_other spec Hhead) in *.
  split; [done |].
  rewrite (call_proxy_function_installed w _ self
             (MFunction kind spec [] doc));
    [| done | by rewrite Houter, parameters_signature
     | by rewrite Hg | by rewrite Hname].
  rewrite Houter, Hname.
  set (inner := pf_inner (func_text name g spec [] doc)) in *.
  set (sig := signature spec) in *.
  destruct (bind sig pos kw) as [b |] eqn:Hb; [| done].
  rewrite result_bind_Ok.
  destruct (forward_explicit sig inner pos kw b (LVal (VInst self)))
    as [Hlen Heval]; try done.
  { unfold sig. by rewrite signature_names. }
  { unfold sig. by rewrite signature_names. }
  rewrite Heval, result_bind_Ok. unfold invoke. fold sig.
  assert (b_varargs b = []) as Hnil.
  { apply bind_Ok in Hb as (_ & Hvn & _). by apply Hvn. }
  rewrite Hnil, app_nil_r.
  assert (∃ r, receiver kind self = [r]) as [r ->].
  { destruct kind; [by eexists | by eexists | done]. }
  cbn [app]. unfold bind.
  pose proof (bind_params_shifted (f_params sig) (b_args b) r
                (forwarded_kw (f_params sig) (b_args b) ∪ b_kw b) Hlen)
    as Hshift.
  destruct (bind_params (f_params sig) _ _) as [[[vs' rpos'] rkw'] |];
    [| done].
  simpl. rewrite decide_True; [done |]. split; [done |].
  apply Hshift.
  - unfold sig, signature. apply formatargspec_tail.
  - intros a d Hin. rewrite dom_union. apply elem_of_union_l.
    by apply (forwarded_kw_defaulted _ _ a d).
Qed.

(** X23, at a concrete state: the class method [create(cls, url)] of
    [Context], called through its generated function with a class and a
    string, and with a string alone. *)
Lemma receiver_not_named_self_witness :
  is_ok (call_proxy_function w_context
           (func_text "create" 1 create_spec [] None)
           [VClass Context; VStr "sqlite://"] ∅) = false
  ∧ is_ok (call_proxy_function w_context
             (func_text "create" 1 create_spec [] None)
             [VStr "sqlite://"] ∅) = false.
Proof.
  assert (dict_of w_context 1 !! "_proxy" = Some (EVal (VInst ctx))) as Hp
    by (vm_compute; reflexivity).
  assert (members_of w_context (inst_cls ctx) !! "create"
          = Some (MFunction ClassMethod create_spec [] None)) as Hm
    by (vm_compute; reflexivity).
  assert (ClassMethod ≠ StaticMethod) as Hk by discriminate.
  assert (head (spec_args create_spec) ≠ Some "self") as Hh by discriminate.
  assert (NoDup (param_names create_spec)) as Hnd by by_compute.
  assert ("p" ∉ param_names create_spec) as Hnp by by_compute.
  assert ("_proxy" ∉ param_names create_spec) as Hnx by by_compute.
  split.
  - apply (receiver_not_named_self w_context 1%positive "create"
             ClassMethod create_spec None ctx
             [VClass Context; VStr "sqlite://"] ∅ Hp Hm Hk Hh eq_refl Hnd
             Hnp Hnx).
  - apply (receiver_not_named_self w_context 1%positive "create"
             ClassMethod create_spec None ctx [VStr "sqlite://"] ∅
             Hp Hm Hk Hh eq_refl Hnd Hnp Hnx).
Defined.

End ForwardExtras.

(** ** A parameter called [_proxy] *)

Section ShadowMore.
Import ModuleClsProxy ProxyExamples.



End ShadowMore.

Section ShadowExtras.
Import ModuleClsProxy ProxyExamples ShadowExamples.
Local Ltac by_compute := apply (bool_decide_unpack _); vm_compute; exact I.



End ShadowExtras.

(** ** Plain helpers: properties *)

Section HelpersMore.
Import Helpers.

Local Ltac char_cases a :=
  destruct a as [[] [] [] [] [] [] [] []]; vm_compute;
  (split;
   [ let H := fresh in intros H; try discriminate H; auto
   | let H := fresh in intros [H | H]; try discriminate H; reflexivity ]).

Lemma lower_char_t a :
  lower_char a = "t"%char ↔ a = "t"%char ∨ a = "T"%char.
Proof. char_cases a. Qed.

Lemma lower_char_r a :
  lower_char a = "r"%char ↔ a = "r"%char ∨ a = "R"%char.
Proof. char_cases a. Qed.

Lemma lower_char_u a :
  lower_char a = "u"%char ↔ a = "u"%char ∨ a = "U"%char.
Proof. char_cases a. Qed.

Lemma lower_char_e a :
  lower_char a = "e"%char ↔ a = "e"%char ∨ a = "E"%char.
Proof. char_cases a. Qed.

End HelpersMore.

Section HelpersExtras.
Import Helpers.

(** X16.  [asbool] answers [True] for the sixteen spellings of 'true' in
    upper and lower case and for nothing else: not for a string with a
    blank around the word, and not for [None], for which it answers
    [False].  A value that is neither [None] nor a string has no [lower]:
    the call raises [AttributeError]. *)
Theorem asbool_true_iff :
  ∀ (value : pyval),
    (asbool value = Ok true ↔
     ∃ a b c d,
       value = PStr (String a (String b (String c (String d ""))))
       ∧ (a = "t" ∨ a = "T")%char ∧ (b = "r" ∨ b = "R")%char
       ∧ (c = "u" ∨ c = "U")%char ∧ (d = "e" ∨ d = "E")%char)
    ∧ (is_ok (asbool value) = true ↔
       value = PNone ∨ ∃ s, value = PStr s).
Proof.
  intros value. split.
  - split.
    + destruct value as [| z | s | items | items]; simpl; try discriminate.
      intros [= Hl%bool_decide_eq_true].
      destruct s as [| a [| b [| c [| d [| x s]]]]]; simpl in Hl;
        try discriminate Hl.
      injection Hl as Ha Hb Hc Hd.
      exists a, b, c, d. split; [done |].
      by rewrite <- lower_char_t, <- lower_char_r, <- lower_char_u,
        <- lower_char_e.
    + intros (a & b & c & d & -> & Ha & Hb & Hc & Hd). simpl.
      apply lower_char_t in Ha. apply lower_char_r in Hb.
      apply lower_char_u in Hc. apply lower_char_e in Hd.
      rewrite Ha, Hb, Hc, Hd. done.
  - split.
    + destruct value; simpl; try discriminate; [by left |].
      intros _. right. by eexists.
    + by intros [-> | [s ->]].
Qed.

(** X17.  [to_list] gives back [default] for [None] only.  For any other
    argument it accepts, the result is a list: the one-item list of the
    string itself when the argument is a string, an empty string
    included, and never the list of its characters; and the result is a
    fixed point, [to_list] of it being itself.  The arguments it refuses
    with [ValueError] are those that are neither [None], nor strings, nor
    iterable. *)
Theorem to_list_idempotent :
  ∀ (x default default' y : pyval),
    x ≠ PNone →
    to_list x default = Ok y →
    (∃ items, y = PList items)
    ∧ (∀ s, x = PStr s → y = PList [PStr s])
    ∧ to_list y default' = Ok y.
Proof.
  intros x default default' y Hx Hy.
  destruct x as [| z | s | items | items]; simpl in Hy; try done;
    injection Hy as <-; (split_and!; [by eexists | | done]);
    by intros s' [= <-].
Qed.

(** X17, at a concrete argument: the empty string. *)
Lemma to_list_idempotent_witness :
  to_list (PStr "") PNone = Ok (PList [PStr ""])
  ∧ to_list (PList [PStr ""]) PNone = Ok (PList [PStr ""]).
Proof.
  destruct (to_list_idempotent (PStr "") PNone PNone (PList [PStr ""]))
    as (_ & _ & Hid); [done | reflexivity |].
  split; [reflexivity | exact Hid].
Defined.

(** X18.  [to_list] and [to_tuple] accept the same arguments and hold the
    same items: for an argument other than [None], converting the result
    of one with the other is converting the argument with the other. *)
Theorem to_tuple_to_list :
  ∀ (x default default' : pyval),
    x ≠ PNone →
    (is_ok (to_list x default) = is_ok (to_tuple x default))
    ∧ (∀ y, to_list x default = Ok y →
         to_tuple y default' = to_tuple x default')
    ∧ (∀ y, to_tuple x default = Ok y →
         to_list y default' = to_list x default')
    ∧ (∀ y z, to_list x default = Ok y → to_tuple x default = Ok z →
         ∃ items, y = PList items ∧ z = PTuple items).
Proof.
  intros x default default' Hx.
  destruct x as [| z | s | items | items]; try done; simpl;
    (split_and!; [done | ..]);
    try (intros y [= <-]; done); try done;
    intros y z [= <-] [= <-]; by eexists.
Qed.

(** X18, at a concrete argument: a tuple of two integers. *)
Lemma to_tuple_to_list_witness :
  to_list (PTuple [PInt 1; PInt 2]) PNone = Ok (PList [PInt 1; PInt 2])
  ∧ to_tuple (PList [PInt 1; PInt 2]) PNone
    = to_tuple (PTuple [PInt 1; PInt 2]) PNone.
Proof.
  destruct (to_tuple_to_list (PTuple [PInt 1; PInt 2]) PNone PNone)
    as (_ & Hlt & _); [done |].
  split; [reflexivity |]. by apply Hlt.
Defined.

End HelpersExtras.

Section ImmutabledictMore.
Import immutabledict.
Context `{Countable K} {V : Type}.

Lemma union_eq (self d : gmap K V) : union self d = d ∪ self.
Proof.
  unfold union. case_decide as Hs; [| done].
  apply map_size_empty_inv in Hs as ->. by rewrite (right_id_L ∅ (∪)).
Qed.

End ImmutabledictMore.

Section ImmutabledictExtras.
Import immutabledict.

(** X19.  [immutabledict.union] merges with the argument winning: a key of
    [d] has the value [d] gives it, any other key the value [self] gives
    it, whether [self] is empty or not.  So the empty dictionary is
    neutral on both sides, and [union] is associative.  None of the
    methods that would write a [dict] does: each raises [TypeError], and
    after any sequence of such calls the dictionary holds what it held. *)
Theorem immutabledict_union :
  ∀ (K : Type) (EqK : EqDecision K) (CntK : Countable K) (V : Type)
    (a b c : gmap K V),
    (∀ k, union a b !! k =
       match b !! k with Some v => Some v | None => a !! k end)
    ∧ union a ∅ = a
    ∧ union ∅ a = a
    ∧ union (union a b) c = union a (union b c)
    ∧ (∀ ms : list (mutation (K := K) (V := V)),
         Forall (λ m, ∃ msg, (mutate a m).1 = Raise (TypeError msg)) ms
         ∧ foldl (λ s m, (mutate s m).2) a ms = a).
Proof.
  intros K EqK CntK V a b c. split_and!.
  - intros k. rewrite union_eq, lookup_union.
    destruct (b !! k), (a !! k); done.
  - rewrite union_eq. apply (left_id_L ∅ (∪)).
  - rewrite union_eq. apply (right_id_L ∅ (∪)).
  - rewrite !union_eq. by rewrite (assoc_L (∪)).
  - intros ms. split.
    + apply Forall_forall. intros m _. by eexists.
    + induction ms as [| m ms IH]; [done |]. simpl. exact IH.
Qed.

End ImmutabledictExtras.

Section MemoizedExtras.
Import memoized_property.

(** X20.  A [memoized_property] bound in a class under the name of its
    function is evaluated once per object: the first access calls [fget]
    and stores the result in the [__dict__] of the object; every later
    access returns that result without calling [fget], whatever the rest
    of the object has become, as long as the stored entry is there.
    Looked up on the class, with no object, it is the descriptor itself. *)
Theorem memoized_property_once :
  ∀ (V : Type) (self : memoized_property (V := V)) (o : object (V := V)),
    ob_dict o !! __name__ self = None →
    (getattr self (__name__ self) o).1 = inr (fget self (ob_dict o))
    ∧ ob_calls (getattr self (__name__ self) o).2 = S (ob_calls o)
    ∧ (∀ o' : object,
         ob_dict o' !! __name__ self
           = ob_dict (getattr self (__name__ self) o).2 !! __name__ self →
         getattr self (__name__ self) o'
           = (inr (fget self (ob_dict o)), o'))
    ∧ __get__ self None = (inl self, None).
Proof.
  intros V self o Hnone. unfold getattr. rewrite Hnone. simpl.
  split_and!; [done | done | | done].
  intros o'. rewrite lookup_insert_eq. by intros ->.
Qed.

(** X20, at a concrete object: the property [total] of an object whose
    [n] is 3, read, then read again after [n] has become 4. *)
Lemma memoized_property_once_witness :
  let p :=
    MemoizedProperty (λ d : gmap string Z, default 0%Z (d !! "n") + 1)%Z
      "total" None in
  let o := Object {["n" := 3%Z]} 0 in
  let o1 := (getattr p "total" o).2 in
  let o2 := Object (<["n" := 4%Z]> (ob_dict o1)) (ob_calls o1) in
  getattr p "total" o2 = (inr 4%Z, o2) ∧ ob_calls o2 = 1.
Proof.
  intros p o o1 o2.
  destruct (memoized_property_once Z p o) as (_ & Hc & Hlater & _);
    [reflexivity |].
  split; [| exact Hc]. apply Hlater. reflexivity.
Defined.

(** X21.  A [memoized_property] bound under a name other than the name of
    its function is not memoized: the result is stored under the name of
    the function, so each access under the other name calls [fget] again
    and returns what it returns then. *)
Theorem memoized_property_other_name :
  ∀ (V : Type) (self : memoized_property (V := V)) (attr : string)
    (o : object (V := V)),
    attr ≠ __name__ self →
    ob_dict o !! attr = None →
    (getattr self attr o).1 = inr (fget self (ob_dict o))
    ∧ ob_calls (getattr self attr o).2 = S (ob_calls o)
    ∧ ob_dict (getattr self attr o).2 !! attr = None
    ∧ (getattr self attr (getattr self attr o).2).1
      = inr (fget self (<[__name__ self := fget self (ob_dict o)]>
                          (ob_dict o)))
    ∧ ob_calls (getattr self attr (getattr self attr o).2).2
      = S (S (ob_calls o)).
Proof.
  intros V self attr o Hne Hnone.
  assert (getattr self attr o =
            (inr (fget self (ob_dict o)),
             Object (<[__name__ self := fget self (ob_dict o)]> (ob_dict o))
               (S (ob_calls o)))) as Hfirst.
  { unfold getattr. by rewrite Hnone. }
  rewrite Hfirst. simpl. split_and!; [done | done | | |].
  - by rewrite lookup_insert_ne.
  - unfold getattr. simpl. by rewrite lookup_insert_ne, Hnone.
  - unfold getattr. simpl. by rewrite lookup_insert_ne, Hnone.
Qed.

(** X21, at a concrete object: the function [compute] bound as [total]. *)
Lemma memoized_property_other_name_witness :
  let p :=
    MemoizedProperty (λ d : gmap string Z, default 0%Z (d !! "n") + 1)%Z
      "compute" None in
  let o := Object {["n" := 3%Z]} 0 in
  ob_calls (getattr p "total" (getattr p "total" o).2).2 = 2.
Proof.
  intros p o.
  destruct (memoized_property_other_name Z p "total" o)
    as (_ & _ & _ & _ & Hc); [discriminate | reflexivity | exact Hc].
Defined.

End MemoizedExtras.

(** ** Revision identifiers: lemmas *)

Section RevIdMore.
Import Helpers.

(** The digits [hex] writes after [0x]. *)
Lemma of_N_digits (n : N) :
  ∃ digits, HexString.of_N n = String "0" (String "x" digits)
    ∧ digits = match n with
               | N0 => "0"
               | Npos p => HexString.Raw.of_pos p ""
               end.
Proof. destruct n; by eexists. Qed.

(** One digit for every four bits. *)
Lemma of_pos_length (k : nat) : ∀ (p : positive) (rest : string),
  Pos.size_nat p ≤ 4 * k →
  1 + String.length rest ≤ String.length (HexString.Raw.of_pos p rest)
  ∧ String.length (HexString.Raw.of_pos p rest) ≤ k + String.length rest.
Proof.
  induction k as [| k IH]; intros p rest Hp.
  - destruct p; simpl in Hp; lia.
  - destruct p as [[[[p | p |] | [p | p |] |] | [[p | p |] | [p | p |] |] |]
                  | [[[p | p |] | [p | p |] |] | [[p | p |] | [p | p |] |] |]
                  |];
      simpl in Hp |- *;
      try lia;
      match goal with
      | |- context [HexString.Raw.of_pos ?q ?r] =>
          destruct (IH q r) as [? ?]; [lia |]; simpl in *; lia
      end.
Qed.

Lemma size_nat_bound (n : nat) : ∀ p : positive,
  (N.pos p < 2 ^ N.of_nat n)%N → Pos.size_nat p ≤ n.
Proof.
  induction n as [| n IH]; intros p Hp.
  - change (2 ^ N.of_nat 0)%N with 1%N in Hp. lia.
  - rewrite Nat2N.inj_succ, N.pow_succ_r' in Hp.
    destruct p as [p | p |]; cbn [Pos.size_nat].
    + apply le_n_S, IH. lia.
    + apply le_n_S, IH. lia.
    + lia.
Qed.

Lemma substring_append (a b : string) :
  String.substring 0 (String.length a) (a +:+ b) = a.
Proof. induction a as [| c a IH]; simpl; [by destruct b | by rewrite IH]. Qed.

Lemma length_append (a b : string) :
  String.length (a +:+ b) = String.length a + String.length b.
Proof. induction a as [| c a IH]; simpl; [done | by rewrite IH]. Qed.

End RevIdMore.

Section RevIdExtras.
Import Helpers.

(** X22.  Under Python 2, [rev_id] returns the hexadecimal writing, in
    lower case and without prefix, of the integer drawn reduced modulo
    10^14: at least one and at most twelve digits, from which the number
    is read back.  Under Python 3, where [hex] writes no [L], the slice
    takes the last digit away: the result is that of Python 2 less its
    last character. *)
Theorem rev_id_hex :
  ∀ (u : N),
    let val := (u mod 100000000000000)%N in
    HexString.of_N val = "0x" +:+ rev_id Python2 u
    ∧ HexString.to_N ("0x" +:+ rev_id Python2 u) = val
    ∧ (1 ≤ String.length (rev_id Python2 u) ≤ 12)
    ∧ rev_id Python3 u =
        String.substring 0 (String.length (rev_id Python2 u) - 1)
          (rev_id Python2 u).
Proof.
  intros u val.
  destruct (of_N_digits val) as (digits & Hhex & Hdigits).
  assert (rev_id Python2 u = digits) as H2.
  { unfold rev_id, slice_2_m1, hex. fold val. rewrite Hhex. simpl.
    rewrite length_append. simpl.
    replace (String.length digits + 1 - 1) with (String.length digits)
      by lia.
    apply substring_append. }
  assert (rev_id Python3 u =
            String.substring 0 (String.length digits - 1) digits) as H3.
  { unfold rev_id, slice_2_m1, hex. fold val. by rewrite Hhex. }
  rewrite H2, H3. split; [exact Hhex |]. split; [| split; [| done]].
  - change ("0x" +:+ digits) with (String "0" (String "x" digits)).
    rewrite <- Hhex. apply HexString.to_N_of_N.
  - assert (val < 100000000000000)%N as Hv.
    { unfold val. apply N.mod_upper_bound. discriminate. }
    rewrite Hdigits. clear Hdigits Hhex H2 H3.
    destruct val as [| p]; [cbn [String.length]; lia |].
    assert (Pos.size_nat p ≤ 4 * 12) as Hsize.
    { apply size_nat_bound. eapply N.lt_le_trans; [exact Hv |].
      vm_compute. discriminate. }
    destruct (of_pos_length 12 p "" Hsize) as [Hlo Hhi].
    cbn [String.length] in Hlo, Hhi. lia.
Qed.

End RevIdExtras.
